(** * Results analysis engine of the JMeter MCP server (src/analyzer.ts)

    A shallow embedding of the class [ResultsAnalyzer] and the properties of
    its statistics, aggregation, clustering, classification, recommendation
    and time-series code.

    Conventions of the embedding.
    - The integer fields of a sample ([timestamp], [elapsed], [bytes], ...)
      are produced by [parseInt(..) || 0]; they are modelled as [Z].
    - A derived JavaScript [number] (averages, rates, thresholds) is
      modelled as a rational [Q] that holds the exact value of its
      expression.  Where the rounding of binary64 decides the result, in the
      rank of a percentile and in the cursor, the windows and the throughput
      of the time series, every operation is rounded to the nearest binary64
      number ([round64]).
      Numbers that are not finite in binary64 are not modelled.
    - A JavaScript string is a [string] of code units.
    - An expression whose JavaScript value is not a number of the model
      ([undefined] from an out-of-range index) and a call that throws (a
      [TypeError], a [RangeError]) are [None] in the [option] monad below.
    - A call [f(...xs)] passes the elements of [xs] as arguments; an engine
      passes a bounded number of them ([maxArguments]) and throws a
      [RangeError] beyond it.
    - [Array.prototype.sort] is stable (ECMAScript 2019); for a comparator
      that is a total preorder every stable sort returns the same array, so
      it is modelled by stable insertion ([js_sort]). *)

From Stdlib Require Import String Ascii List ZArith QArith Qround Qpower Bool Lia Lqa.
From Stdlib Require Import Permutation Sorted.
Import ListNotations.

Set Implicit Arguments.

(** ** The error monad *)

Definition bind {A B : Type} (m : option A) (k : A -> option B) : option B :=
  match m with
  | Some a => k a
  | None => None
  end.

Notation "x <- m ;; k" := (bind m (fun x => k))
  (at level 61, m at next level, right associativity).

Fixpoint mapM {A B : Type} (f : A -> option B) (l : list A) : option (list B) :=
  match l with
  | [] => Some []
  | a :: l' => b <- f a ;; bs <- mapM f l' ;; Some (b :: bs)
  end.

(** ** Numbers *)

(** [xs.length] as a number. *)
Definition len {A : Type} (l : list A) : Q := inject_Z (Z.of_nat (length l)).

(** [xs.reduce((sum, n) => sum + n, 0)]. *)
Definition sum (numbers : list Z) : Z := fold_left Z.add numbers 0%Z.

(** [Math.max(x, ...xs)] and [Math.min(x, ...xs)] with at least one argument. *)
Definition Math_max1 (x : Z) (xs : list Z) : Z := fold_left Z.max xs x.
Definition Math_min1 (x : Z) (xs : list Z) : Z := fold_left Z.min xs x.

(** [Math.max(x1, .., xn)] of the arguments given: of no argument it is
    [-Infinity], which is no number of the model. *)
Definition Math_max (xs : list Z) : option Z :=
  match xs with
  | [] => None
  | x :: xs' => Some (Math_max1 x xs')
  end.

Definition Math_min (xs : list Z) : option Z :=
  match xs with
  | [] => None
  | x :: xs' => Some (Math_min1 x xs')
  end.

(** [a > b] on numbers. *)
Definition gt (a b : Q) : bool := negb (Qle_bool a b).
(** [a < b] on numbers. *)
Definition lt (a b : Q) : bool := negb (Qle_bool b a).

(** ** Binary64 arithmetic

    An arithmetic operation of JavaScript returns the binary64 number
    nearest to the exact result, the one with the even significand when two
    are equally near.  A binary64 number has 53 significant bits and its
    last place has an exponent of at least -1074. *)

Definition pow2 (k : Z) : Q := 2 ^ k.

(** The exponent [k] of the binade of a positive number:
    [2^k <= q < 2^(k+1)]. *)
Definition binade (q : Q) : Z :=
  let k := (Z.log2 (Qnum q) - Z.log2 (Z.pos (Qden q)))%Z in
  if Qle_bool (pow2 k) q then k else (k - 1)%Z.

(** The nearest integer, the even one of two equally near. *)
Definition round_half_even (s : Q) : Z :=
  let f := Qfloor s in
  match Qcompare (s - inject_Z f) (1 # 2) with
  | Lt => f
  | Gt => (f + 1)%Z
  | Eq => if Z.even f then f else (f + 1)%Z
  end.

(** The binary64 number nearest to a positive number. *)
Definition round64_pos (q : Q) : Q :=
  let e := Z.max (binade q - 52) (-1074) in
  inject_Z (round_half_even (q / pow2 e)) * pow2 e.

(** The binary64 number nearest to [q], as a fraction in lowest terms. *)
Definition round64 (q : Q) : Q :=
  match Qcompare q 0 with
  | Eq => 0
  | Gt => Qred (round64_pos q)
  | Lt => Qred (- round64_pos (- q))
  end.

(** [a + b], [a - b], [a * b] and [a / b] on binary64 numbers. *)
Definition js_add (a b : Q) : Q := round64 (a + b).
Definition js_sub (a b : Q) : Q := round64 (a - b).
Definition js_mul (a b : Q) : Q := round64 (a * b).
Definition js_div (a b : Q) : Q := round64 (a / b).

(** ** The engine

    A call [f(...xs)] passes the elements of the array [xs] as the
    arguments of [f].  An engine passes a bounded number of arguments, fewer
    than the 2^32 - 1 elements an array can hold, and throws a [RangeError]
    when [xs] is longer. *)

Class Engine := {
  maxArguments : Z;
  maxArguments_array : (maxArguments < 2 ^ 32 - 1)%Z
}.

(** [f(...xs)] *)
Definition spread {engine : Engine} {A B : Type} (f : list A -> option B)
  (xs : list A) : option B :=
  if (Z.of_nat (length xs) <=? maxArguments)%Z then f xs else None.

(** The elements of [xs] can be passed as the arguments of one call. *)
Definition spreadable {engine : Engine} {A : Type} (xs : list A) : Prop :=
  (Z.of_nat (length xs) <= maxArguments)%Z.

(** ** Stable sorting with a comparator *)

Section JsSort.
Context {A : Type}.
(** The sign of [compareFn(a, b)]. *)
Variable compareFn : A -> A -> comparison.

Fixpoint js_insert (x : A) (l : list A) : list A :=
  match l with
  | [] => [x]
  | y :: l' =>
      match compareFn x y with
      | Gt => y :: js_insert x l'
      | _ => x :: l
      end
  end.

Definition js_sort (l : list A) : list A := fold_right js_insert [] l.
End JsSort.

(** ** Statistics module *)

(** [average] (analyzer.ts, 439-442). *)
Definition average (numbers : list Z) : Q :=
  match numbers with
  | [] => 0
  | _ => inject_Z (sum numbers) / len numbers
  end.

(** [Math.ceil((percentile / 100) * sortedNumbers.length)], the quotient
    and the product being binary64 operations. *)
Definition percentile_rank (n : nat) (p : Q) : Z :=
  Qceiling (js_mul (js_div p 100) (inject_Z (Z.of_nat n))).

(** The index computed by [percentile] before clamping:
    [Math.ceil((percentile / 100) * sortedNumbers.length) - 1], an integer. *)
Definition percentile_index (n : nat) (p : Q) : Z :=
  Qfloor (js_sub (inject_Z (percentile_rank n p)) 1).

(** [percentile] (analyzer.ts, 444-448).  Reading past the end of the array
    gives [undefined], here [None]. *)
Definition percentile (sortedNumbers : list Z) (p : Q) : option Z :=
  match sortedNumbers with
  | [] => Some 0%Z
  | _ =>
      let index := percentile_index (length sortedNumbers) p in
      nth_error sortedNumbers (Z.to_nat (Z.max 0 index))
  end.

(** [(a, b) => a - b] *)
Definition ascending (a b : Z) : comparison := (a - b ?= 0)%Z.

(** ** Data model

    [types.ts] declares the record types; the fields are those of the object
    literals the analyzer builds. *)

Record JTLResult := mkJTLResult {
  timestamp : Z;
  elapsed : Z;
  label : string;
  responseCode : string;
  responseMessage : string;
  threadName : string;
  dataType : string;
  success : bool;
  failureMessage : option string;
  bytes : Z;
  sentBytes : Z;
  grpThreads : Z;
  allThreads : Z;
  latency : Z;
  idleTime : Z;
  connect : Z
}.

Record PerformanceMetrics := mkPerformanceMetrics {
  totalRequests : Q;
  successfulRequests : Q;
  failedRequests : Q;
  errorRate : Q;
  averageResponseTime : Q;
  medianResponseTime : Q;
  minResponseTime : Q;
  maxResponseTime : Q;
  percentile90 : Q;
  percentile95 : Q;
  percentile99 : Q;
  throughput : Q;
  receivedKBPerSec : Q;
  sentKBPerSec : Q;
  avgBytes : Q;
  avgLatency : Q;
  avgConnectTime : Q
}.

Record EndpointMetrics := mkEndpointMetrics {
  em_label : string;
  em_samples : Q;
  em_average : Q;
  em_median : Q;
  em_min : Q;
  em_max : Q;
  em_percentile90 : Q;
  em_percentile95 : Q;
  em_percentile99 : Q;
  em_errorRate : Q;
  em_throughput : Q;
  em_receivedKBPerSec : Q;
  em_sentKBPerSec : Q
}.

Record ErrorAnalysis := mkErrorAnalysis {
  ea_responseCode : string;
  ea_responseMessage : string;
  ea_count : Q;
  ea_percentage : Q;
  ea_affectedEndpoints : list string
}.

(** ['slow-endpoint' | 'high-error-rate' | 'high-latency' | 'low-throughput'] *)
Inductive BottleneckType :=
  slow_endpoint | high_error_rate | high_latency | low_throughput.
Inductive Severity := critical | high | medium | low.

Record Bottleneck := mkBottleneck {
  b_type : BottleneckType;
  b_severity : Severity;
  b_description : string;
  b_affectedEndpoint : string;
  b_metric : string;
  b_value : Q;
  b_threshold : Q
}.

Record TimeSeriesData := mkTimeSeriesData {
  ts_timestamp : Q;
  ts_responseTime : Q;
  ts_throughput : Q;
  ts_activeThreads : Z;
  ts_errorCount : Q
}.

(** ** Aggregator *)

(** [getEmptyMetrics] (analyzer.ts, 461-481). *)
Definition getEmptyMetrics : PerformanceMetrics :=
  {| totalRequests := 0;
     successfulRequests := 0;
     failedRequests := 0;
     errorRate := 0;
     averageResponseTime := 0;
     medianResponseTime := 0;
     minResponseTime := 0;
     maxResponseTime := 0;
     percentile90 := 0;
     percentile95 := 0;
     percentile99 := 0;
     throughput := 0;
     receivedKBPerSec := 0;
     sentKBPerSec := 0;
     avgBytes := 0;
     avgLatency := 0;
     avgConnectTime := 0 |}.

(** [Math.max(...rs.map(r => r.timestamp)) - Math.min(...rs.map(r => r.timestamp))] *)
Definition totalTime {engine : Engine} (results : list JTLResult) : option Z :=
  hi <- spread Math_max (map timestamp results) ;;
  lo <- spread Math_min (map timestamp results) ;;
  Some (hi - lo)%Z.

(** [calculateMetrics] (analyzer.ts, 137-172). *)
Definition calculateMetrics {engine : Engine} (results : list JTLResult)
  : option PerformanceMetrics :=
  match results with
  | [] => Some getEmptyMetrics
  | _ =>
      let successfulResults := filter (fun r => success r) results in
      let failedResults := filter (fun r => negb (success r)) results in
      let responseTimes := js_sort ascending (map elapsed results) in
      totalTime <- totalTime results ;;
      let totalTimeInSeconds := inject_Z totalTime / 1000 in
      median <- percentile responseTimes 50 ;;
      lo <- spread Math_min responseTimes ;;
      hi <- spread Math_max responseTimes ;;
      p90 <- percentile responseTimes 90 ;;
      p95 <- percentile responseTimes 95 ;;
      p99 <- percentile responseTimes 99 ;;
      Some
        {| totalRequests := len results;
           successfulRequests := len successfulResults;
           failedRequests := len failedResults;
           errorRate := (len failedResults / len results) * 100;
           averageResponseTime := average responseTimes;
           medianResponseTime := inject_Z median;
           minResponseTime := inject_Z lo;
           maxResponseTime := inject_Z hi;
           percentile90 := inject_Z p90;
           percentile95 := inject_Z p95;
           percentile99 := inject_Z p99;
           throughput :=
             if gt totalTimeInSeconds 0 then len results / totalTimeInSeconds else 0;
           receivedKBPerSec :=
             if gt totalTimeInSeconds 0
             then inject_Z (sum (map bytes results)) / 1024 / totalTimeInSeconds
             else 0;
           sentKBPerSec :=
             if gt totalTimeInSeconds 0
             then inject_Z (sum (map sentBytes results)) / 1024 / totalTimeInSeconds
             else 0;
           avgBytes := inject_Z (sum (map bytes results)) / len results;
           avgLatency := average (map latency results);
           avgConnectTime := average (map connect results) |}
  end.

(** ** Plain objects used as maps

    [groupBy] and [analyzeErrors] collect arrays under string keys of an
    object literal [{}].  Its own properties are kept in creation order; a
    key that is not an own property is looked up on [Object.prototype]. *)

Definition JsObject (V : Type) : Type := list (string * V).

(** The property names of [Object.prototype]; each holds a function or an
    object, hence a truthy value without a [push] method. *)
Definition Object_prototype_keys : list string :=
  [ "constructor"; "__defineGetter__"; "__defineSetter__"; "hasOwnProperty";
    "__lookupGetter__"; "__lookupSetter__"; "isPrototypeOf";
    "propertyIsEnumerable"; "toString"; "valueOf"; "__proto__";
    "toLocaleString" ]%string.

Definition inherited (k : string) : bool :=
  existsb (String.eqb k) Object_prototype_keys.

Fixpoint own_get {V : Type} (k : string) (o : JsObject V) : option V :=
  match o with
  | [] => None
  | (k', v) :: o' => if String.eqb k k' then Some v else own_get k o'
  end.

(** [o[k].push(item)] for an own property [k]. *)
Fixpoint own_push {T : Type} (k : string) (item : T) (o : JsObject (list T))
  : JsObject (list T) :=
  match o with
  | [] => []
  | (k', v) :: o' =>
      if String.eqb k k' then (k', v ++ [item]) :: o'
      else (k', v) :: own_push k item o'
  end.

(** [if (!groups[k]) { groups[k] = []; } groups[k].push(item);]
    An own property holds an array, which is truthy.  An inherited property
    is truthy too, so no array is created and [push] is not a function: a
    [TypeError]. *)
Definition group_push {T : Type} (groups : JsObject (list T)) (k : string) (item : T)
  : option (JsObject (list T)) :=
  match own_get k groups with
  | Some _ => Some (own_push k item groups)
  | None => if inherited k then None else Some (groups ++ [(k, [item])])
  end.

Definition digit_of (c : ascii) : option N :=
  let n := N_of_ascii c in
  if ((48 <=? n) && (n <=? 57))%N then Some (n - 48)%N else None.

Fixpoint digits_value (s : string) (acc : N) : option N :=
  match s with
  | EmptyString => Some acc
  | String c s' => d <- digit_of c ;; digits_value s' (acc * 10 + d)%N
  end.

(** A property key is an array index when it is the canonical decimal
    numeral of an integer below 2^32 - 1. *)
Definition array_index (k : string) : option N :=
  match k with
  | EmptyString => None
  | String c s' =>
      if Ascii.eqb c "0" && negb (String.eqb s' "") then None
      else v <- digits_value k 0 ;; if (v <? 2 ^ 32 - 1)%N then Some v else None
  end.

Definition is_index (k : string) : bool :=
  match array_index k with Some _ => true | None => false end.

Definition index_entries {V : Type} (o : JsObject V) : list (N * (string * V)) :=
  flat_map (fun kv => match array_index (fst kv) with
                      | Some i => [(i, kv)]
                      | None => []
                      end) o.

(** [Object.entries(o)]: array-index keys in ascending numeric order, then
    the other keys in creation order. *)
Definition Object_entries {V : Type} (o : JsObject V) : list (string * V) :=
  map snd (js_sort (fun a b => N.compare (fst a) (fst b)) (index_entries o))
  ++ filter (fun kv => negb (is_index (fst kv))) o.

(** [groupBy] (analyzer.ts, 450-459), with the key given as a projection. *)
Definition groupBy {T : Type} (array : list T) (key : T -> string)
  : option (JsObject (list T)) :=
  fold_left (fun groups item => g <- groups ;; group_push g (key item) item)
            array (Some []).

(** [(a, b) => b.average - a.average] *)
Definition by_average_desc (a b : EndpointMetrics) : comparison :=
  em_average b - em_average a ?= 0.

(** The body of the loop of [calculateEndpointMetrics] (analyzer.ts, 181-207). *)
Definition endpointMetricsOf {engine : Engine} (label : string)
  (endpointResults : list JTLResult) : option EndpointMetrics :=
  let responseTimes := js_sort ascending (map elapsed endpointResults) in
  let failedCount := len (filter (fun r => negb (success r)) endpointResults) in
  totalTime <- totalTime endpointResults ;;
  let totalTimeInSeconds := inject_Z totalTime / 1000 in
  median <- percentile responseTimes 50 ;;
  lo <- spread Math_min responseTimes ;;
  hi <- spread Math_max responseTimes ;;
  p90 <- percentile responseTimes 90 ;;
  p95 <- percentile responseTimes 95 ;;
  p99 <- percentile responseTimes 99 ;;
  Some
    {| em_label := label;
       em_samples := len endpointResults;
       em_average := average responseTimes;
       em_median := inject_Z median;
       em_min := inject_Z lo;
       em_max := inject_Z hi;
       em_percentile90 := inject_Z p90;
       em_percentile95 := inject_Z p95;
       em_percentile99 := inject_Z p99;
       em_errorRate := (failedCount / len endpointResults) * 100;
       em_throughput :=
         if gt totalTimeInSeconds 0 then len endpointResults / totalTimeInSeconds else 0;
       em_receivedKBPerSec :=
         if gt totalTimeInSeconds 0
         then inject_Z (sum (map bytes endpointResults)) / 1024 / totalTimeInSeconds
         else 0;
       em_sentKBPerSec :=
         if gt totalTimeInSeconds 0
         then inject_Z (sum (map sentBytes endpointResults)) / 1024 / totalTimeInSeconds
         else 0 |}.

(** [calculateEndpointMetrics] (analyzer.ts, 177-210). *)
Definition calculateEndpointMetrics {engine : Engine} (results : list JTLResult)
  : option (list EndpointMetrics) :=
  endpointGroups <- groupBy results label ;;
  metrics <- mapM (fun entry => endpointMetricsOf (fst entry) (snd entry))
                  (Object_entries endpointGroups) ;;
  Some (js_sort by_average_desc metrics).

(** ** Error analyzer *)

(** [`${result.responseCode}-${result.responseMessage}`] *)
Definition errorKey (result : JTLResult) : string :=
  (responseCode result ++ "-" ++ responseMessage result)%string.

(** [[...new Set(xs)]]: the distinct elements in order of first occurrence. *)
Definition Set_add (s : list string) (x : string) : list string :=
  if existsb (String.eqb x) s then s else s ++ [x].
Definition Set_of (xs : list string) : list string := fold_left Set_add xs [].

(** The [errorGroups] object built by [analyzeErrors] (analyzer.ts, 219-227). *)
Definition errorGroups (failedResults : list JTLResult)
  : option (JsObject (list JTLResult)) :=
  fold_left (fun groups result => g <- groups ;; group_push g (errorKey result) result)
            failedResults (Some []).

(** The callback of [map] in [analyzeErrors]; [errors[0]] of an empty array
    is [undefined], whose property cannot be read. *)
Definition errorCluster (results : list JTLResult) (errors : list JTLResult)
  : option ErrorAnalysis :=
  match errors with
  | [] => None
  | e0 :: _ =>
      let affectedEndpoints := Set_of (map label errors) in
      Some {| ea_responseCode := responseCode e0;
              ea_responseMessage := responseMessage e0;
              ea_count := len errors;
              ea_percentage := (len errors / len results) * 100;
              ea_affectedEndpoints := affectedEndpoints |}
  end.

(** [(a, b) => b.count - a.count] *)
Definition by_count_desc (a b : ErrorAnalysis) : comparison :=
  ea_count b - ea_count a ?= 0.

(** [analyzeErrors] (analyzer.ts, 215-239). *)
Definition analyzeErrors (results : list JTLResult) : option (list ErrorAnalysis) :=
  let failedResults := filter (fun r => negb (success r)) results in
  match failedResults with
  | [] => Some []
  | _ =>
      groups <- errorGroups failedResults ;;
      clusters <- mapM (fun entry => errorCluster results (snd entry))
                       (Object_entries groups) ;;
      Some (js_sort by_count_desc clusters)
  end.

(** ** Bottleneck classifier *)

(** The double-quote character and the one-character string holding it. *)
Definition dquote : ascii := "034"%char.
Definition dq : string := String dquote EmptyString.

(** [array.push(x)] *)
Definition push {A : Type} (array : list A) (x : A) : list A := array ++ [x].

(** The body of the loop of [identifyBottlenecks] (analyzer.ts, 251-289). *)
Definition checkEndpoint (bottlenecks : list Bottleneck) (endpoint : EndpointMetrics)
  : list Bottleneck :=
  let bottlenecks :=
    if gt (em_average endpoint) 2000 then
      push bottlenecks
        {| b_type := slow_endpoint;
           b_severity :=
             if gt (em_average endpoint) 5000 then critical
             else if gt (em_average endpoint) 3000 then high else medium;
           b_description :=
             ("Endpoint " ++ dq ++ em_label endpoint ++ dq ++ " has slow response time")%string;
           b_affectedEndpoint := em_label endpoint;
           b_metric := "Average Response Time";
           b_value := em_average endpoint;
           b_threshold := 2000 |}
    else bottlenecks in
  let bottlenecks :=
    if gt (em_errorRate endpoint) 5 then
      push bottlenecks
        {| b_type := high_error_rate;
           b_severity :=
             if gt (em_errorRate endpoint) 20 then critical
             else if gt (em_errorRate endpoint) 10 then high else medium;
           b_description :=
             ("Endpoint " ++ dq ++ em_label endpoint ++ dq ++ " has high error rate")%string;
           b_affectedEndpoint := em_label endpoint;
           b_metric := "Error Rate";
           b_value := em_errorRate endpoint;
           b_threshold := 5 |}
    else bottlenecks in
  if gt (em_percentile95 endpoint) 1000 then
    push bottlenecks
      {| b_type := high_latency;
         b_severity :=
           if gt (em_percentile95 endpoint) 3000 then critical
           else if gt (em_percentile95 endpoint) 2000 then high else medium;
         b_description :=
           ("Endpoint " ++ dq ++ em_label endpoint ++ dq
            ++ " has high latency at 95th percentile")%string;
         b_affectedEndpoint := em_label endpoint;
         b_metric := "95th Percentile";
         b_value := em_percentile95 endpoint;
         b_threshold := 1000 |}
  else bottlenecks.

(** [{ critical: 0, high: 1, medium: 2, low: 3 }] *)
Definition severityOrder (s : Severity) : Z :=
  match s with
  | critical => 0
  | high => 1
  | medium => 2
  | low => 3
  end.

Definition by_severity (a b : Bottleneck) : comparison :=
  (severityOrder (b_severity a) - severityOrder (b_severity b) ?= 0)%Z.

(** The bottlenecks collected by [identifyBottlenecks] before the final sort. *)
Definition collectBottlenecks (metrics : PerformanceMetrics)
  (endpointMetrics : list EndpointMetrics) : list Bottleneck :=
  let bottlenecks := fold_left checkEndpoint endpointMetrics [] in
  if gt (errorRate metrics) 5 then
    push bottlenecks
      {| b_type := high_error_rate;
         b_severity :=
           if gt (errorRate metrics) 20 then critical
           else if gt (errorRate metrics) 10 then high else medium;
         b_description := "Overall error rate is high";
         b_affectedEndpoint := "All endpoints";
         b_metric := "Error Rate";
         b_value := errorRate metrics;
         b_threshold := 5 |}
  else bottlenecks.

(** [identifyBottlenecks] (analyzer.ts, 244-308). *)
Definition identifyBottlenecks (metrics : PerformanceMetrics)
  (endpointMetrics : list EndpointMetrics) : list Bottleneck :=
  js_sort by_severity (collectBottlenecks metrics endpointMetrics).

(** ** Recommendation engine *)

Definition fallback : string :=
  "Performance looks good! Continue monitoring and consider stress testing with higher loads.".

(** First loop of [generateRecommendations] (analyzer.ts, 321-335): the
    chain of [if] and [else if] has no final [else]. *)
Definition adviseBottleneck (recommendations : list string) (bottleneck : Bottleneck)
  : list string :=
  match b_type bottleneck with
  | slow_endpoint =>
      push recommendations
        ("Optimize " ++ dq ++ b_affectedEndpoint bottleneck ++ dq
         ++ ": Consider database query optimization, caching, or code profiling.")%string
  | high_error_rate =>
      push recommendations
        ("Investigate errors in " ++ dq ++ b_affectedEndpoint bottleneck ++ dq
         ++ ": Check server logs, validate input data, and review error handling.")%string
  | high_latency =>
      push recommendations
        ("Reduce latency for " ++ dq ++ b_affectedEndpoint bottleneck ++ dq
         ++ ": Review network configuration, enable compression, or use CDN.")%string
  | low_throughput => recommendations
  end.

(** Second loop of [generateRecommendations] (analyzer.ts, 338-352). *)
Definition adviseError (recommendations : list string) (error : ErrorAnalysis)
  : list string :=
  if String.prefix "5" (ea_responseCode error) then
    push recommendations
      ("Server errors (" ++ ea_responseCode error
       ++ "): Review server capacity, check for memory leaks, and monitor resource usage.")%string
  else if String.eqb (ea_responseCode error) "404" then
    push recommendations
      "404 errors found: Verify API endpoints are correctly configured and accessible."%string
  else if String.eqb (ea_responseCode error) "401"
          || String.eqb (ea_responseCode error) "403" then
    push recommendations
      "Authentication/Authorization errors: Check credentials, tokens, and permission configurations."%string
  else recommendations.

(** The three global heuristics (analyzer.ts, 355-371). *)
Definition adviseMetrics (recommendations : list string) (metrics : PerformanceMetrics)
  : list string :=
  let recommendations :=
    if gt (errorRate metrics) 1 && Qle_bool (errorRate metrics) 5 then
      push recommendations
        "Monitor error trends: Error rate is slightly elevated. Set up alerts to catch increases early."%string
    else recommendations in
  let recommendations :=
    if gt (percentile95 metrics) (averageResponseTime metrics * 2) then
      push recommendations
        "Inconsistent response times: Consider implementing request queuing or load balancing to stabilize performance."%string
    else recommendations in
  if lt (throughput metrics) 10 then
    push recommendations
      "Low throughput detected: Consider horizontal scaling, optimizing resource usage, or increasing connection pools."%string
  else recommendations.

(** The advisories produced before the fallback is considered. *)
Definition advisories (metrics : PerformanceMetrics) (bottlenecks : list Bottleneck)
  (errors : list ErrorAnalysis) : list string :=
  let recommendations := fold_left adviseBottleneck bottlenecks [] in
  let recommendations := fold_left adviseError (firstn 3 errors) recommendations in
  adviseMetrics recommendations metrics.

(** [generateRecommendations] (analyzer.ts, 313-380). *)
Definition generateRecommendations (metrics : PerformanceMetrics)
  (bottlenecks : list Bottleneck) (errors : list ErrorAnalysis) : list string :=
  let recommendations := advisories metrics bottlenecks errors in
  match recommendations with
  | [] => push recommendations fallback
  | _ => recommendations
  end.

(** ** Time-series bucketer *)

(** The outcome of a call whose loop is run for a bounded number of tests
    of its condition: the call has returned a value, it has thrown, or it is
    still running when the tests are used up. *)
Inductive Outcome (A : Type) : Type :=
| Returned (value : A)
| Thrown
| Pending.

Arguments Thrown {A}.
Arguments Pending {A}.

(** [r => r.timestamp >= time && r.timestamp < time + intervalMs], the sum
    being a binary64 operation. *)
Definition inWindow (time intervalMs : Q) (r : JTLResult) : bool :=
  Qle_bool time (inject_Z (timestamp r))
  && lt (inject_Z (timestamp r)) (js_add time intervalMs).

(** The body of the loop of [generateTimeSeriesData] (analyzer.ts, 394-410);
    the two quotients of the throughput are binary64 operations. *)
Definition bucket {engine : Engine} (results : list JTLResult) (intervalMs time : Q)
  (timeSeriesData : list TimeSeriesData) : option (list TimeSeriesData) :=
  let intervalResults := filter (inWindow time intervalMs) results in
  match intervalResults with
  | [] => Some timeSeriesData
  | _ =>
      let avgResponseTime := average (map elapsed intervalResults) in
      let errorCount := len (filter (fun r => negb (success r)) intervalResults) in
      maxThreads <- spread Math_max (map allThreads intervalResults) ;;
      Some (push timeSeriesData
              {| ts_timestamp := time;
                 ts_responseTime := avgResponseTime;
                 ts_throughput := js_div (len intervalResults) (js_div intervalMs 1000);
                 ts_activeThreads := maxThreads;
                 ts_errorCount := errorCount |})
  end.

(** [for (let time = minTime; time <= maxTime; time += intervalMs) { .. }]
    run for at most [fuel] tests of the loop condition, the sum being a
    binary64 operation. *)
Fixpoint timeSeriesLoop {engine : Engine} (fuel : nat) (results : list JTLResult)
  (intervalMs maxTime time : Q) (timeSeriesData : list TimeSeriesData)
  : Outcome (list TimeSeriesData) :=
  match fuel with
  | O => Pending
  | S fuel' =>
      if Qle_bool time maxTime then
        match bucket results intervalMs time timeSeriesData with
        | Some timeSeriesData' =>
            timeSeriesLoop fuel' results intervalMs maxTime (js_add time intervalMs)
              timeSeriesData'
        | None => Thrown
        end
      else Returned timeSeriesData
  end.

(** The default value of the parameter [intervalMs]. *)
Definition default_intervalMs : Q := 10000.

(** [generateTimeSeriesData] (analyzer.ts, 385-414); [intervalMs = None] is
    a call that leaves the parameter out. *)
Definition generateTimeSeriesData {engine : Engine} (fuel : nat)
  (results : list JTLResult) (intervalMs : option Q)
  : Outcome (list TimeSeriesData) :=
  let intervalMs := match intervalMs with Some i => i | None => default_intervalMs end in
  match results with
  | [] => Returned []
  | _ =>
      match spread Math_min (map timestamp results),
            spread Math_max (map timestamp results) with
      | Some minTime, Some maxTime =>
          timeSeriesLoop fuel results intervalMs (inject_Z maxTime) (inject_Z minTime) []
      | _, _ => Thrown
      end
  end.

(** ** Record parser: one line of the delimited format *)

(** White space removed by [String.prototype.trim], among the code units
    below 256. *)
Definition is_space (c : ascii) : bool :=
  existsb (N.eqb (N_of_ascii c)) [9; 10; 11; 12; 13; 32; 160]%N.

Fixpoint trim_start (s : string) : string :=
  match s with
  | EmptyString => EmptyString
  | String c s' => if is_space c then trim_start s' else s
  end.

Fixpoint trim_end (s : string) : string :=
  match s with
  | EmptyString => EmptyString
  | String c s' =>
      match trim_end s' with
      | EmptyString => if is_space c then EmptyString else String c EmptyString
      | t => String c t
      end
  end.

Definition trim (s : string) : string := trim_end (trim_start s).

(** The loop of [parseCsvLine] (analyzer.ts, 117-128) and the final push. *)
Fixpoint parseCsvLoop (line : string) (values : list string) (current : string)
  (inQuotes : bool) : list string :=
  match line with
  | EmptyString => push values (trim current)
  | String char rest =>
      if Ascii.eqb char dquote then
        parseCsvLoop rest values current (negb inQuotes)
      else if Ascii.eqb char "," && negb inQuotes then
        parseCsvLoop rest (push values (trim current)) EmptyString inQuotes
      else
        parseCsvLoop rest values (current ++ String char EmptyString)%string inQuotes
  end.

(** [parseCsvLine] (analyzer.ts, 112-132). *)
Definition parseCsvLine (line : string) : list string :=
  parseCsvLoop line [] EmptyString false.

(** ** The classifier as the specification words it

    One entry per endpoint and condition that triggers, grouped by
    condition, and one entry for the overall error rate. *)

Definition tier (value high_above critical_above : Q) : Severity :=
  if gt value critical_above then critical
  else if gt value high_above then high else medium.

Definition spec_slow (e : EndpointMetrics) : Bottleneck :=
  {| b_type := slow_endpoint;
     b_severity := tier (em_average e) 3000 5000;
     b_description :=
       ("Endpoint " ++ dq ++ em_label e ++ dq ++ " has slow response time")%string;
     b_affectedEndpoint := em_label e;
     b_metric := "Average Response Time";
     b_value := em_average e;
     b_threshold := 2000 |}.

Definition spec_error (e : EndpointMetrics) : Bottleneck :=
  {| b_type := high_error_rate;
     b_severity := tier (em_errorRate e) 10 20;
     b_description :=
       ("Endpoint " ++ dq ++ em_label e ++ dq ++ " has high error rate")%string;
     b_affectedEndpoint := em_label e;
     b_metric := "Error Rate";
     b_value := em_errorRate e;
     b_threshold := 5 |}.

Definition spec_latency (e : EndpointMetrics) : Bottleneck :=
  {| b_type := high_latency;
     b_severity := tier (em_percentile95 e) 2000 3000;
     b_description :=
       ("Endpoint " ++ dq ++ em_label e ++ dq
        ++ " has high latency at 95th percentile")%string;
     b_affectedEndpoint := em_label e;
     b_metric := "95th Percentile";
     b_value := em_percentile95 e;
     b_threshold := 1000 |}.

Definition spec_overall (m : PerformanceMetrics) : Bottleneck :=
  {| b_type := high_error_rate;
     b_severity := tier (errorRate m) 10 20;
     b_description := "Overall error rate is high";
     b_affectedEndpoint := "All endpoints";
     b_metric := "Error Rate";
     b_value := errorRate m;
     b_threshold := 5 |}.

(** What one pass of the loop body adds. *)
Definition endpointFindings (e : EndpointMetrics) : list Bottleneck :=
  (if gt (em_average e) 2000 then [spec_slow e] else [])
  ++ (if gt (em_errorRate e) 5 then [spec_error e] else [])
  ++ (if gt (em_percentile95 e) 1000 then [spec_latency e] else []).

Definition spec_bottlenecks (m : PerformanceMetrics) (eps : list EndpointMetrics)
  : list Bottleneck :=
  map spec_slow (filter (fun e => gt (em_average e) 2000) eps)
  ++ map spec_error (filter (fun e => gt (em_errorRate e) 5) eps)
  ++ map spec_latency (filter (fun e => gt (em_percentile95 e) 1000) eps)
  ++ (if gt (errorRate m) 5 then [spec_overall m] else []).

(** ** The three sources of advisories *)

(** The bottlenecks for which the first loop of [generateRecommendations]
    has a branch. *)
Definition advised (b : Bottleneck) : bool :=
  match b_type b with
  | low_throughput => false
  | _ => true
  end.

Definition bottleneckAdvice (bottlenecks : list Bottleneck) : list string :=
  fold_left adviseBottleneck bottlenecks [].
Definition errorAdvice (errors : list ErrorAnalysis) : list string :=
  fold_left adviseError (firstn 3 errors) [].
Definition metricAdvice (metrics : PerformanceMetrics) : list string :=
  adviseMetrics [] metrics.

(** ** The windows as the specification words them *)

(** A sample belongs to the window where
    [start <= timestamp < start + intervalMs]. *)
Definition belongs (start intervalMs : Z) (r : JTLResult) : bool :=
  ((start <=? timestamp r) && (timestamp r <? start + intervalMs))%Z.

(** The point of a window: none when no sample belongs to it. *)
Definition windowPoint (results : list JTLResult) (intervalMs start : Z)
  : list TimeSeriesData :=
  match filter (belongs start intervalMs) results with
  | [] => []
  | r :: rs =>
      [ {| ts_timestamp := inject_Z start;
           ts_responseTime := average (map elapsed (r :: rs));
           ts_throughput := js_div (len (r :: rs)) (js_div (inject_Z intervalMs) 1000);
           ts_activeThreads := Math_max1 (allThreads r) (map allThreads rs);
           ts_errorCount := len (filter (fun r => negb (success r)) (r :: rs)) |} ]
  end.

(** The samples of a window, when there are any. *)
Definition windowGroup (results : list JTLResult) (intervalMs start : Z)
  : list (list JTLResult) :=
  match filter (belongs start intervalMs) results with
  | [] => []
  | r :: rs => [r :: rs]
  end.

(** A point that stands for the samples [g] of a window. *)
Definition standsFor (intervalMs : Q) (pt : TimeSeriesData) (g : list JTLResult) : Prop :=
  g <> []
  /\ ts_responseTime pt = average (map elapsed g)
  /\ ts_throughput pt = js_div (len g) (js_div intervalMs 1000)
  /\ ts_errorCount pt = len (filter (fun r => negb (success r)) g).

(** The first [n] window starts from [time] on, [intervalMs] apart. *)
Fixpoint windowStarts (time intervalMs : Z) (n : nat) : list Z :=
  match n with
  | O => []
  | S n' => time :: windowStarts (time + intervalMs) intervalMs n'
  end.

(** The number of window starts from [minTime] up to [maxTime] inclusive. *)
Definition windowCount (minTime maxTime intervalMs : Z) : nat :=
  Z.to_nat ((maxTime - minTime) / intervalMs + 1).

(** One point per walked window that holds a sample. *)
Definition spec_points (results : list JTLResult) (intervalMs minTime maxTime : Z)
  : list TimeSeriesData :=
  flat_map (windowPoint results intervalMs)
           (windowStarts minTime intervalMs (windowCount minTime maxTime intervalMs)).

(** The timestamps are integers that binary64 holds, and so are their sums
    with the interval. *)
Definition safeTimes (intervalMs : Z) (results : list JTLResult) : Prop :=
  Forall (fun r => (- 2 ^ 53 <= timestamp r /\ timestamp r + intervalMs <= 2 ^ 53)%Z)
         results.

(** ** Sample inputs *)

Definition healthy : PerformanceMetrics :=
  {| totalRequests := 100; successfulRequests := 100; failedRequests := 0;
     errorRate := 0; averageResponseTime := 500; medianResponseTime := 450;
     minResponseTime := 100; maxResponseTime := 700; percentile90 := 580;
     percentile95 := 600; percentile99 := 650; throughput := 50;
     receivedKBPerSec := 10; sentKBPerSec := 5; avgBytes := 200;
     avgLatency := 100; avgConnectTime := 10 |}.

Definition sample (t e : Z) (l c m : string) (s : bool) : JTLResult :=
  {| timestamp := t; elapsed := e; label := l; responseCode := c;
     responseMessage := m; threadName := ""; dataType := ""; success := s;
     failureMessage := None; bytes := 2048; sentBytes := 1024; grpThreads := 1;
     allThreads := 1; latency := 0; idleTime := 0; connect := 0 |}.

(** The two samples of the bucketer scenario, at 500 ms and 1700 ms. *)
Definition twoSamples : list JTLResult :=
  [sample 500 10 "X" "200" "OK" true; sample 1700 30 "X" "200" "OK" true].

(** One sample of November 2023, in milliseconds since 1970. *)
Definition recentRun : list JTLResult :=
  [sample 1700000000000 100 "A" "200" "OK" true].

(** One sample with the timestamp 10^21. *)
Definition farRun : list JTLResult :=
  [sample (10 ^ 21) 100 "A" "200" "OK" true].

(** The hundred numbers 1 to 100. *)
Definition hundred : list Z := map Z.of_nat (seq 1 100).


(** An engine that passes up to 500000 arguments. *)
Definition exampleEngine : Engine :=
  {| maxArguments := 500000; maxArguments_array := eq_refl |}.

(** ** Lines of the delimited format as a writer produces them (RFC 4180)

    A field is written bare, when it holds neither the delimiter nor a
    double quote, or enclosed in double quotes with every double quote of
    its value doubled. *)

Inductive CsvField :=
| Bare (value : string)
| Quoted (value : string).

Fixpoint escape_quotes (s : string) : string :=
  match s with
  | EmptyString => EmptyString
  | String c s' =>
      if Ascii.eqb c dquote then String dquote (String dquote (escape_quotes s'))
      else String c (escape_quotes s')
  end.

Definition encodeField (f : CsvField) : string :=
  match f with
  | Bare v => v
  | Quoted v => (dq ++ escape_quotes v ++ dq)%string
  end.

Fixpoint encodeLine (fs : list CsvField) : string :=
  match fs with
  | [] => EmptyString
  | [f] => encodeField f
  | f :: fs' => (encodeField f ++ "," ++ encodeLine fs')%string
  end.

Fixpoint has_char (c : ascii) (s : string) : bool :=
  match s with
  | EmptyString => false
  | String c' s' => Ascii.eqb c' c || has_char c s'
  end.

(** A bare field holds no delimiter and no double quote. *)
Definition wellFormed (f : CsvField) : bool :=
  match f with
  | Bare v => negb (has_char "," v) && negb (has_char dquote v)
  | Quoted _ => true
  end.

(** The value without its double quotes. *)
Fixpoint strip_quotes (s : string) : string :=
  match s with
  | EmptyString => EmptyString
  | String c s' =>
      if Ascii.eqb c dquote then strip_quotes s' else String c (strip_quotes s')
  end.

(** The text of a field that reaches the current value of the parser. *)
Definition fieldText (f : CsvField) : string :=
  match f with
  | Bare v => v
  | Quoted v => strip_quotes v
  end.

(** What [parseCsvLine] makes of a field: its value, without double quotes,
    trimmed. *)
Definition parsedValue (f : CsvField) : string :=
  match f with
  | Bare v => trim v
  | Quoted v => trim (strip_quotes v)
  end.

(** The line [1,"a,b",3]. *)
Definition quotedLine : string := ("1," ++ dq ++ "a,b" ++ dq ++ ",3")%string.

(** The samples that carry the label of [r]. *)
Definition sameLabel (results : list JTLResult) (r : JTLResult) : list JTLResult :=
  filter (fun item => String.eqb (label item) (label r)) results.

(** ** Grouping as the specification words it

    One group per distinct key, in order of first encounter, holding the
    items with that key in input order. *)
Definition spec_groups {T : Type} (key : T -> string) (array : list T)
  : JsObject (list T) :=
  map (fun k => (k, filter (fun item => String.eqb (key item) k) array))
      (Set_of (map key array)).

(** "Not after" for a comparator: [compareFn a b] is not positive. *)
Definition notAfter {A : Type} (compareFn : A -> A -> comparison) (a b : A) : Prop :=
  compareFn a b <> Gt.

(** Two samples of equal elapsed time whose labels are array indices, met
    in the order "2", "1". *)
Definition tiedIndexLabels : list JTLResult :=
  [sample 1000 100 "2" "200" "OK" true; sample 2000 100 "1" "200" "OK" true].

(** A label that names a property of [Object.prototype]. *)
Definition inheritedLabel : list JTLResult :=
  [sample 1000 100 "constructor" "200" "OK" true].

(** Two samples of equal elapsed time with ordinary labels, met in the
    order "B", "A". *)
Definition tiedLabels : list JTLResult :=
  [sample 1000 100 "B" "200" "OK" true; sample 2000 100 "A" "200" "OK" true].

(** Two failures whose (code, message) pairs differ and whose keys agree. *)
Definition failure1 : JTLResult := sample 1000 100 "A" "500" "1-x" false.
Definition failure2 : JTLResult := sample 2000 100 "B" "500-1" "x" false.
Definition collidingFailures : list JTLResult := [failure1; failure2].

(** Two failures with code 404 and one message, on the endpoints A and B. *)
Definition sameError : list JTLResult :=
  [sample 1000 100 "A" "404" "Not Found" false;
   sample 2000 100 "B" "404" "Not Found" false].

(** Two samples lie in one cluster when one group of the object holds both. *)
Definition sameCluster (groups : JsObject (list JTLResult)) (r1 r2 : JTLResult) : Prop :=
  exists k g, In (k, g) groups /\ In r1 g /\ In r2 g.

(** ** Record parser: the row object of one data line

    [parseCsvResults] (analyzer.ts, 81-84) fills an object literal with one
    property per header:
    [headers.forEach((header, index) => { row[header] = values[index] || ''; })]. *)

(** [values[index] || '']: a missing value and the empty value are both ['']. *)
Definition valueAt (values : list string) (index : nat) : string :=
  match nth_error values index with
  | Some v => v
  | None => EmptyString
  end.

(** [o[k] = v] for an own property, created at the end when absent. *)
Fixpoint own_set {V : Type} (k : string) (v : V) (o : JsObject V) : JsObject V :=
  match o with
  | [] => [(k, v)]
  | (k', v') :: o' =>
      if String.eqb k k' then (k', v) :: o' else (k', v') :: own_set k v o'
  end.

(** [row[header] = value]: the setter of [__proto__] ignores a string. *)
Definition row_set (row : JsObject string) (header value : string) : JsObject string :=
  if String.eqb header "__proto__" then row else own_set header value row.

Fixpoint fillRow (headers : list string) (index : nat) (values : list string)
  (row : JsObject string) : JsObject string :=
  match headers with
  | [] => row
  | header :: headers' =>
      fillRow headers' (S index) values (row_set row header (valueAt values index))
  end.

Definition csvRow (headers values : list string) : JsObject string :=
  fillRow headers 0 values [].

(** [row.label || 'Unknown'] (analyzer.ts, 89); [label] is no property of
    [Object.prototype]. *)
Definition rowLabel (row : JsObject string) : string :=
  match own_get "label" row with
  | Some EmptyString | None => "Unknown"
  | Some v => v
  end.

(** ** Sums of derived numbers *)

(** The sum of a list of numbers. *)
Definition qsum (xs : list Q) : Q := fold_right Qplus 0 xs.

(** The figures an endpoint entry shares with a summary. *)
Definition sameFigures (e : EndpointMetrics) (m : PerformanceMetrics) : Prop :=
  em_samples e = totalRequests m
  /\ em_average e = averageResponseTime m
  /\ em_median e = medianResponseTime m
  /\ em_min e = minResponseTime m
  /\ em_max e = maxResponseTime m
  /\ em_percentile90 e = percentile90 m
  /\ em_percentile95 e = percentile95 m
  /\ em_percentile99 e = percentile99 m
  /\ em_errorRate e = errorRate m
  /\ em_throughput e = throughput m
  /\ em_receivedKBPerSec e = receivedKBPerSec m
  /\ em_sentKBPerSec e = sentKBPerSec m.

(** Three samples on two endpoints, one of them failed. *)
Definition mixedRun : list JTLResult :=
  [sample 1000 100 "A" "200" "OK" true;
   sample 2000 300 "B" "500" "Internal Server Error" false;
   sample 3000 200 "A" "200" "OK" true].

(** [b.severity === s], through the rank of the severity. *)
Definition hasSeverity (s : Severity) (b : Bottleneck) : bool :=
  (severityOrder (b_severity b) =? severityOrder s)%Z.

(** The advisory of the throughput heuristic (analyzer.ts, 368-370). *)
Definition lowThroughputAdvice : string :=
  "Low throughput detected: Consider horizontal scaling, optimizing resource usage, or increasing connection pools.".

(** ** Record parser: the delimited format

    [parseCsvResults] (analyzer.ts, 70-107).  Numbers beyond 2^53, which
    [parseInt] rounds, are not modelled. *)

(** [s.split(sep)] for a separator of one character. *)
Fixpoint split_on (sep : ascii) (s : string) : list string :=
  match s with
  | EmptyString => [EmptyString]
  | String c s' =>
      if Ascii.eqb c sep then EmptyString :: split_on sep s'
      else match split_on sep s' with
           | [] => [String c EmptyString]
           | part :: parts => String c part :: parts
           end
  end.

(** The line feed. *)
Definition newline : ascii := "010"%char.

Definition hex_digit_of (c : ascii) : option N :=
  let n := N_of_ascii c in
  if ((48 <=? n) && (n <=? 57))%N then Some (n - 48)%N
  else if ((97 <=? n) && (n <=? 102))%N then Some (n - 87)%N
  else if ((65 <=? n) && (n <=? 70))%N then Some (n - 55)%N
  else None.

(** The value of the longest prefix of digits; [None] when the string
    begins with no digit. *)
Fixpoint digits_prefix (digit : ascii -> option N) (radix : N) (s : string)
  (acc : N) (seen : bool) : option N :=
  match s with
  | EmptyString => if seen then Some acc else None
  | String c s' =>
      match digit c with
      | Some d => digits_prefix digit radix s' (acc * radix + d)%N true
      | None => if seen then Some acc else None
      end
  end.

(** [parseInt(s)] without a radix: leading white space, a sign, the
    prefix [0x] or [0X] for radix 16, then the digits; [None] is [NaN]. *)
Definition parseInt_string (s : string) : option Z :=
  let s := trim_start s in
  let signed :=
    match s with
    | String "-" s' => ((-1)%Z, s')
    | String "+" s' => (1%Z, s')
    | _ => (1%Z, s)
    end in
  let sign := fst signed in
  let s := snd signed in
  n <- match s with
       | String "0" (String "x" s') => digits_prefix hex_digit_of 16 s' 0 false
       | String "0" (String "X" s') => digits_prefix hex_digit_of 16 s' 0 false
       | _ => digits_prefix digit_of 10 s 0 false
       end ;;
  Some (sign * Z.of_N n)%Z.

(** [parseInt(row.name)]: of a missing property it is [NaN]. *)
Definition parseInt (v : option string) : option Z :=
  match v with
  | Some s => parseInt_string s
  | None => None
  end.

(** [a || b] on numbers: [NaN] and 0 are falsy. *)
Definition orElse (a b : option Z) : option Z :=
  match a with
  | Some z => if (z =? 0)%Z then b else a
  | None => b
  end.

(** [a || 0] *)
Definition orZero (a : option Z) : Z :=
  match a with
  | Some z => z
  | None => 0%Z
  end.

(** [row.name || ''] *)
Definition readString (row : JsObject string) (name : string) : string :=
  match own_get name row with
  | Some v => v
  | None => EmptyString
  end.

(** The record pushed for one row (analyzer.ts, 86-103). *)
Definition csvRecord (row : JsObject string) : JTLResult :=
  {| timestamp := orZero (parseInt (own_get "timeStamp" row));
     elapsed := orZero (parseInt (own_get "elapsed" row));
     label := rowLabel row;
     responseCode := readString row "responseCode";
     responseMessage := readString row "responseMessage";
     threadName := readString row "threadName";
     dataType := readString row "dataType";
     success :=
       match own_get "success" row with
       | Some v => String.eqb v "true"
       | None => false
       end;
     failureMessage :=
       match own_get "failureMessage" row with
       | Some EmptyString | None => None
       | Some v => Some v
       end;
     bytes := orZero (parseInt (own_get "bytes" row));
     sentBytes := orZero (parseInt (own_get "sentBytes" row));
     grpThreads := orZero (parseInt (own_get "grpThreads" row));
     allThreads := orZero (parseInt (own_get "allThreads" row));
     latency :=
       orZero (orElse (parseInt (own_get "Latency" row))
                      (parseInt (own_get "latency" row)));
     idleTime :=
       orZero (orElse (parseInt (own_get "IdleTime" row))
                      (parseInt (own_get "idleTime" row)));
     connect :=
       orZero (orElse (parseInt (own_get "Connect" row))
                      (parseInt (own_get "connect" row))) |}.

(** [content.split('\n').filter(line => line.trim())] *)
Definition csvLines (content : string) : list string :=
  filter (fun line => negb (String.eqb (trim line) EmptyString))
         (split_on newline content).

(** The body of the loop over the data lines (analyzer.ts, 77-104). *)
Definition parseCsvRecord (headers : list string) (results : list JTLResult)
  (line : string) : list JTLResult :=
  let values := parseCsvLine line in
  match values with
  | [] => results
  | _ => push results (csvRecord (csvRow headers values))
  end.

(** [parseCsvResults] (analyzer.ts, 70-107). *)
Definition parseCsvResults (content : string) : list JTLResult :=
  let lines := csvLines content in
  match lines with
  | [] => []
  | header :: data =>
      let headers := map trim (split_on "," header) in
      fold_left (parseCsvRecord headers) data []
  end.

(** Lines joined by line feeds. *)
Fixpoint unlines (lines : list string) : string :=
  match lines with
  | [] => EmptyString
  | [l] => l
  | l :: ls => (l ++ String newline (unlines ls))%string
  end.

(** The carriage return and a line with one at its end. *)
Definition carriageReturn : ascii := "013"%char.
Definition withCR (line : string) : string :=
  (line ++ String carriageReturn EmptyString)%string.

(** A result log of two samples. *)
Definition smallLog : list string :=
  [ "timeStamp,elapsed,label,responseCode,success,Latency";
    "1000,120,Home,200,true,30";
    "2000,340,,500,false,oops" ]%string.

(** [t] appended to the last string of a list. *)
Fixpoint app_last (parts : list string) (t : string) : list string :=
  match parts with
  | [] => []
  | [p] => [(p ++ t)%string]
  | p :: ps => p :: app_last ps t
  end.

(** ** The complete analysis *)

Record AnalysisResult := mkAnalysisResult {
  summary : PerformanceMetrics;
  endpoints : list EndpointMetrics;
  errors : list ErrorAnalysis;
  bottlenecks : list Bottleneck;
  recommendations : list string;
  timeSeriesData : list TimeSeriesData
}.

(** [analyzeResults] (analyzer.ts, 419-436) from the parsed samples on; the
    time series is asked for without an interval. *)
Definition analyzeParsed {engine : Engine} (fuel : nat) (results : list JTLResult)
  : Outcome AnalysisResult :=
  match calculateMetrics results with
  | None => Thrown
  | Some metrics =>
      match calculateEndpointMetrics results with
      | None => Thrown
      | Some endpointMetrics =>
          match analyzeErrors results with
          | None => Thrown
          | Some errors =>
              let bottlenecks := identifyBottlenecks metrics endpointMetrics in
              let recommendations :=
                generateRecommendations metrics bottlenecks errors in
              match generateTimeSeriesData fuel results None with
              | Returned timeSeriesData =>
                  Returned {| summary := metrics;
                              endpoints := endpointMetrics;
                              errors := errors;
                              bottlenecks := bottlenecks;
                              recommendations := recommendations;
                              timeSeriesData := timeSeriesData |}
              | Thrown => Thrown
              | Pending => Pending
              end
          end
      end
  end.

(** [analysis.endpoints.slice(0, 10)] of the tool [analyze_test_results]. *)
Definition topEndpoints (analysis : AnalysisResult) : list EndpointMetrics :=
  firstn 10 (endpoints analysis).

(** ** Test-plan builder: escaping of XML text (builder.ts, 358-365) *)

(** [s.replace(/c/g, r)] for a character [c] and a replacement [r] without
    [$] patterns. *)
Fixpoint replace_char (c : ascii) (r : string) (s : string) : string :=
  match s with
  | EmptyString => EmptyString
  | String d s' =>
      if Ascii.eqb d c then (r ++ replace_char c r s')%string
      else String d (replace_char c r s')
  end.

(** [escapeXml] (builder.ts, 358-365). *)
Definition escapeXml (text : string) : string :=
  replace_char "'" "&apos;"
    (replace_char dquote "&quot;"
       (replace_char ">" "&gt;"
          (replace_char "<" "&lt;"
             (replace_char "&" "&amp;" text)))).

(** The entity of one character, or the character itself. *)
Definition escapeChar (c : ascii) : string :=
  if Ascii.eqb c "&" then "&amp;"
  else if Ascii.eqb c "<" then "&lt;"
  else if Ascii.eqb c ">" then "&gt;"
  else if Ascii.eqb c dquote then "&quot;"
  else if Ascii.eqb c "'" then "&apos;"
  else String c EmptyString.

(** Every character escaped on its own, in one pass. *)
Fixpoint escapeOnce (text : string) : string :=
  match text with
  | EmptyString => EmptyString
  | String c text' => (escapeChar c ++ escapeOnce text')%string
  end.

(** * Properties *)

(** ** Binary64 rounding *)

Lemma pow2_pos (k : Z) : 0 < pow2 k.
Proof. apply Qpower_0_lt. reflexivity. Qed.

Lemma pow2_add (a b : Z) : pow2 (a + b) == pow2 a * pow2 b.
Proof. apply Qpower_plus. discriminate. Qed.

Lemma pow2_Z (k : Z) : (0 <= k)%Z -> pow2 k == inject_Z (2 ^ k).
Proof. intros H. unfold pow2. now rewrite (Zpower_Qpower 2 k H). Qed.

Lemma pow2_le (a b : Z) : (a <= b)%Z -> pow2 a <= pow2 b.
Proof. intros H. apply Qpower_le_compat_l; [assumption | discriminate]. Qed.

Lemma pow2_lt (a b : Z) : (a < b)%Z -> pow2 a < pow2 b.
Proof. intros H. apply Qpower_lt_compat_l; [assumption | reflexivity]. Qed.

Lemma pow2_lt_inv (a b : Z) : pow2 a < pow2 b -> (a < b)%Z.
Proof. intros H. apply (Qpower_lt_compat_l_inv 2); [assumption | reflexivity]. Qed.

Lemma pow2_succ (k : Z) : pow2 (k + 1) == 2 * pow2 k.
Proof. rewrite pow2_add. change (pow2 1) with 2. ring. Qed.

Lemma pow2_pred (k : Z) : pow2 (k - 1) == pow2 k / 2.
Proof.
  assert (H : pow2 k == 2 * pow2 (k - 1)).
  { rewrite <- pow2_succ. now replace (k - 1 + 1)%Z with k by lia. }
  rewrite H. field.
Qed.

Lemma inject_Z_sub (a b : Z) : inject_Z (a - b) = inject_Z a - inject_Z b.
Proof. unfold Z.sub, Qminus. now rewrite inject_Z_plus, inject_Z_opp. Qed.

(** ** The binade of a positive number *)

Lemma Zlog2_Q (n : Z) :
  (0 < n)%Z -> pow2 (Z.log2 n) <= inject_Z n /\ inject_Z n < pow2 (Z.log2 n + 1).
Proof.
  intros Hn. destruct (Z.log2_spec n Hn) as [H1 H2].
  pose proof (Z.log2_nonneg n) as H0.
  rewrite !pow2_Z by lia. rewrite <- Zle_Qle, <- Zlt_Qlt.
  split; [assumption | now rewrite Z.add_1_r].
Qed.

Lemma binade_spec (q : Q) :
  0 < q -> pow2 (binade q) <= q /\ q < pow2 (binade q + 1).
Proof.
  intros Hq. destruct q as [n d]. 
  assert (Hn : (0 < n)%Z).
  { unfold Qlt in Hq. cbn in Hq. lia. }
  unfold binade. cbn [Qnum Qden].
  set (a := Z.log2 n). set (b := Z.log2 (Z.pos d)).
  destruct (Zlog2_Q Hn) as [Ha1 Ha2]. fold a in Ha1, Ha2.
  destruct (@Zlog2_Q (Z.pos d) eq_refl) as [Hb1 Hb2]. fold b in Hb1, Hb2.
  pose proof (pow2_pos a) as Pa. pose proof (pow2_pos b) as Pb.
  rewrite pow2_succ in Ha2, Hb2.
  assert (Hd : 0 < inject_Z (Z.pos d)) by reflexivity.
  assert (Eq : n # d == inject_Z n / inject_Z (Z.pos d)) by apply Qmake_Qdiv.
  assert (Ek : pow2 (a - b) == pow2 a / pow2 b).
  { unfold pow2. apply Qpower_minus. discriminate. }
  destruct (Qle_bool (pow2 (a - b)) (n # d)) eqn:E.
  - apply Qle_bool_iff in E. split; [exact E|].
    rewrite pow2_succ, Ek, Eq.
    apply Qlt_shift_div_r; [exact Hd|].
    assert (H : 2 * (pow2 a / pow2 b) * inject_Z (Z.pos d)
                == (2 * pow2 a) * (inject_Z (Z.pos d) / pow2 b)).
    { field. intros H0. rewrite H0 in Pb. discriminate. }
    rewrite H.
    assert (H1 : 1 <= inject_Z (Z.pos d) / pow2 b).
    { apply Qle_shift_div_l; [exact Pb|]. now rewrite Qmult_1_l. }
    eapply Qlt_le_trans; [exact Ha2|].
    rewrite <- (Qmult_1_r (2 * pow2 a)) at 1.
    apply Qmult_le_l; [lra | exact H1].
  - assert (E' : n # d < pow2 (a - b)).
    { apply Qnot_le_lt. intros H. apply Qle_bool_iff in H. congruence. }
    replace (a - b - 1 + 1)%Z with (a - b)%Z by lia. split; [|exact E'].
    rewrite pow2_pred, Ek, Eq.
    apply Qle_shift_div_l; [exact Hd|].
    assert (H : pow2 a / pow2 b / 2 * inject_Z (Z.pos d)
                == pow2 a * (inject_Z (Z.pos d) / (2 * pow2 b))).
    { field. intros H0. rewrite H0 in Pb. discriminate. }
    rewrite H.
    assert (H1 : inject_Z (Z.pos d) / (2 * pow2 b) <= 1).
    { apply Qle_shift_div_r; [lra|]. lra. }
    eapply Qle_trans; [|exact Ha1].
    rewrite <- (Qmult_1_r (pow2 a)) at 2.
    apply Qmult_le_l; [exact Pa | exact H1].
Qed.

Lemma binade_unique (q : Q) (k : Z) :
  pow2 k <= q -> q < pow2 (k + 1) -> binade q = k.
Proof.
  intros H1 H2.
  assert (Hq : 0 < q) by (eapply Qlt_le_trans; [apply (pow2_pos k) | exact H1]).
  destruct (binade_spec Hq) as [H3 H4].
  assert (A : (binade q < k + 1)%Z).
  { apply pow2_lt_inv. eapply Qle_lt_trans; eassumption. }
  assert (B : (k < binade q + 1)%Z).
  { apply pow2_lt_inv. eapply Qle_lt_trans; eassumption. }
  lia.
Qed.

Lemma binade_mono (p q : Q) : 0 < p -> p <= q -> (binade p <= binade q)%Z.
Proof.
  intros Hp Hpq.
  assert (Hq : 0 < q) by (eapply Qlt_le_trans; eassumption).
  destruct (binade_spec Hp) as [H1 _]. destruct (binade_spec Hq) as [_ H2].
  assert (A : (binade p < binade q + 1)%Z).
  { apply pow2_lt_inv. eapply Qle_lt_trans; [exact H1|].
    eapply Qle_lt_trans; eassumption. }
  lia.
Qed.

(** ** Rounding to the nearest integer *)

Lemma round_half_even_bounds (s : Q) :
  s - (1 # 2) <= inject_Z (round_half_even s)
  /\ inject_Z (round_half_even s) <= s + (1 # 2).
Proof.
  unfold round_half_even.
  pose proof (Qfloor_le s) as H1. pose proof (Qlt_floor s) as H2.
  rewrite inject_Z_plus in H2. change (inject_Z 1) with 1 in H2.
  destruct (Qcompare_spec (s - inject_Z (Qfloor s)) (1 # 2)) as [H | H | H].
  - destruct (Z.even (Qfloor s)); rewrite ?inject_Z_plus; 
      change (inject_Z 1) with 1; lra.
  - lra.
  - rewrite inject_Z_plus. change (inject_Z 1) with 1. lra.
Qed.

Lemma round_half_even_near (s : Q) (z : Z) :
  inject_Z z - (1 # 2) < s -> s < inject_Z z + (1 # 2) -> round_half_even s = z.
Proof.
  intros H1 H2. unfold round_half_even.
  pose proof (Qfloor_le s) as F1. pose proof (Qlt_floor s) as F2.
  rewrite inject_Z_plus in F2. change (inject_Z 1) with 1 in F2.
  assert (Hf : (z - 1 <= Qfloor s <= z)%Z).
  { split.
    - assert (H : inject_Z (z - 1) < inject_Z (Qfloor s + 1)).
      { rewrite inject_Z_sub, inject_Z_plus. change (inject_Z 1) with 1. lra. }
      rewrite <- Zlt_Qlt in H. lia.
    - assert (H : inject_Z (Qfloor s) < inject_Z (z + 1)).
      { rewrite inject_Z_plus. change (inject_Z 1) with 1. lra. }
      rewrite <- Zlt_Qlt in H. lia. }
  assert (Hc : Qfloor s = z \/ Qfloor s = (z - 1)%Z) by lia.
  destruct Hc as [Hc | Hc]; rewrite Hc in *.
  - destruct (Qcompare_spec (s - inject_Z z) (1 # 2)) as [H | H | H]; [lra | reflexivity | lra].
  - rewrite inject_Z_sub in *. change (inject_Z 1) with 1 in *.
    destruct (Qcompare_spec (s - (inject_Z z - 1)) (1 # 2)) as [H | H | H]; [lra | lra | lia].
Qed.

Lemma round_half_even_Z (z : Z) : round_half_even (inject_Z z) = z.
Proof. apply round_half_even_near; lra. Qed.

Lemma Qfloor_mono (s t : Q) : s <= t -> (Qfloor s <= Qfloor t)%Z.
Proof. apply Qfloor_resp_le. Qed.

Lemma round_half_even_mono (s t : Q) :
  s <= t -> (round_half_even s <= round_half_even t)%Z.
Proof.
  intros Hst. pose proof (Qfloor_resp_le _ _ Hst) as Hf.
  unfold round_half_even.
  destruct (Z.eq_dec (Qfloor s) (Qfloor t)) as [E | E].
  - rewrite E.
    destruct (Qcompare_spec (s - inject_Z (Qfloor t)) (1 # 2)) as [H | H | H];
    destruct (Qcompare_spec (t - inject_Z (Qfloor t)) (1 # 2)) as [H' | H' | H'];
      try lra; destruct (Z.even (Qfloor t)); lia.
  - assert (Hlt : (Qfloor s + 1 <= Qfloor t)%Z) by lia.
    destruct (Qcompare (s - inject_Z (Qfloor s)) (1 # 2));
    destruct (Qcompare (t - inject_Z (Qfloor t)) (1 # 2));
    destruct (Z.even (Qfloor s)); destruct (Z.even (Qfloor t)); lia.
Qed.

Lemma round_half_even_comp (s t : Q) : s == t -> round_half_even s = round_half_even t.
Proof.
  intros H. apply Z.le_antisymm; apply round_half_even_mono; rewrite H; apply Qle_refl.
Qed.
(** ** Rounding at a given exponent *)

Lemma scale_cancel (q : Q) (e : Z) : q / pow2 e * pow2 e == q.
Proof.
  field. intros H. pose proof (pow2_pos e) as P. rewrite H in P. discriminate.
Qed.

Lemma round_at_mono (e : Z) (p q : Q) :
  p <= q ->
  inject_Z (round_half_even (p / pow2 e)) * pow2 e
  <= inject_Z (round_half_even (q / pow2 e)) * pow2 e.
Proof.
  intros H. pose proof (pow2_pos e) as P.
  apply Qmult_le_compat_r; [|lra].
  rewrite <- Zle_Qle. apply round_half_even_mono.
  apply Qmult_le_r with (z := pow2 e); [exact P|].
  now rewrite !scale_cancel.
Qed.

Lemma round_at_le (e : Z) (q : Q) (N : Z) :
  q <= inject_Z N * pow2 e ->
  inject_Z (round_half_even (q / pow2 e)) * pow2 e <= inject_Z N * pow2 e.
Proof.
  intros H. pose proof (pow2_pos e) as P.
  apply Qmult_le_compat_r; [|lra].
  rewrite <- Zle_Qle. rewrite <- (round_half_even_Z N).
  apply round_half_even_mono.
  apply Qmult_le_r with (z := pow2 e); [exact P|].
  now rewrite scale_cancel.
Qed.

Lemma round_at_ge (e : Z) (q : Q) (N : Z) :
  inject_Z N * pow2 e <= q ->
  inject_Z N * pow2 e <= inject_Z (round_half_even (q / pow2 e)) * pow2 e.
Proof.
  intros H. pose proof (pow2_pos e) as P.
  apply Qmult_le_compat_r; [|lra].
  rewrite <- Zle_Qle. rewrite <- (round_half_even_Z N).
  apply round_half_even_mono.
  apply Qmult_le_r with (z := pow2 e); [exact P|].
  now rewrite scale_cancel.
Qed.

Lemma pow2_half (e : Z) : pow2 (e - 1) == (1 # 2) * pow2 e.
Proof. rewrite pow2_pred. field. Qed.

Lemma round_at_error (e : Z) (q : Q) :
  q - pow2 (e - 1) <= inject_Z (round_half_even (q / pow2 e)) * pow2 e
  /\ inject_Z (round_half_even (q / pow2 e)) * pow2 e <= q + pow2 (e - 1).
Proof.
  pose proof (pow2_pos e) as P. rewrite pow2_half.
  destruct (round_half_even_bounds (q / pow2 e)) as [H1 H2].
  pose proof (scale_cancel q e) as E.
  apply (Qmult_le_compat_r _ _ (pow2 e)) in H1; [|lra].
  apply (Qmult_le_compat_r _ _ (pow2 e)) in H2; [|lra].
  split.
  - eapply Qle_trans; [|exact H1].
    assert (H : (q / pow2 e - (1 # 2)) * pow2 e == q - (1 # 2) * pow2 e).
    { rewrite <- E at 2. field. intros H0. rewrite H0 in P. discriminate. }
    rewrite H. apply Qle_refl.
  - eapply Qle_trans; [exact H2|].
    assert (H : (q / pow2 e + (1 # 2)) * pow2 e == q + (1 # 2) * pow2 e).
    { rewrite <- E at 2. field. intros H0. rewrite H0 in P. discriminate. }
    rewrite H. apply Qle_refl.
Qed.

Lemma round_at_near (e : Z) (q : Q) (N : Z) :
  inject_Z N * pow2 e - pow2 (e - 1) < q -> q < inject_Z N * pow2 e + pow2 (e - 1) ->
  inject_Z (round_half_even (q / pow2 e)) * pow2 e == inject_Z N * pow2 e.
Proof.
  intros H1 H2. pose proof (pow2_pos e) as P. rewrite pow2_half in H1, H2.
  rewrite (@round_half_even_near (q / pow2 e) N); [reflexivity| |].
  - apply Qmult_lt_r with (z := pow2 e); [exact P|]. rewrite scale_cancel.
    assert (H : (inject_Z N - (1 # 2)) * pow2 e == inject_Z N * pow2 e - (1 # 2) * pow2 e)
      by ring.
    now rewrite H.
  - apply Qmult_lt_r with (z := pow2 e); [exact P|]. rewrite scale_cancel.
    assert (H : (inject_Z N + (1 # 2)) * pow2 e == inject_Z N * pow2 e + (1 # 2) * pow2 e)
      by ring.
    now rewrite H.
Qed.

(** ** Rounding a positive number *)

(** The exponent of the last place of a positive number. *)
Lemma expo_cases (q : Q) :
  let e := Z.max (binade q - 52) (-1074) in
  (e = (binade q - 52)%Z /\ (-1074 <= e)%Z) \/ (e = (-1074)%Z /\ (binade q - 52 < e)%Z).
Proof. cbv zeta. lia. Qed.

Lemma round64_pos_mono (p q : Q) :
  0 < p -> p <= q -> round64_pos p <= round64_pos q.
Proof.
  intros Hp Hpq.
  assert (Hq : 0 < q) by (eapply Qlt_le_trans; eassumption).
  pose proof (binade_mono Hp Hpq) as Hk.
  unfold round64_pos. cbv zeta.
  set (e1 := Z.max (binade p - 52) (-1074)).
  set (e2 := Z.max (binade q - 52) (-1074)).
  destruct (Z.eq_dec e1 e2) as [E | E].
  - rewrite E. now apply round_at_mono.
  - assert (He : (e1 < e2)%Z) by (subst e1 e2; lia).
    assert (He2 : e2 = (binade q - 52)%Z) by (subst e1 e2; lia).
    assert (Hk' : (binade p + 1 <= binade q)%Z) by (subst e1 e2; lia).
    destruct (binade_spec Hp) as [_ P2]. destruct (binade_spec Hq) as [Q1 _].
    apply Qle_trans with (pow2 (binade q)).
    + assert (EB : pow2 (binade q) == inject_Z (2 ^ (binade q - e1)) * pow2 e1).
      { rewrite <- pow2_Z by lia. rewrite <- pow2_add.
        now replace (binade q - e1 + e1)%Z with (binade q) by lia. }
      rewrite EB. apply round_at_le. rewrite <- EB.
      apply Qlt_le_weak. eapply Qlt_le_trans; [exact P2|]. now apply pow2_le.
    + assert (EB : pow2 (binade q) == inject_Z (2 ^ 52) * pow2 e2).
      { rewrite <- pow2_Z by lia. rewrite <- pow2_add.
        now replace (52 + e2)%Z with (binade q) by lia. }
      rewrite EB. apply round_at_ge. now rewrite <- EB.
Qed.

Lemma round64_pos_nonneg (q : Q) : 0 < q -> 0 <= round64_pos q.
Proof.
  intros Hq. unfold round64_pos. cbv zeta.
  set (e := Z.max (binade q - 52) (-1074)).
  assert (H : inject_Z 0 * pow2 e <= inject_Z (round_half_even (q / pow2 e)) * pow2 e).
  { apply round_at_ge. change (inject_Z 0) with 0. lra. }
  change (inject_Z 0) with 0 in H. lra.
Qed.

(** A number of at most 53 significant bits is its own rounding. *)
Lemma round64_pos_exact (q : Q) (M E : Z) :
  (0 < M < 2 ^ 53)%Z -> (-1074 <= E)%Z -> q == inject_Z M * pow2 E ->
  round64_pos q == q.
Proof.
  intros HM HE Eq.
  pose proof (pow2_pos E) as PE.
  assert (HM1 : 0 < inject_Z M) by (change 0 with (inject_Z 0); rewrite <- Zlt_Qlt; lia).
  assert (HM2 : inject_Z M < pow2 53).
  { rewrite pow2_Z by lia. rewrite <- Zlt_Qlt. lia. }
  assert (Hq : 0 < q).
  { rewrite Eq. apply Qmult_lt_0_compat; assumption. }
  destruct (binade_spec Hq) as [B1 _].
  assert (Hk : (binade q < 53 + E)%Z).
  { apply pow2_lt_inv. eapply Qle_lt_trans; [exact B1|].
    rewrite Eq, pow2_add. apply Qmult_lt_r; assumption. }
  unfold round64_pos. cbv zeta.
  set (e := Z.max (binade q - 52) (-1074)).
  assert (He : (e <= E)%Z) by (subst e; lia).
  assert (EN : q == inject_Z (M * 2 ^ (E - e)) * pow2 e).
  { rewrite Eq, inject_Z_mult, <- pow2_Z by lia.
    rewrite <- Qmult_assoc, <- pow2_add.
    now replace (E - e + e)%Z with E by lia. }
  pose proof (pow2_pos (e - 1)) as Pe.
  rewrite (@round_at_near e q (M * 2 ^ (E - e))).
  - now rewrite <- EN.
  - rewrite <- EN. lra.
  - rewrite <- EN. lra.
Qed.

Lemma round64_pos_error (q : Q) :
  0 < q ->
  q - (q * pow2 (-53) + pow2 (-1075)) <= round64_pos q
  /\ round64_pos q <= q + (q * pow2 (-53) + pow2 (-1075)).
Proof.
  intros Hq. unfold round64_pos. cbv zeta.
  set (e := Z.max (binade q - 52) (-1074)).
  destruct (round_at_error e q) as [H1 H2].
  destruct (binade_spec Hq) as [B1 _].
  assert (Hb : pow2 (e - 1) <= q * pow2 (-53) + pow2 (-1075)).
  { pose proof (pow2_pos (-1075)) as P1. pose proof (pow2_pos (-53)) as P2.
    destruct (expo_cases q) as [[E _] | [E _]]; fold e in E; rewrite E.
    - replace (binade q - 52 - 1)%Z with (binade q + -53)%Z by lia.
      rewrite pow2_add.
      assert (pow2 (binade q) * pow2 (-53) <= q * pow2 (-53)).
      { apply Qmult_le_compat_r; lra. }
      lra.
    - change (-1074 - 1)%Z with (-1075)%Z.
      assert (0 <= q * pow2 (-53)) by (apply Qmult_le_0_compat; lra).
      lra. }
  split; lra.
Qed.

(** A number close enough to an integer of at most 53 bits is rounded to it. *)
Lemma round64_pos_snap (m : Z) (x : Q) :
  (1 <= m < 2 ^ 53)%Z ->
  inject_Z m - x < inject_Z m * pow2 (-54) ->
  x - inject_Z m < inject_Z m * pow2 (-54) ->
  round64_pos x == inject_Z m.
Proof.
  intros Hm H1 H2.
  assert (Hm0 : (0 < m)%Z) by lia.
  set (k := Z.log2 m).
  assert (Hk0 : (0 <= k)%Z) by apply Z.log2_nonneg.
  destruct (Z.log2_spec m Hm0) as [L1 L2]. fold k in L1, L2.
  rewrite <- Z.add_1_r in L2.
  assert (Hk : (k <= 52)%Z).
  { assert (H : (2 ^ k < 2 ^ 53)%Z) by lia.
    apply Z.pow_lt_mono_r_iff in H; lia. }
  pose proof (pow2_pos k) as Pk.
  pose proof (pow2_pos (k - 53)) as Pk53.
  pose proof (pow2_pos (k - 54)) as Pk54.
  assert (Q1 : pow2 k <= inject_Z m) by (rewrite pow2_Z by lia; now rewrite <- Zle_Qle).
  assert (Q2 : inject_Z m <= pow2 (k + 1) - 1).
  { rewrite pow2_Z by lia. change 1 with (inject_Z 1). rewrite <- inject_Z_sub, <- Zle_Qle. lia. }
  assert (D : inject_Z m * pow2 (-54) < pow2 (k - 53)).
  { replace (k - 53)%Z with (k + 1 + -54)%Z by lia. rewrite (pow2_add (k + 1)).
    apply Qmult_lt_r; [apply pow2_pos | lra]. }
  assert (S53 : pow2 (k - 53) <= 1 # 2).
  { change (1 # 2) with (pow2 (-1)). apply pow2_le. lia. }
  assert (E53 : pow2 (k - 53) == 2 * pow2 (k - 54)).
  { rewrite <- pow2_succ. now replace (k - 54 + 1)%Z with (k - 53)%Z by lia. }
  unfold round64_pos. cbv zeta.
  destruct (Qlt_le_dec x (pow2 k)) as [B | A].
  - (* below the binade of [m]: [m] is a power of two *)
    assert (Em : m = (2 ^ k)%Z).
    { destruct (Z.eq_dec m (2 ^ k)) as [E | E]; [exact E | exfalso].
      assert (H : pow2 k + 1 <= inject_Z m).
      { rewrite pow2_Z by lia. change 1 with (inject_Z 1).
        rewrite <- inject_Z_plus, <- Zle_Qle. lia. }
      lra. }
    assert (Em' : inject_Z m == pow2 k) by (rewrite pow2_Z by lia; now rewrite Em).
    assert (D' : inject_Z m * pow2 (-54) == pow2 (k - 54)).
    { rewrite Em'. rewrite <- pow2_add. now replace (k + -54)%Z with (k - 54)%Z by lia. }
    assert (E1 : pow2 k == 2 * pow2 (k - 1)).
    { rewrite <- pow2_succ. now replace (k - 1 + 1)%Z with k by lia. }
    assert (S1 : pow2 (k - 54) <= pow2 (k - 1)) by (apply pow2_le; lia).
    assert (Hb : binade x = (k - 1)%Z).
    { apply binade_unique.
      - lra.
      - now replace (k - 1 + 1)%Z with k by lia. }
    rewrite Hb. replace (Z.max (k - 1 - 52) (-1074)) with (k - 53)%Z by lia.
    assert (EN : inject_Z m == inject_Z (2 ^ 53) * pow2 (k - 53)).
    { rewrite Em', <- pow2_Z by lia. rewrite <- pow2_add.
      now replace (53 + (k - 53))%Z with k by lia. }
    rewrite EN. apply round_at_near; rewrite <- EN;
      replace (k - 53 - 1)%Z with (k - 54)%Z by lia; lra.
  - assert (Hb : binade x = k).
    { apply binade_unique; [exact A | lra]. }
    rewrite Hb. replace (Z.max (k - 52) (-1074)) with (k - 52)%Z by lia.
    assert (EN : inject_Z m == inject_Z (m * 2 ^ (52 - k)) * pow2 (k - 52)).
    { rewrite inject_Z_mult, <- pow2_Z by lia.
      rewrite <- Qmult_assoc, <- pow2_add.
      replace (52 - k + (k - 52))%Z with 0%Z by lia. change (pow2 0) with 1. ring. }
    rewrite EN. apply round_at_near; rewrite <- EN;
      replace (k - 52 - 1)%Z with (k - 53)%Z by lia; lra.
Qed.

(** ** Rounding *)

Lemma Qcompare_Gt (q : Q) : 0 < q -> Qcompare q 0 = Gt.
Proof. intros H. now apply Qgt_alt. Qed.

Lemma Qcompare_Lt (q : Q) : q < 0 -> Qcompare q 0 = Lt.
Proof. intros H. now apply Qlt_alt. Qed.

Lemma round64_positive (q : Q) : 0 < q -> round64 q == round64_pos q.
Proof. intros H. unfold round64. rewrite (Qcompare_Gt H). apply Qred_correct. Qed.

Lemma round64_negative (q : Q) : q < 0 -> round64 q == - round64_pos (- q).
Proof. intros H. unfold round64. rewrite (Qcompare_Lt H). apply Qred_correct. Qed.

Lemma round64_zero (q : Q) : q == 0 -> round64 q = 0.
Proof.
  intros H. unfold round64.
  assert (E : Qcompare q 0 = Eq) by now apply Qeq_alt.
  now rewrite E.
Qed.

Lemma round64_mono (p q : Q) : p <= q -> round64 p <= round64 q.
Proof.
  intros H.
  destruct (Q_dec p 0) as [[Hp | Hp] | Hp]; destruct (Q_dec q 0) as [[Hq | Hq] | Hq];
    try (exfalso; lra).
  - rewrite (round64_negative Hp), (round64_negative Hq).
    assert (H' : round64_pos (- q) <= round64_pos (- p))
      by (apply round64_pos_mono; lra).
    lra.
  - rewrite (round64_negative Hp), (round64_positive Hq).
    assert (0 <= round64_pos (- p)) by (apply round64_pos_nonneg; lra).
    assert (0 <= round64_pos q) by (apply round64_pos_nonneg; lra).
    lra.
  - rewrite (round64_negative Hp), (round64_zero Hq).
    assert (0 <= round64_pos (- p)) by (apply round64_pos_nonneg; lra).
    lra.
  - rewrite (round64_positive Hp), (round64_positive Hq).
    now apply round64_pos_mono.
  - rewrite (round64_zero Hp), (round64_positive Hq).
    now apply round64_pos_nonneg.
  - rewrite (round64_zero Hp), (round64_zero Hq). apply Qle_refl.
Qed.

(** The result is a fraction in lowest terms, so equal values are equal
    terms. *)
Lemma round64_reduced (q : Q) : Qred (round64 q) = round64 q.
Proof.
  unfold round64. destruct (Qcompare q 0); [reflexivity | |];
    apply Qred_complete, Qred_correct.
Qed.

Lemma round64_comp (p q : Q) : p == q -> round64 p = round64 q.
Proof.
  intros H. rewrite <- (round64_reduced p), <- (round64_reduced q).
  apply Qred_complete. apply Qle_antisym; apply round64_mono; rewrite H; apply Qle_refl.
Qed.

Lemma Qred_inject_Z (z : Z) : Qred (inject_Z z) = inject_Z z.
Proof.
  unfold Qred, inject_Z.
  pose proof (Z.ggcd_gcd z 1) as Hg. pose proof (Z.ggcd_correct_divisors z 1) as Hd.
  destruct (Z.ggcd z 1) as [g [a b]]. cbn [fst snd] in *.
  rewrite Z.gcd_1_r in Hg. subst g. destruct Hd as [Ha Hb].
  rewrite Z.mul_1_l in Ha, Hb. now subst a b.
Qed.

(** An integer of magnitude at most 2^53 is a binary64 number. *)
Lemma round64_Z (z : Z) : (- 2 ^ 53 <= z <= 2 ^ 53)%Z -> round64 (inject_Z z) = inject_Z z.
Proof.
  intros Hz.
  enough (H : round64 (inject_Z z) == inject_Z z).
  { rewrite <- round64_reduced. transitivity (Qred (inject_Z z)).
    - now apply Qred_complete.
    - apply Qred_inject_Z. }
  assert (Hpos : forall m, (0 < m <= 2 ^ 53)%Z -> round64_pos (inject_Z m) == inject_Z m).
  { intros m Hm. destruct (Z.eq_dec m (2 ^ 53)) as [E | E].
    - apply (@round64_pos_exact (inject_Z m) (2 ^ 52) 1); [lia | lia |].
      rewrite E. reflexivity.
    - apply (@round64_pos_exact (inject_Z m) m 0); [lia | lia |].
      change (pow2 0) with 1. ring. }
  destruct (Z.lt_trichotomy z 0) as [H | [H | H]].
  - assert (Hq : inject_Z z < 0) by (change 0 with (inject_Z 0); rewrite <- Zlt_Qlt; lia).
    rewrite (round64_negative Hq). rewrite <- inject_Z_opp.
    rewrite Hpos by lia. rewrite inject_Z_opp. ring.
  - subst z. reflexivity.
  - assert (Hq : 0 < inject_Z z) by (change 0 with (inject_Z 0); rewrite <- Zlt_Qlt; lia).
    rewrite (round64_positive Hq). apply Hpos. lia.
Qed.

(** The relative error of a rounding is at most 2^-53, except for the
    numbers below the normal range, whose error is at most 2^-1075. *)
Lemma round64_error (q : Q) :
  0 <= q ->
  q - (q * pow2 (-53) + pow2 (-1075)) <= round64 q
  /\ round64 q <= q + (q * pow2 (-53) + pow2 (-1075)).
Proof.
  intros Hq. destruct (Qle_lt_or_eq _ _ Hq) as [H | H].
  - rewrite (round64_positive H). now apply round64_pos_error.
  - symmetry in H. rewrite (round64_zero H).
    pose proof (pow2_pos (-1075)). rewrite H. lra.
Qed.

Lemma round64_snap (m : Z) (x : Q) :
  (1 <= m < 2 ^ 53)%Z ->
  inject_Z m - x < inject_Z m * pow2 (-54) ->
  x - inject_Z m < inject_Z m * pow2 (-54) ->
  round64 x == inject_Z m.
Proof.
  intros Hm H1 H2.
  assert (Hx : 0 < x).
  { assert (P : pow2 (-54) < 1) by reflexivity.
    assert (M : 1 <= inject_Z m) by (change 1 with (inject_Z 1); rewrite <- Zle_Qle; lia).
    assert (inject_Z m * pow2 (-54) < inject_Z m * 1) by (apply Qmult_lt_l; lra).
    lra. }
  rewrite (round64_positive Hx). now apply round64_pos_snap.
Qed.

(** ** The rank of a percentile *)

Lemma Qceiling_unique (y : Q) (z : Z) :
  inject_Z z - 1 < y -> y <= inject_Z z -> Qceiling y = z.
Proof.
  intros H1 H2. pose proof (Qceiling_lt y) as C1. pose proof (Qle_ceiling y) as C2.
  assert (A : inject_Z (Qceiling y - 1) < inject_Z z) by lra.
  assert (B : inject_Z (z - 1) < inject_Z (Qceiling y)).
  { rewrite inject_Z_sub. change (inject_Z 1) with 1. lra. }
  rewrite <- Zlt_Qlt in A, B. lia.
Qed.

Lemma js_sub_Z (a b : Z) :
  (- 2 ^ 53 <= a - b <= 2 ^ 53)%Z -> js_sub (inject_Z a) (inject_Z b) = inject_Z (a - b).
Proof.
  intros H. unfold js_sub. rewrite <- inject_Z_sub. now apply round64_Z.
Qed.

Lemma js_add_Z (a b : Z) :
  (- 2 ^ 53 <= a + b <= 2 ^ 53)%Z -> js_add (inject_Z a) (inject_Z b) = inject_Z (a + b).
Proof.
  intros H. unfold js_add. rewrite <- inject_Z_plus. now apply round64_Z.
Qed.

Lemma js_div_le_1 (p : Q) : p <= 100 -> js_div p 100 <= 1.
Proof.
  intros Hp. unfold js_div. change 1 with (inject_Z 1).
  rewrite <- (@round64_Z 1) by lia. apply round64_mono.
  apply Qle_shift_div_r; [reflexivity|]. change (inject_Z 1) with 1. lra.
Qed.

Lemma js_div_mono (p q : Q) : p <= q -> js_div p 100 <= js_div q 100.
Proof.
  intros H. apply round64_mono. apply Qmult_le_compat_r; [exact H | discriminate].
Qed.

Lemma percentile_rank_mono (n : nat) (p q : Q) :
  p <= q -> (percentile_rank n p <= percentile_rank n q)%Z.
Proof.
  intros H. unfold percentile_rank, js_mul.
  apply Qceiling_resp_le, round64_mono, Qmult_le_compat_r.
  - now apply js_div_mono.
  - change 0 with (inject_Z 0). rewrite <- Zle_Qle. lia.
Qed.

Lemma percentile_rank_upper (n : nat) (p : Q) :
  (Z.of_nat n <= 2 ^ 53)%Z -> p <= 100 -> (percentile_rank n p <= Z.of_nat n)%Z.
Proof.
  intros Hn Hp. unfold percentile_rank, js_mul.
  rewrite <- (Qceiling_Z (Z.of_nat n)) at 2.
  apply Qceiling_resp_le.
  rewrite <- (@round64_Z (Z.of_nat n)) at 2 by lia.
  apply round64_mono.
  assert (H0 : 0 <= inject_Z (Z.of_nat n)).
  { change 0 with (inject_Z 0). rewrite <- Zle_Qle. lia. }
  pose proof (js_div_le_1 Hp) as H1.
  rewrite <- (Qmult_1_l (inject_Z (Z.of_nat n))) at 2.
  now apply Qmult_le_compat_r.
Qed.

Lemma percentile_index_mono (n : nat) (p q : Q) :
  p <= q -> (percentile_index n p <= percentile_index n q)%Z.
Proof.
  intros H. unfold percentile_index, js_sub.
  apply Qfloor_resp_le, round64_mono.
  pose proof (percentile_rank_mono n H) as Hr. rewrite Zle_Qle in Hr. lra.
Qed.

(** The index of a rank within the safe integers is the rank less one. *)
Lemma percentile_index_rank (n : nat) (p : Q) :
  (- 2 ^ 53 < percentile_rank n p <= 2 ^ 53)%Z ->
  percentile_index n p = (percentile_rank n p - 1)%Z.
Proof.
  intros H. unfold percentile_index. change 1 with (inject_Z 1).
  rewrite js_sub_Z by lia. apply Qfloor_Z.
Qed.

(** Up to the 100th percentile the index stays inside the array. *)
Lemma percentile_index_upper (n : nat) (p : Q) :
  (Z.of_nat n <= 2 ^ 53)%Z -> p <= 100 -> (percentile_index n p <= Z.of_nat n - 1)%Z.
Proof.
  intros Hn Hp. pose proof (percentile_rank_upper n Hn Hp) as Hr.
  unfold percentile_index, js_sub.
  rewrite <- (Qfloor_Z (Z.of_nat n - 1)).
  apply Qfloor_resp_le.
  rewrite <- (@round64_Z (Z.of_nat n - 1)) by lia.
  apply round64_mono. rewrite inject_Z_sub. change (inject_Z 1) with 1.
  rewrite Zle_Qle in Hr. lra.
Qed.

(** A factor [c] within 2^-54 of [p/100], relatively, gives the rank of the
    exact product for every length below 2^32. *)
Lemma rank_exact (c : Q) (p n : Z) :
  (0 < p <= 100)%Z -> (1 <= n < 2 ^ 32)%Z ->
  inject_Z p - 100 * c < inject_Z p * pow2 (-54) ->
  100 * c - inject_Z p < inject_Z p * pow2 (-54) ->
  Qceiling (round64 (c * inject_Z n)) = Qceiling (inject_Z p / 100 * inject_Z n).
Proof.
  intros Hp Hn H1 H2.
  assert (N1 : 1 <= inject_Z n) by (change 1 with (inject_Z 1); rewrite <- Zle_Qle; lia).
  assert (N2 : inject_Z n <= 4294967295).
  { change 4294967295 with (inject_Z 4294967295). rewrite <- Zle_Qle. lia. }
  assert (P1 : 1 <= inject_Z p) by (change 1 with (inject_Z 1); rewrite <- Zle_Qle; lia).
  assert (P2 : inject_Z p <= 100).
  { change 100 with (inject_Z 100). rewrite <- Zle_Qle. lia. }
  set (x := c * inject_Z n).
  assert (Ea : inject_Z (p * n) = inject_Z p * inject_Z n) by apply inject_Z_mult.
  assert (X1 : inject_Z (p * n) - 100 * x < inject_Z (p * n) * pow2 (-54)).
  { apply (Qmult_lt_compat_r _ _ (inject_Z n)) in H1; [|lra].
    rewrite Ea. subst x. 
    assert (E1 : (inject_Z p - 100 * c) * inject_Z n
                 == inject_Z p * inject_Z n - 100 * (c * inject_Z n)) by ring.
    assert (E2 : inject_Z p * pow2 (-54) * inject_Z n
                 == inject_Z p * inject_Z n * pow2 (-54)) by ring.
    now rewrite E1, E2 in H1. }
  assert (X2 : 100 * x - inject_Z (p * n) < inject_Z (p * n) * pow2 (-54)).
  { apply (Qmult_lt_compat_r _ _ (inject_Z n)) in H2; [|lra].
    rewrite Ea. subst x. 
    assert (E1 : (100 * c - inject_Z p) * inject_Z n
                 == 100 * (c * inject_Z n) - inject_Z p * inject_Z n) by ring.
    assert (E2 : inject_Z p * pow2 (-54) * inject_Z n
                 == inject_Z p * inject_Z n * pow2 (-54)) by ring.
    now rewrite E1, E2 in H2. }
  assert (Et : inject_Z p / 100 * inject_Z n == inject_Z (p * n) * (1 # 100)).
  { rewrite Ea. field. }
  rewrite (Qceiling_comp _ _ Et).
  assert (A1 : (1 <= p * n)%Z) by nia.
  assert (A2 : (p * n <= 100 * n)%Z) by nia.
  clearbody x. clear Ea Et H1 H2.
  set (a := (p * n)%Z) in *.
  change (pow2 (-54)) with (1 # 18014398509481984) in *.
  pose proof (Z.div_mod a 100 ltac:(lia)) as Hdm.
  pose proof (Z.mod_pos_bound a 100 ltac:(lia)) as Hr.
  set (j := (a / 100)%Z) in *. set (r := (a mod 100)%Z) in *.
  assert (Ea : inject_Z a == 100 * inject_Z j + inject_Z r).
  { rewrite Hdm, inject_Z_plus, inject_Z_mult. reflexivity. }
  assert (J0 : 0 <= inject_Z j).
  { change 0 with (inject_Z 0). rewrite <- Zle_Qle. lia. }
  assert (J1 : inject_Z j <= 4294967295).
  { change 4294967295 with (inject_Z 4294967295). rewrite <- Zle_Qle. lia. }
  destruct (Z.eq_dec r 0) as [R0 | R0].
  - (* the exact product is an integer *)
    assert (Ej : inject_Z a == 100 * inject_Z j).
    { rewrite Ea, R0. change (inject_Z 0) with 0. ring. }
    assert (Hj : (1 <= j < 2 ^ 53)%Z) by lia.
    assert (S : round64 x == inject_Z j).
    { apply round64_snap; [exact Hj | |];
        change (pow2 (-54)) with (1 # 18014398509481984); lra. }
    rewrite (Qceiling_comp _ _ S), Qceiling_Z.
    symmetry. apply Qceiling_unique; lra.
  - assert (R1 : 1 <= inject_Z r).
    { change 1 with (inject_Z 1). rewrite <- Zle_Qle. lia. }
    assert (R2 : inject_Z r <= 99).
    { change 99 with (inject_Z 99). rewrite <- Zle_Qle. lia. }
    assert (Hx : 0 <= x) by lra.
    destruct (round64_error Hx) as [E1 E2].
    change (pow2 (-53)) with (1 # 9007199254740992) in E1, E2.
    assert (T : pow2 (-1075) <= 1 # 9007199254740992).
    { change (1 # 9007199254740992) with (pow2 (-53)). apply pow2_le. lia. }
    transitivity (j + 1)%Z.
    + apply Qceiling_unique; rewrite ?inject_Z_plus; change (inject_Z 1) with 1; lra.
    + symmetry. apply Qceiling_unique; rewrite ?inject_Z_plus; change (inject_Z 1) with 1; lra.
Qed.

(** The ranks that [calculateMetrics] asks for, and the 100th. *)
Lemma percentile_rank_exact (n : nat) (p : Z) :
  In p [50; 90; 95; 99; 100]%Z -> (1 <= Z.of_nat n < 2 ^ 32)%Z ->
  percentile_rank n (inject_Z p)
  = Qceiling (inject_Z p / 100 * inject_Z (Z.of_nat n)).
Proof.
  intros Hp Hn. unfold percentile_rank, js_mul.
  cbn [In] in Hp.
  destruct Hp as [<- | [<- | [<- | [<- | [<- | []]]]]];
    (apply rank_exact; [lia | exact Hn | vm_compute; reflexivity | vm_compute; reflexivity]).
Qed.

(** For every rank up to 100 the computed rank is within one of the rank of
    the exact product. *)
Lemma percentile_rank_near (n : nat) (p : Q) :
  0 <= p -> p <= 100 -> (Z.of_nat n < 2 ^ 32)%Z ->
  (Qceiling (p / 100 * inject_Z (Z.of_nat n)) - 1
   <= percentile_rank n p
   <= Qceiling (p / 100 * inject_Z (Z.of_nat n)) + 1)%Z.
Proof.
  intros P0 P1 Hn. unfold percentile_rank, js_mul, js_div.
  set (N := inject_Z (Z.of_nat n)).
  assert (N0 : 0 <= N).
  { subst N. change 0 with (inject_Z 0). rewrite <- Zle_Qle. lia. }
  assert (N1 : N <= 4294967295).
  { subst N. change 4294967295 with (inject_Z 4294967295). rewrite <- Zle_Qle. lia. }
  assert (Eu : p / 100 == p * (1 # 100)) by field.
  set (u := p / 100) in *.
  assert (U0 : 0 <= u) by lra. assert (U1 : u <= 1) by lra.
  destruct (round64_error U0) as [C1 C2].
  set (c := round64 u) in *.
  assert (T : pow2 (-1075) <= 1 # 9007199254740992).
  { change (1 # 9007199254740992) with (pow2 (-53)). apply pow2_le. lia. }
  pose proof (pow2_pos (-1075)) as T0.
  change (pow2 (-53)) with (1 # 9007199254740992) in C1, C2.
  set (eta := pow2 (-1075)) in *.
  assert (M1 : u * N <= 1 * N) by (apply Qmult_le_compat_r; assumption).
  assert (M0 : 0 <= u * N) by (apply Qmult_le_0_compat; assumption).
  apply (Qmult_le_compat_r _ _ N) in C1; [|exact N0].
  apply (Qmult_le_compat_r _ _ N) in C2; [|exact N0].
  assert (X0 : 0 <= c * N).
  { apply Qmult_le_0_compat; [|exact N0]. subst c.
    change 0 with (inject_Z 0). rewrite <- (@round64_Z 0) by lia. now apply round64_mono. }
  destruct (round64_error X0) as [Y1 Y2].
  change (pow2 (-53)) with (1 # 9007199254740992) in Y1, Y2. fold eta in Y1, Y2.
  set (y := round64 (c * N)) in *.
  assert (EN : eta * N <= (1 # 9007199254740992) * N)
    by (apply Qmult_le_compat_r; assumption).
  assert (EN0 : 0 <= eta * N) by (apply Qmult_le_0_compat; lra).
  assert (D1 : y < u * N + 1) by lra.
  assert (D2 : u * N - 1 < y) by lra.
  pose proof (Qceiling_lt y) as A1. pose proof (Qle_ceiling y) as A2.
  pose proof (Qceiling_lt (u * N)) as B1. pose proof (Qle_ceiling (u * N)) as B2.
  rewrite inject_Z_sub in A1, B1. change (inject_Z 1) with 1 in A1, B1.
  assert (G1 : inject_Z (Qceiling y) < inject_Z (Qceiling (u * N) + 2)).
  { rewrite inject_Z_plus. change (inject_Z 2) with 2. lra. }
  assert (G2 : inject_Z (Qceiling (u * N)) < inject_Z (Qceiling y + 2)).
  { rewrite inject_Z_plus. change (inject_Z 2) with 2. lra. }
  rewrite <- Zlt_Qlt in G1, G2. lia.
Qed.

(** ** Statistics *)

Lemma last_cons_default (A : Type) (y : A) (ys : list A) (d : A) :
  last (y :: ys) d = last ys y.
Proof.
  revert y d; induction ys as [|z zs IH]; intros y d; [reflexivity|].
  change (last (y :: z :: zs) d) with (last (z :: zs) d).
  rewrite IH. symmetry. apply IH.
Qed.

Lemma nth_error_last (A : Type) (x : A) (xs : list A) :
  nth_error (x :: xs) (length xs) = Some (last xs x).
Proof.
  revert x; induction xs as [|y ys IH]; intros x; [reflexivity|].
  cbn [length nth_error]. rewrite IH. now rewrite last_cons_default.
Qed.

Lemma Math_max1_sorted (xs : list Z) (x : Z) :
  Sorted Z.le (x :: xs) -> Math_max1 x xs = last xs x.
Proof.
  unfold Math_max1. revert x; induction xs as [|y ys IH]; intros x Hs; [reflexivity|].
  inversion Hs as [|? ? Hs' Hhd]; subst. inversion Hhd; subst.
  cbn [fold_left]. rewrite Z.max_r by assumption.
  rewrite IH by assumption. now rewrite last_cons_default.
Qed.

Lemma Math_max1_ge (xs : list Z) (x : Z) :
  (x <= Math_max1 x xs)%Z /\ Forall (fun y => (y <= Math_max1 x xs)%Z) xs.
Proof.
  unfold Math_max1. revert x; induction xs as [|y ys IH]; intros x.
  - split; [apply Z.le_refl | constructor].
  - cbn [fold_left]. destruct (IH (Z.max x y)) as [H1 H2]. split; [lia|].
    constructor; [lia | assumption].
Qed.

Lemma Math_min1_le (xs : list Z) (x : Z) :
  (Math_min1 x xs <= x)%Z /\ Forall (fun y => (Math_min1 x xs <= y)%Z) xs.
Proof.
  unfold Math_min1. revert x; induction xs as [|y ys IH]; intros x.
  - split; [apply Z.le_refl | constructor].
  - cbn [fold_left]. destruct (IH (Z.min x y)) as [H1 H2]. split; [lia|].
    constructor; [lia | assumption].
Qed.

Lemma Math_max1_in (xs : list Z) (x : Z) : In (Math_max1 x xs) (x :: xs).
Proof.
  unfold Math_max1. revert x; induction xs as [|y ys IH]; intros x; [now left|].
  cbn [fold_left]. destruct (IH (Z.max x y)) as [H|H].
  - destruct (Z.max_spec x y) as [[_ E]|[_ E]].
    + right; left; congruence.
    + left; congruence.
  - right; right; exact H.
Qed.

Lemma Math_min1_in (xs : list Z) (x : Z) : In (Math_min1 x xs) (x :: xs).
Proof.
  unfold Math_min1. revert x; induction xs as [|y ys IH]; intros x; [now left|].
  cbn [fold_left]. destruct (IH (Z.min x y)) as [H|H].
  - destruct (Z.min_spec x y) as [[_ E]|[_ E]].
    + left; congruence.
    + right; left; congruence.
  - right; right; exact H.
Qed.

Lemma js_div_100 : js_div 100 100 = 1.
Proof. reflexivity. Qed.

Lemma percentile_rank_100 (n : nat) :
  (Z.of_nat n <= 2 ^ 53)%Z -> percentile_rank n 100 = Z.of_nat n.
Proof.
  intros Hn. unfold percentile_rank, js_mul. rewrite js_div_100.
  rewrite (@round64_comp (1 * inject_Z (Z.of_nat n)) (inject_Z (Z.of_nat n)))
    by apply Qmult_1_l.
  rewrite round64_Z by lia. apply Qceiling_Z.
Qed.

Lemma percentile_index_100 (n : nat) :
  (Z.of_nat n <= 2 ^ 53)%Z -> percentile_index n 100 = (Z.of_nat n - 1)%Z.
Proof.
  intros Hn. rewrite percentile_index_rank; rewrite percentile_rank_100 by assumption; lia.
Qed.

(** Up to the 100th percentile the result is an element of the array. *)
Lemma percentile_defined (xs : list Z) (p : Q) :
  (Z.of_nat (length xs) <= 2 ^ 53)%Z -> p <= 100 ->
  exists v, percentile xs p = Some v /\ (xs <> [] -> In v xs).
Proof.
  intros Hlen Hp. destruct xs as [|x xs'].
  - exists 0%Z. split; [reflexivity | congruence].
  - unfold percentile.
    pose proof (@percentile_index_upper (length (x :: xs')) p Hlen Hp) as Hub.
    set (i := Z.to_nat (Z.max 0 (percentile_index (length (x :: xs')) p))).
    assert (Hi : (i < length (x :: xs'))%nat).
    { subst i. cbn [length] in *. lia. }
    destruct (nth_error (x :: xs') i) as [v|] eqn:E.
    + exists v. split; [reflexivity|]. intros _. eapply nth_error_In; eassumption.
    + apply nth_error_None in E. lia.
Qed.

(** At the ranks 50, 90, 95, 99 and 100 the result is the element at the
    nearest rank. *)
Lemma percentile_exact (xs : list Z) (r : Z) :
  xs <> [] -> (Z.of_nat (length xs) < 2 ^ 32)%Z -> In r [50; 90; 95; 99; 100]%Z ->
  percentile xs (inject_Z r)
  = nth_error xs (Z.to_nat (Z.max 0 (Qceiling (inject_Z r / 100 * len xs) - 1))).
Proof.
  intros Hne Hlen Hr. destruct xs as [|x xs']; [congruence|].
  unfold percentile, len.
  assert (Hn : (1 <= Z.of_nat (length (x :: xs')) < 2 ^ 32)%Z) by (cbn [length] in *; lia).
  pose proof (@percentile_rank_exact (length (x :: xs')) r Hr Hn) as E.
  rewrite percentile_index_rank; rewrite E; [reflexivity|].
  assert (H0 : 0 <= inject_Z r / 100 * inject_Z (Z.of_nat (length (x :: xs')))).
  { apply Qmult_le_0_compat.
    - apply Qle_shift_div_l; [reflexivity|]. rewrite Qmult_0_l.
      change 0 with (inject_Z 0). rewrite <- Zle_Qle.
      cbn [In] in Hr. lia.
    - change 0 with (inject_Z 0). rewrite <- Zle_Qle. lia. }
  assert (H1 : inject_Z r / 100 * inject_Z (Z.of_nat (length (x :: xs')))
               <= inject_Z (Z.of_nat (length (x :: xs')))).
  { rewrite <- (Qmult_1_l (inject_Z (Z.of_nat (length (x :: xs'))))) at 2.
    apply Qmult_le_compat_r.
    - apply Qle_shift_div_r; [reflexivity|]. rewrite Qmult_1_l.
      change 100 with (inject_Z 100). rewrite <- Zle_Qle. cbn [In] in Hr. lia.
    - change 0 with (inject_Z 0). rewrite <- Zle_Qle. lia. }
  apply Qceiling_resp_le in H0, H1. rewrite Qceiling_Z in H1.
  change (Qceiling 0) with 0%Z in H0. lia.
Qed.

(** C1, as amended.  [percentile] of the empty sequence is 0 for every [p].
    For a non-empty sorted array [xs] and the ranks 50, 90, 95, 99 and 100
    it is the element at the nearest rank [ceil(p/100 * n) - 1] clamped to
    be at least 0.  For every rank between 0 and 100 the index that the
    binary64 operations give is within one of that nearest rank, and never
    negative; [percentile [10;20;30;40] 50 = 20]; the 100th percentile is the
    maximum, an element of [xs] that no element exceeds; and up to [p = 100]
    the result is an element of [xs]. *)
Theorem percentile_nearest_rank (xs : list Z) (p : Q)
  (Hne : xs <> []) (Hsorted : Sorted Z.le xs)
  (Hlen : (Z.of_nat (length xs) < 2 ^ 32)%Z) :
  percentile [] p = Some 0%Z
  /\ (forall r : Z, In r [50; 90; 95; 99; 100]%Z ->
      percentile xs (inject_Z r)
      = nth_error xs (Z.to_nat (Z.max 0 (Qceiling (inject_Z r / 100 * len xs) - 1))))
  /\ (0 <= p -> p <= 100 ->
      exists index : Z,
        percentile xs p = nth_error xs (Z.to_nat (Z.max 0 index))
        /\ (0 <= Z.max 0 index)%Z
        /\ (Qceiling (p / 100 * len xs) - 1 - 1 <= index
            <= Qceiling (p / 100 * len xs) - 1 + 1)%Z)
  /\ percentile [10; 20; 30; 40]%Z 50 = Some 20%Z
  /\ (exists m, Math_max xs = Some m /\ percentile xs 100 = Some m
                /\ In m xs /\ Forall (fun x => (x <= m)%Z) xs)
  /\ (p <= 100 -> exists v, percentile xs p = Some v /\ In v xs).
Proof.
  split; [reflexivity|].
  split; [intros r Hr; now apply percentile_exact|].
  split.
  { intros H0 H1. exists (percentile_index (length xs) p).
    split; [destruct xs; [congruence | reflexivity]|].
    split; [apply Z.le_max_l|].
    assert (Hn : (Z.of_nat (length xs) < 2 ^ 32)%Z) by exact Hlen.
    pose proof (@percentile_rank_near (length xs) p H0 H1 Hn) as Hnear.
    pose proof (@percentile_rank_upper (length xs) p ltac:(lia) H1) as Hup.
    assert (Hc : (0 <= Qceiling (p / 100 * inject_Z (Z.of_nat (length xs))))%Z).
    { change 0%Z with (Qceiling 0). apply Qceiling_resp_le, Qmult_le_0_compat.
      - apply Qle_shift_div_l; [reflexivity|]. now rewrite Qmult_0_l.
      - change 0 with (inject_Z 0). rewrite <- Zle_Qle. lia. }
    unfold len. rewrite percentile_index_rank; lia. }
  split; [reflexivity|].
  split.
  - destruct xs as [|x xs']; [congruence|].
    exists (Math_max1 x xs'). split; [reflexivity|]. split; [|split].
    + unfold percentile. rewrite percentile_index_100 by lia.
      rewrite Math_max1_sorted by assumption.
      replace (Z.to_nat (Z.max 0 (Z.of_nat (length (x :: xs')) - 1))) with (length xs')
        by (cbn [length]; lia).
      apply nth_error_last.
    + apply Math_max1_in.
    + destruct (Math_max1_ge xs' x) as [H1 H2]. now constructor.
  - intros Hp. destruct (@percentile_defined xs p ltac:(lia) Hp) as (v & Hv & Hin).
    exists v. split; [assumption | now apply Hin].
Qed.

Lemma percentile_nearest_rank_witness :
  percentile [10; 20; 30; 40]%Z 90
  = nth_error [10; 20; 30; 40]%Z
      (Z.to_nat (Z.max 0 (Qceiling (90 / 100 * len [10; 20; 30; 40]%Z) - 1))).
Proof.
  refine (proj1 (proj2 (@percentile_nearest_rank [10; 20; 30; 40]%Z 50 _ _ _)) 90%Z _).
  - discriminate.
  - repeat constructor; lia.
  - reflexivity.
  - right; left; reflexivity.
Defined.

(** C1, as stated, fails at the 7th percentile of the hundred numbers 1 to
    100: the quotient 7/100 and its product with 100 are rounded to
    7.000000000000001, whose ceiling is 8, so the result is the number 8 and
    not the number 7 at the nearest rank [ceil(7/100 * 100) - 1 = 6]. *)
Lemma percentile_rank7_counterexample :
  percentile hundred 7 = Some 8%Z
  /\ nth_error hundred (Z.to_nat (Z.max 0 (Qceiling (7 / 100 * len hundred) - 1)))
     = Some 7%Z.
Proof. split; vm_compute; reflexivity. Qed.

(** ** Sorting preserves the elements *)

Section JsSortFacts.
Context {A : Type}.
Variable compareFn : A -> A -> comparison.

Lemma js_insert_perm (x : A) (l : list A) :
  Permutation (js_insert compareFn x l) (x :: l).
Proof.
  induction l as [|y l IH]; [reflexivity|].
  cbn [js_insert]. destruct (compareFn x y); try reflexivity.
  rewrite IH. apply perm_swap.
Qed.

Lemma js_sort_perm (l : list A) : Permutation (js_sort compareFn l) l.
Proof.
  induction l as [|x l IH]; [reflexivity|].
  cbn [js_sort fold_right]. rewrite js_insert_perm. now constructor.
Qed.

Lemma js_sort_length (l : list A) : length (js_sort compareFn l) = length l.
Proof. apply Permutation_length, js_sort_perm. Qed.

Lemma js_sort_cons (l : list A) :
  l <> [] -> exists y ys, js_sort compareFn l = y :: ys.
Proof.
  intros Hne. pose proof (js_sort_length l) as Hl.
  destruct (js_sort compareFn l) as [|y ys]; [|now eauto].
  destruct l; [congruence | discriminate].
Qed.
End JsSortFacts.

(** ** Aggregator *)

(** C5. [calculateMetrics] of the empty sample sequence returns the all-zero
    summary, every numeric field being 0, and [average] of the empty
    sequence is 0. *)
Theorem calculateMetrics_empty {engine : Engine} :
  calculateMetrics [] = Some getEmptyMetrics
  /\ totalRequests getEmptyMetrics = 0
  /\ successfulRequests getEmptyMetrics = 0
  /\ failedRequests getEmptyMetrics = 0
  /\ errorRate getEmptyMetrics = 0
  /\ averageResponseTime getEmptyMetrics = 0
  /\ medianResponseTime getEmptyMetrics = 0
  /\ minResponseTime getEmptyMetrics = 0
  /\ maxResponseTime getEmptyMetrics = 0
  /\ percentile90 getEmptyMetrics = 0
  /\ percentile95 getEmptyMetrics = 0
  /\ percentile99 getEmptyMetrics = 0
  /\ throughput getEmptyMetrics = 0
  /\ receivedKBPerSec getEmptyMetrics = 0
  /\ sentKBPerSec getEmptyMetrics = 0
  /\ avgBytes getEmptyMetrics = 0
  /\ avgLatency getEmptyMetrics = 0
  /\ avgConnectTime getEmptyMetrics = 0
  /\ average [] = 0.
Proof. repeat split. Qed.

Lemma gt_true (a b : Q) : gt a b = true <-> b < a.
Proof.
  unfold gt. rewrite negb_true_iff. split.
  - intros H. apply Qnot_le_lt. intros Hle. apply Qle_bool_iff in Hle. congruence.
  - intros H. destruct (Qle_bool a b) eqn:E; [|reflexivity].
    apply Qle_bool_iff in E. exfalso. eapply Qlt_not_le; eassumption.
Qed.

Lemma gt_false (a b : Q) : gt a b = false <-> a <= b.
Proof.
  unfold gt. rewrite negb_false_iff. apply Qle_bool_iff.
Qed.

Lemma lt_true (a b : Q) : lt a b = true <-> a < b.
Proof. apply gt_true. Qed.

(** *** Spreading an array into the arguments of a call *)

Lemma spread_some {engine : Engine} (A B : Type) (f : list A -> option B) (xs : list A) :
  spreadable xs -> spread f xs = f xs.
Proof.
  unfold spreadable, spread. intros H.
  destruct (Z.leb_spec (Z.of_nat (length xs)) maxArguments); [reflexivity | lia].
Qed.

Lemma spread_none {engine : Engine} (A B : Type) (f : list A -> option B) (xs : list A) :
  ~ spreadable xs -> spread f xs = None.
Proof.
  unfold spreadable, spread. intros H.
  destruct (Z.leb_spec (Z.of_nat (length xs)) maxArguments); [tauto | reflexivity].
Qed.


Lemma spreadable_length {engine : Engine} (A B : Type) (xs : list A) (ys : list B) :
  length xs = length ys -> spreadable xs -> spreadable ys.
Proof. unfold spreadable. intros ->. tauto. Qed.

Lemma spreadable_shorter {engine : Engine} (A B : Type) (xs : list A) (ys : list B) :
  (length ys <= length xs)%nat -> spreadable xs -> spreadable ys.
Proof. unfold spreadable. lia. Qed.

(** What can be spread is shorter than the longest array. *)
Lemma spreadable_array {engine : Engine} (A : Type) (xs : list A) :
  spreadable xs -> (Z.of_nat (length xs) < 2 ^ 32)%Z.
Proof. unfold spreadable. pose proof maxArguments_array. lia. Qed.

Lemma spreadable_dec {engine : Engine} (A : Type) (xs : list A) :
  spreadable xs \/ ~ spreadable xs.
Proof. unfold spreadable. lia. Qed.

Lemma spreadable_filter {engine : Engine} (A : Type) (f : A -> bool) (l : list A) :
  spreadable l -> spreadable (filter f l).
Proof.
  apply spreadable_shorter. induction l as [|a l IH]; [apply le_n|].
  cbn [filter length]. destruct (f a); cbn [length]; lia.
Qed.

(** The timestamps of a non-empty sequence have a greatest and a least one. *)
Lemma totalTime_spec {engine : Engine} (results : list JTLResult) :
  results <> [] -> spreadable results ->
  exists hi lo,
    Math_max (map timestamp results) = Some hi
    /\ Math_min (map timestamp results) = Some lo
    /\ totalTime results = Some (hi - lo)%Z
    /\ In hi (map timestamp results) /\ In lo (map timestamp results)
    /\ Forall (fun r => (lo <= timestamp r <= hi)%Z) results.
Proof.
  intros Hne Hfit. destruct results as [|r rs]; [congruence|].
  exists (Math_max1 (timestamp r) (map timestamp rs)),
         (Math_min1 (timestamp r) (map timestamp rs)).
  assert (Hfit' : spreadable (map timestamp (r :: rs))).
  { eapply spreadable_length; [|exact Hfit]. now rewrite length_map. }
  split; [reflexivity|]. split; [reflexivity|]. split.
  { unfold totalTime. now rewrite !spread_some by exact Hfit'. }
  split; [apply Math_max1_in|]. split; [apply Math_min1_in|].
  destruct (Math_max1_ge (map timestamp rs) (timestamp r)) as [H1 H2].
  destruct (Math_min1_le (map timestamp rs) (timestamp r)) as [H3 H4].
  constructor; [lia|].
  rewrite Forall_map in H2, H4. rewrite Forall_forall in *.
  intros x Hx. split; [now apply H4 | now apply H2].
Qed.

(** A sequence that cannot be spread has no span: the call throws. *)
Lemma totalTime_throws {engine : Engine} (results : list JTLResult) :
  ~ spreadable results -> totalTime results = None.
Proof.
  intros H. unfold totalTime. rewrite spread_none; [reflexivity|].
  intros H'. apply H. eapply spreadable_length; [|exact H']. now rewrite length_map.
Qed.

(** The statistics of a non-empty sample sequence that can be spread are
    all defined. *)
Lemma responseTimes_defined {engine : Engine} (rs : list JTLResult) :
  rs <> [] -> spreadable rs ->
  let responseTimes := js_sort ascending (map elapsed rs) in
  exists median lo hi p90 p95 p99,
    percentile responseTimes 50 = Some median
    /\ spread Math_min responseTimes = Some lo
    /\ spread Math_max responseTimes = Some hi
    /\ percentile responseTimes 90 = Some p90
    /\ percentile responseTimes 95 = Some p95
    /\ percentile responseTimes 99 = Some p99.
Proof.
  intros Hne Hfit responseTimes.
  assert (Hne' : map elapsed rs <> []) by (destruct rs; [congruence | discriminate]).
  assert (Hlen : length responseTimes = length rs).
  { subst responseTimes. now rewrite js_sort_length, length_map. }
  assert (Hfit' : spreadable responseTimes).
  { eapply spreadable_length; [symmetry; exact Hlen | exact Hfit]. }
  pose proof (spreadable_array Hfit') as Hbound.
  destruct (js_sort_cons ascending Hne') as (y & ys & E).
  destruct (@percentile_defined responseTimes 50) as (median & ? & _); [lia | discriminate|].
  destruct (@percentile_defined responseTimes 90) as (p90 & ? & _); [lia | discriminate|].
  destruct (@percentile_defined responseTimes 95) as (p95 & ? & _); [lia | discriminate|].
  destruct (@percentile_defined responseTimes 99) as (p99 & ? & _); [lia | discriminate|].
  exists median, (Math_min1 y ys), (Math_max1 y ys), p90, p95, p99.
  rewrite !spread_some by exact Hfit'.
  subst responseTimes. rewrite E in *. repeat split; assumption.
Qed.

(** [calculateMetrics] returns on every sequence that can be spread. *)
Lemma calculateMetrics_defined {engine : Engine} (results : list JTLResult) :
  spreadable results -> exists m, calculateMetrics results = Some m.
Proof.
  intros Hfit. destruct results as [|r rs]; [now exists getEmptyMetrics|].
  assert (Hne : r :: rs <> []) by discriminate.
  destruct (totalTime_spec Hne Hfit) as (hi & lo & _ & _ & Htt & _).
  destruct (responseTimes_defined Hne Hfit) as (median & mn & mx & p90 & p95 & p99 & H).
  destruct H as (H50 & Hmn & Hmx & H90 & H95 & H99).
  unfold calculateMetrics. rewrite Htt. cbn [bind].
  rewrite H50, Hmn, Hmx, H90, H95, H99. cbn [bind]. now eexists.
Qed.

(** On a non-empty sequence that cannot be spread it throws. *)
Lemma calculateMetrics_throws {engine : Engine} (results : list JTLResult) :
  results <> [] -> ~ spreadable results -> calculateMetrics results = None.
Proof.
  intros Hne H. destruct results as [|r rs]; [congruence|].
  unfold calculateMetrics. now rewrite (totalTime_throws H).
Qed.

(** When it returns on a non-empty sequence, the sequence can be spread. *)
Lemma calculateMetrics_fits {engine : Engine} (results : list JTLResult)
  (m : PerformanceMetrics) :
  results <> [] -> calculateMetrics results = Some m -> spreadable results.
Proof.
  intros Hne Hm. destruct (spreadable_dec results) as [H | H]; [exact H|].
  rewrite (calculateMetrics_throws Hne H) in Hm. discriminate Hm.
Qed.




(** ** Bottleneck classifier *)

Lemma checkEndpoint_app (acc : list Bottleneck) (e : EndpointMetrics) :
  checkEndpoint acc e = acc ++ endpointFindings e.
Proof.
  unfold checkEndpoint, endpointFindings, push, spec_slow, spec_error, spec_latency, tier.
  destruct (gt (em_average e) 2000), (gt (em_errorRate e) 5),
    (gt (em_percentile95 e) 1000);
    cbn [app]; rewrite <- ?app_assoc, ?app_nil_r; reflexivity.
Qed.

Lemma checkEndpoint_fold (eps : list EndpointMetrics) (acc : list Bottleneck) :
  fold_left checkEndpoint eps acc = acc ++ flat_map endpointFindings eps.
Proof.
  revert acc; induction eps as [|e eps IH]; intros acc; cbn [fold_left flat_map].
  - now rewrite app_nil_r.
  - rewrite IH, checkEndpoint_app. now rewrite app_assoc.
Qed.

Lemma perm_regroup (A : Type) (a b c x y z : list A) :
  Permutation ((a ++ b ++ c) ++ (x ++ y ++ z)) ((a ++ x) ++ (b ++ y) ++ (c ++ z)).
Proof.
  rewrite <- !app_assoc. apply Permutation_app_head.
  rewrite (Permutation_app_swap_app c x). rewrite (Permutation_app_swap_app b x).
  do 2 apply Permutation_app_head. apply Permutation_app_swap_app.
Qed.

Lemma endpointFindings_grouped (eps : list EndpointMetrics) :
  Permutation (flat_map endpointFindings eps)
    (map spec_slow (filter (fun e => gt (em_average e) 2000) eps)
     ++ map spec_error (filter (fun e => gt (em_errorRate e) 5) eps)
     ++ map spec_latency (filter (fun e => gt (em_percentile95 e) 1000) eps)).
Proof.
  induction eps as [|e eps IH]; [reflexivity|].
  cbn [flat_map filter]. rewrite IH. unfold endpointFindings.
  etransitivity; [apply perm_regroup|].
  destruct (gt (em_average e) 2000), (gt (em_errorRate e) 5),
    (gt (em_percentile95 e) 1000); reflexivity.
Qed.

Lemma tier_not_low (v h c : Q) : tier v h c <> low.
Proof. unfold tier. destruct (gt v c), (gt v h); discriminate. Qed.

(** C2. [identifyBottlenecks] emits exactly one slow-endpoint entry for each
    endpoint with average above 2000, one high-error-rate entry for each
    endpoint with error rate above 5, one high-latency entry for each endpoint
    with 95th percentile above 1000, and one more high-error-rate entry
    labelled All endpoints exactly when the overall error rate is above 5,
    each with the severity of the threshold table, and nothing else; no
    entry has severity [low]. *)
Theorem identifyBottlenecks_exact (metrics : PerformanceMetrics)
  (endpointMetrics : list EndpointMetrics) :
  Permutation (identifyBottlenecks metrics endpointMetrics)
              (spec_bottlenecks metrics endpointMetrics)
  /\ Forall (fun b => b_severity b <> low) (identifyBottlenecks metrics endpointMetrics)
  /\ (forall e, b_type (spec_slow e) = slow_endpoint
                /\ b_affectedEndpoint (spec_slow e) = em_label e
                /\ b_severity (spec_slow e)
                   = (if gt (em_average e) 5000 then critical
                      else if gt (em_average e) 3000 then high else medium))
  /\ (forall e, b_type (spec_error e) = high_error_rate
                /\ b_affectedEndpoint (spec_error e) = em_label e
                /\ b_severity (spec_error e)
                   = (if gt (em_errorRate e) 20 then critical
                      else if gt (em_errorRate e) 10 then high else medium))
  /\ (forall e, b_type (spec_latency e) = high_latency
                /\ b_affectedEndpoint (spec_latency e) = em_label e
                /\ b_severity (spec_latency e)
                   = (if gt (em_percentile95 e) 3000 then critical
                      else if gt (em_percentile95 e) 2000 then high else medium))
  /\ b_type (spec_overall metrics) = high_error_rate
  /\ b_affectedEndpoint (spec_overall metrics) = "All endpoints"%string
  /\ b_severity (spec_overall metrics)
     = (if gt (errorRate metrics) 20 then critical
        else if gt (errorRate metrics) 10 then high else medium).
Proof.
  assert (HP : Permutation (identifyBottlenecks metrics endpointMetrics)
                           (spec_bottlenecks metrics endpointMetrics)).
  { unfold identifyBottlenecks. rewrite js_sort_perm.
    unfold collectBottlenecks, spec_bottlenecks, push.
    rewrite checkEndpoint_fold. cbn [app].
    destruct (gt (errorRate metrics) 5).
    - rewrite (endpointFindings_grouped endpointMetrics).
      rewrite <- !app_assoc. reflexivity.
    - rewrite (endpointFindings_grouped endpointMetrics).
      rewrite !app_nil_r. reflexivity. }
  split; [exact HP|]. split.
  - eapply Permutation_Forall; [symmetry; exact HP|].
    unfold spec_bottlenecks. rewrite !Forall_app. repeat split.
    + apply Forall_forall. intros b Hb. apply in_map_iff in Hb.
      destruct Hb as (e & <- & _). apply tier_not_low.
    + apply Forall_forall. intros b Hb. apply in_map_iff in Hb.
      destruct Hb as (e & <- & _). apply tier_not_low.
    + apply Forall_forall. intros b Hb. apply in_map_iff in Hb.
      destruct Hb as (e & <- & _). apply tier_not_low.
    + destruct (gt (errorRate metrics) 5); constructor; [apply tier_not_low | constructor].
  - repeat split.
Qed.

(** ** Recommendation engine *)

Lemma adviseBottleneck_app (acc : list string) (b : Bottleneck) :
  adviseBottleneck acc b = acc ++ adviseBottleneck [] b
  /\ length (adviseBottleneck [] b) = (if advised b then 1 else 0)%nat.
Proof.
  unfold adviseBottleneck, advised, push.
  destruct (b_type b); split; try reflexivity. now rewrite app_nil_r.
Qed.

Lemma adviseBottleneck_fold (bs : list Bottleneck) (acc : list string) :
  fold_left adviseBottleneck bs acc = acc ++ bottleneckAdvice bs
  /\ length (bottleneckAdvice bs) = length (filter advised bs).
Proof.
  unfold bottleneckAdvice. revert acc.
  induction bs as [|b bs IH]; intros acc; cbn [fold_left length filter].
  - now rewrite app_nil_r.
  - destruct (adviseBottleneck_app acc b) as [E1 E2].
    destruct (IH (adviseBottleneck acc b)) as [IH1 _].
    destruct (IH (adviseBottleneck [] b)) as [IH2 IH3].
    rewrite IH1, IH2, E1. split; [now rewrite app_assoc|].
    rewrite length_app, E2, IH3. now destruct (advised b).
Qed.

(** Every bottleneck that [identifyBottlenecks] reports has a branch in the
    first loop of [generateRecommendations]. *)
Lemma endpointFindings_advised (e : EndpointMetrics) :
  Forall (fun b => advised b = true) (endpointFindings e).
Proof.
  unfold endpointFindings.
  destruct (gt (em_average e) 2000), (gt (em_errorRate e) 5),
    (gt (em_percentile95 e) 1000); repeat constructor.
Qed.

Lemma collectBottlenecks_advised (m : PerformanceMetrics) (eps : list EndpointMetrics) :
  Forall (fun b => advised b = true) (collectBottlenecks m eps).
Proof.
  unfold collectBottlenecks, push.
  assert (H : Forall (fun b => advised b = true) (fold_left checkEndpoint eps [])).
  { rewrite checkEndpoint_fold. cbn [app]. apply Forall_flat_map, Forall_forall.
    intros e _. apply endpointFindings_advised. }
  destruct (gt (errorRate m) 5); [|exact H].
  apply Forall_app. split; [exact H | repeat constructor].
Qed.

Lemma filter_true (A : Type) (f : A -> bool) (l : list A) :
  Forall (fun a => f a = true) l -> filter f l = l.
Proof.
  induction 1 as [|a l Ha _ IH]; [reflexivity|]. cbn [filter]. now rewrite Ha, IH.
Qed.

Lemma adviseError_app (acc : list string) (e : ErrorAnalysis) :
  adviseError acc e = acc ++ adviseError [] e.
Proof.
  unfold adviseError, push.
  destruct (String.prefix "5" (ea_responseCode e)); [reflexivity|].
  destruct (String.eqb (ea_responseCode e) "404"); [reflexivity|].
  destruct (String.eqb (ea_responseCode e) "401" || String.eqb (ea_responseCode e) "403");
    [reflexivity | now rewrite app_nil_r].
Qed.

Lemma adviseError_fold (es : list ErrorAnalysis) (acc : list string) :
  fold_left adviseError es acc = acc ++ fold_left adviseError es [].
Proof.
  revert acc; induction es as [|e es IH]; intros acc; cbn [fold_left].
  - now rewrite app_nil_r.
  - rewrite IH, (IH (adviseError [] e)), adviseError_app. now rewrite app_assoc.
Qed.

Lemma adviseMetrics_app (acc : list string) (m : PerformanceMetrics) :
  adviseMetrics acc m = acc ++ metricAdvice m.
Proof.
  unfold metricAdvice, adviseMetrics, push.
  destruct (gt (errorRate m) 1 && Qle_bool (errorRate m) 5),
    (gt (percentile95 m) (averageResponseTime m * 2)), (lt (throughput m) 10);
    cbn [app]; rewrite <- ?app_assoc, ?app_nil_r; reflexivity.
Qed.

Lemma advisories_split (m : PerformanceMetrics) (bs : list Bottleneck)
  (es : list ErrorAnalysis) :
  advisories m bs es = bottleneckAdvice bs ++ errorAdvice es ++ metricAdvice m.
Proof.
  unfold advisories. rewrite adviseMetrics_app, adviseError_fold.
  fold (bottleneckAdvice bs). fold (errorAdvice es). now rewrite app_assoc.
Qed.

Lemma lt_false (a b : Q) : lt a b = false <-> b <= a.
Proof. unfold lt. rewrite negb_false_iff. apply Qle_bool_iff. Qed.

(** The global heuristics stay silent exactly when the error rate is
    outside (1, 5], the 95th percentile is at most twice the average and the
    throughput is at least 10. *)
Lemma metricAdvice_nil (m : PerformanceMetrics) :
  metricAdvice m = []
  <-> ~ (1 < errorRate m /\ errorRate m <= 5)
      /\ percentile95 m <= averageResponseTime m * 2
      /\ 10 <= throughput m.
Proof.
  assert (H1 : gt (errorRate m) 1 && Qle_bool (errorRate m) 5 = true
               <-> 1 < errorRate m /\ errorRate m <= 5).
  { now rewrite andb_true_iff, gt_true, Qle_bool_iff. }
  unfold metricAdvice, adviseMetrics, push.
  destruct (gt (errorRate m) 1 && Qle_bool (errorRate m) 5) eqn:E1,
    (gt (percentile95 m) (averageResponseTime m * 2)) eqn:E2,
    (lt (throughput m) 10) eqn:E3; cbn [app]; split.
  all: try (intros H; discriminate H).
  all: try (intros _; split;
            [intros H; apply H1 in H; discriminate H
            | split; [now apply gt_false | now apply lt_false]]).
  all: intros (Ha & Hb & Hc); try reflexivity; exfalso.
  all: try (apply Ha, H1; reflexivity).
  all: try (apply gt_true in E2; eapply Qlt_not_le; eassumption).
  all: apply lt_true in E3; eapply Qlt_not_le; eassumption.
Qed.

(** An error cluster yields no advisory exactly when its code is outside
    the classes 5xx, 404, 401 and 403. *)
Lemma adviseError_nil (e : ErrorAnalysis) :
  adviseError [] e = []
  <-> String.prefix "5" (ea_responseCode e) = false
      /\ ea_responseCode e <> "404"%string
      /\ ea_responseCode e <> "401"%string
      /\ ea_responseCode e <> "403"%string.
Proof.
  unfold adviseError, push.
  destruct (String.prefix "5" (ea_responseCode e)).
  { split; [intros H; discriminate H | intros (H & _); discriminate H]. }
  destruct (String.eqb_spec (ea_responseCode e) "404").
  { split; [intros H; discriminate H | tauto]. }
  destruct (String.eqb_spec (ea_responseCode e) "401").
  { split; [intros H; discriminate H | tauto]. }
  destruct (String.eqb_spec (ea_responseCode e) "403").
  { split; [intros H; discriminate H | tauto]. }
  cbn [orb]. tauto.
Qed.

Lemma errorAdvice_nil (es : list ErrorAnalysis) :
  errorAdvice es = [] <-> Forall (fun e => adviseError [] e = []) (firstn 3 es).
Proof.
  unfold errorAdvice. induction (firstn 3 es) as [|e l IH]; cbn [fold_left].
  - split; [constructor | reflexivity].
  - rewrite adviseError_fold. split.
    + intros H. apply app_eq_nil in H. destruct H as [H1 H2].
      constructor; [exact H1 | now apply IH].
    + intros H. inversion H as [|? ? H1 H2]; subst. rewrite H1.
      now apply IH.
Qed.

(** C8. [generateRecommendations] never returns an empty list.  Its
    advisories are those of the bottlenecks (one for each bottleneck of a
    type other than low-throughput, hence one for each bottleneck that
    [identifyBottlenecks] reports), of the first three error clusters and of
    the three global heuristics, in this order; when
    all three sources are empty the result is exactly the fallback string,
    otherwise it is the advisories without the fallback.  For a run with no
    bottleneck, no failure, average 500, 95th percentile 600 and throughput
    50 the result is exactly the fallback. *)
Theorem generateRecommendations_never_empty (metrics : PerformanceMetrics)
  (bottlenecks : list Bottleneck) (errors : list ErrorAnalysis) :
  generateRecommendations metrics bottlenecks errors <> []
  /\ advisories metrics bottlenecks errors
     = bottleneckAdvice bottlenecks ++ errorAdvice errors ++ metricAdvice metrics
  /\ length (bottleneckAdvice bottlenecks) = length (filter advised bottlenecks)
  /\ (forall endpointMetrics,
        length (bottleneckAdvice (identifyBottlenecks metrics endpointMetrics))
        = length (identifyBottlenecks metrics endpointMetrics))
  /\ (bottleneckAdvice bottlenecks = [] -> errorAdvice errors = [] ->
      metricAdvice metrics = [] ->
      generateRecommendations metrics bottlenecks errors = [fallback])
  /\ (advisories metrics bottlenecks errors <> [] ->
      generateRecommendations metrics bottlenecks errors
      = advisories metrics bottlenecks errors)
  /\ (bottleneckAdvice bottlenecks = []
      <-> Forall (fun b => b_type b = low_throughput) bottlenecks)
  /\ (errorAdvice errors = []
      <-> Forall (fun e => String.prefix "5" (ea_responseCode e) = false
                           /\ ea_responseCode e <> "404"%string
                           /\ ea_responseCode e <> "401"%string
                           /\ ea_responseCode e <> "403"%string)
                 (firstn 3 errors))
  /\ (metricAdvice metrics = []
      <-> ~ (1 < errorRate metrics /\ errorRate metrics <= 5)
          /\ percentile95 metrics <= averageResponseTime metrics * 2
          /\ 10 <= throughput metrics)
  /\ (errorRate metrics == 0 -> averageResponseTime metrics == 500 ->
      percentile95 metrics == 600 -> throughput metrics == 50 ->
      generateRecommendations metrics [] [] = [fallback]).
Proof.
  split.
  { unfold generateRecommendations, push.
    destruct (advisories metrics bottlenecks errors); discriminate. }
  split; [apply advisories_split|].
  split; [apply (adviseBottleneck_fold bottlenecks [])|].
  split.
  { intros eps. rewrite (proj2 (adviseBottleneck_fold _ [])).
    f_equal. apply filter_true. unfold identifyBottlenecks.
    eapply Permutation_Forall; [symmetry; apply js_sort_perm|].
    apply collectBottlenecks_advised. }
  split.
  { intros H1 H2 H3. unfold generateRecommendations.
    rewrite advisories_split, H1, H2, H3. reflexivity. }
  split.
  { intros H. unfold generateRecommendations.
    destruct (advisories metrics bottlenecks errors); [congruence | reflexivity]. }
  split.
  { pose proof (proj2 (adviseBottleneck_fold bottlenecks [])) as Hlen.
    assert (Hadv : forall b, advised b = false <-> b_type b = low_throughput).
    { intros b. unfold advised. destruct (b_type b); split; congruence. }
    split.
    - intros H. rewrite H in Hlen. cbn [length] in Hlen.
      apply Forall_forall. intros b Hb. apply Hadv.
      destruct (advised b) eqn:E; [exfalso | reflexivity].
      assert (Hin : In b (filter advised bottlenecks)) by (apply filter_In; now split).
      destruct (filter advised bottlenecks); [destruct Hin | discriminate].
    - intros H.
      assert (E : filter advised bottlenecks = []).
      { clear Hlen. induction H as [|b bs Hb _ IH]; [reflexivity|].
        cbn [filter]. apply Hadv in Hb. now rewrite Hb. }
      rewrite E in Hlen. now destruct (bottleneckAdvice bottlenecks). }
  split.
  { rewrite errorAdvice_nil. split; intros H; eapply Forall_impl; try exact H;
      intros e; apply adviseError_nil. }
  split; [apply metricAdvice_nil|].
  intros He Ha Hp Ht. unfold generateRecommendations.
  rewrite advisories_split. cbn [bottleneckAdvice errorAdvice firstn fold_left app].
  assert (E1 : gt (errorRate metrics) 1 = false).
  { apply gt_false. rewrite He. discriminate. }
  assert (E2 : gt (percentile95 metrics) (averageResponseTime metrics * 2) = false).
  { apply gt_false. rewrite Hp, Ha. discriminate. }
  assert (E3 : lt (throughput metrics) 10 = false).
  { unfold lt. apply negb_false_iff, Qle_bool_iff. rewrite Ht. discriminate. }
  unfold metricAdvice, adviseMetrics. rewrite E1, E2, E3. reflexivity.
Qed.

Lemma generateRecommendations_never_empty_witness :
  generateRecommendations healthy [] [] = [fallback].
Proof.
  apply (proj2 (proj2 (proj2 (proj2 (proj2 (proj2 (proj2 (proj2
    (generateRecommendations_never_empty healthy [] []))))))))); reflexivity.
Defined.

(** ** Time-series bucketer *)

Lemma Qle_bool_Z (a b : Z) : Qle_bool (inject_Z a) (inject_Z b) = (a <=? b)%Z.
Proof.
  destruct (Z.leb_spec a b) as [H | H].
  - apply Qle_bool_iff. now rewrite <- Zle_Qle.
  - destruct (Qle_bool (inject_Z a) (inject_Z b)) eqn:E; [|reflexivity].
    apply Qle_bool_iff in E. rewrite <- Zle_Qle in E. lia.
Qed.

Lemma lt_Z (a b : Z) : lt (inject_Z a) (inject_Z b) = (a <? b)%Z.
Proof. unfold lt. now rewrite Qle_bool_Z, Z.ltb_antisym. Qed.

Lemma belongs_spec (start intervalMs : Z) (r : JTLResult) :
  belongs start intervalMs r = true
  <-> (start <= timestamp r < start + intervalMs)%Z.
Proof. unfold belongs. rewrite andb_true_iff, Z.leb_le, Z.ltb_lt. tauto. Qed.

(** On integers whose sum binary64 holds, the test of the loop body is the
    test of the specification. *)
Lemma inWindow_exact (time intervalMs : Z) (r : JTLResult) :
  (- 2 ^ 53 <= time + intervalMs <= 2 ^ 53)%Z ->
  inWindow (inject_Z time) (inject_Z intervalMs) r = belongs time intervalMs r.
Proof.
  intros H. unfold inWindow, belongs. rewrite js_add_Z by exact H.
  now rewrite Qle_bool_Z, lt_Z.
Qed.

(** A window without a sample has no point; any other has one point that
    carries the window start and the number of samples in the window. *)
Lemma windowPoint_point (results : list JTLResult) (intervalMs start : Z) :
  let inside := filter (belongs start intervalMs) results in
  (inside = [] -> windowPoint results intervalMs start = [])
  /\ (inside <> [] ->
      exists pt, windowPoint results intervalMs start = [pt]
                 /\ ts_timestamp pt = inject_Z start
                 /\ ts_throughput pt
                    = js_div (len inside) (js_div (inject_Z intervalMs) 1000)
                 /\ ts_responseTime pt = average (map elapsed inside)).
Proof.
  cbv zeta. unfold windowPoint.
  destruct (filter (belongs start intervalMs) results) as [|r rs]; split;
    try congruence; try reflexivity.
  intros _. eexists. split; [reflexivity|]. repeat split.
Qed.

(** The loop body returns whenever the samples can be spread. *)
Lemma bucket_defined {engine : Engine} (results : list JTLResult) (intervalMs time : Q)
  (acc : list TimeSeriesData) :
  spreadable results -> exists acc', bucket results intervalMs time acc = Some acc'.
Proof.
  intros Hfit. unfold bucket.
  destruct (filter (inWindow time intervalMs) results) as [|r rs] eqn:E; [now eexists|].
  rewrite spread_some.
  - cbn [map Math_max bind]. now eexists.
  - eapply spreadable_length; [symmetry; apply length_map|].
    rewrite <- E. now apply spreadable_filter.
Qed.

(** On integers whose sum binary64 holds, the loop body adds the point of
    the window. *)
Lemma bucket_exact {engine : Engine} (results : list JTLResult) (intervalMs time : Z)
  (acc : list TimeSeriesData) :
  spreadable results -> (- 2 ^ 53 <= time + intervalMs <= 2 ^ 53)%Z ->
  bucket results (inject_Z intervalMs) (inject_Z time) acc
  = Some (acc ++ windowPoint results intervalMs time).
Proof.
  intros Hfit H. unfold bucket, windowPoint, push.
  rewrite (filter_ext _ _ (fun r => @inWindow_exact time intervalMs r H)).
  destruct (filter (belongs time intervalMs) results) as [|r rs] eqn:E;
    [now rewrite app_nil_r|].
  rewrite spread_some; [reflexivity|].
  eapply spreadable_length; [symmetry; apply length_map|].
  rewrite <- E. now apply spreadable_filter.
Qed.

(** With a positive interval, on integers that binary64 holds, the loop
    leaves after one test per remaining window and one more. *)
Lemma timeSeriesLoop_run {engine : Engine} (results : list JTLResult)
  (intervalMs maxTime : Z) :
  (0 < intervalMs)%Z -> spreadable results -> (maxTime + intervalMs <= 2 ^ 53)%Z ->
  forall (n : nat) (time : Z) (acc : list TimeSeriesData) (fuel : nat),
    (- 2 ^ 53 <= time)%Z ->
    (maxTime < time + Z.of_nat n * intervalMs)%Z ->
    (time + (Z.of_nat n - 1) * intervalMs <= maxTime)%Z ->
    (n < fuel)%nat ->
    timeSeriesLoop fuel results (inject_Z intervalMs) (inject_Z maxTime) (inject_Z time) acc
    = Returned (acc ++ flat_map (windowPoint results intervalMs)
                                (windowStarts time intervalMs n)).
Proof.
  intros Hpos Hfit Hsafe n.
  induction n as [|n IH]; intros time acc fuel Hlo Hgt Hle Hfuel.
  - destruct fuel as [|fuel]; [lia|]. cbn [timeSeriesLoop windowStarts flat_map].
    rewrite Qle_bool_Z. destruct (Z.leb_spec time maxTime); [lia|]. now rewrite app_nil_r.
  - destruct fuel as [|fuel]; [lia|]. cbn [timeSeriesLoop windowStarts flat_map].
    rewrite Qle_bool_Z. destruct (Z.leb_spec time maxTime); [|nia].
    rewrite bucket_exact by (assumption || lia). rewrite js_add_Z by lia.
    rewrite IH; [| lia | nia | nia | lia]. now rewrite app_assoc.
Qed.

(** With an interval of at least one millisecond the cursor passes the next
    integer at every step, so the loop leaves. *)
Lemma cursor_advances (intervalMs time : Q) (z : Z) :
  1 <= intervalMs -> (- 2 ^ 53 <= z < 2 ^ 53)%Z -> inject_Z z <= time ->
  inject_Z (z + 1) <= js_add time intervalMs.
Proof.
  intros Hi Hz Ht. unfold js_add.
  rewrite <- (@round64_Z (z + 1)) by lia. apply round64_mono.
  rewrite inject_Z_plus. change (inject_Z 1) with 1. lra.
Qed.

Lemma timeSeriesLoop_returns {engine : Engine} (results : list JTLResult)
  (intervalMs : Q) (maxTime : Z) :
  1 <= intervalMs -> spreadable results -> (maxTime < 2 ^ 53)%Z ->
  forall (n : nat) (time : Q) (acc : list TimeSeriesData),
    (- 2 ^ 53 <= maxTime + 1 - Z.of_nat n)%Z ->
    inject_Z (maxTime + 1 - Z.of_nat n) <= time ->
    exists out, forall fuel, (n < fuel)%nat ->
      timeSeriesLoop fuel results intervalMs (inject_Z maxTime) time acc = Returned out.
Proof.
  intros Hi Hfit Hmax n. induction n as [|n IH]; intros time acc Hlo Ht.
  - exists acc. intros fuel Hfuel. destruct fuel as [|fuel]; [lia|].
    cbn [timeSeriesLoop].
    destruct (Qle_bool time (inject_Z maxTime)) eqn:E; [|reflexivity].
    apply Qle_bool_iff in E. exfalso.
    replace (maxTime + 1 - Z.of_nat 0)%Z with (maxTime + 1)%Z in Ht by lia.
    rewrite inject_Z_plus in Ht. change (inject_Z 1) with 1 in Ht. lra.
  - destruct (Qle_bool time (inject_Z maxTime)) eqn:E.
    + destruct (@bucket_defined _ results intervalMs time acc Hfit) as (acc' & Hb).
      destruct (IH (js_add time intervalMs) acc') as (out & Hout).
      * lia.
      * replace (maxTime + 1 - Z.of_nat n)%Z with (maxTime + 1 - Z.of_nat (S n) + 1)%Z
          by lia.
        apply cursor_advances; [exact Hi | lia | exact Ht].
      * exists out. intros fuel Hfuel. destruct fuel as [|fuel]; [lia|].
        cbn [timeSeriesLoop]. rewrite E, Hb. apply Hout. lia.
    + exists acc. intros fuel Hfuel. destruct fuel as [|fuel]; [lia|].
      cbn [timeSeriesLoop]. now rewrite E.
Qed.

(** With a non-positive interval the cursor never passes [maxTime]. *)
Lemma timeSeriesLoop_stuck {engine : Engine} (results : list JTLResult)
  (intervalMs : Q) (maxTime : Z) :
  intervalMs <= 0 -> spreadable results -> (- 2 ^ 53 <= maxTime <= 2 ^ 53)%Z ->
  forall (fuel : nat) (time : Q) (acc : list TimeSeriesData),
    time <= inject_Z maxTime ->
    timeSeriesLoop fuel results intervalMs (inject_Z maxTime) time acc = Pending.
Proof.
  intros Hi Hfit Hmax fuel.
  induction fuel as [|fuel IH]; intros time acc Hle; [reflexivity|].
  cbn [timeSeriesLoop].
  assert (E : Qle_bool time (inject_Z maxTime) = true) by now apply Qle_bool_iff.
  rewrite E. destruct (@bucket_defined _ results intervalMs time acc Hfit) as (acc' & ->).
  apply IH. unfold js_add. rewrite <- (@round64_Z maxTime) by lia.
  apply round64_mono. lra.
Qed.

(** A cursor that the sum with the interval leaves unchanged, in a window
    that holds no sample, stays where it is. *)
Lemma timeSeriesLoop_absorbed {engine : Engine} (results : list JTLResult)
  (intervalMs maxTime time : Q) (acc : list TimeSeriesData) :
  js_add time intervalMs = time -> Qle_bool time maxTime = true ->
  bucket results intervalMs time acc = Some acc ->
  forall fuel, timeSeriesLoop fuel results intervalMs maxTime time acc = Pending.
Proof.
  intros Hadd Hle Hb fuel. induction fuel as [|fuel IH]; [reflexivity|].
  cbn [timeSeriesLoop]. now rewrite Hle, Hb, Hadd.
Qed.

Lemma windowCount_spec (minTime maxTime intervalMs : Z) :
  (0 < intervalMs)%Z -> (minTime <= maxTime)%Z ->
  let n := Z.of_nat (windowCount minTime maxTime intervalMs) in
  (maxTime < minTime + n * intervalMs)%Z
  /\ (minTime + (n - 1) * intervalMs <= maxTime)%Z
  /\ (1 <= n)%Z.
Proof.
  intros Hpos Hle. cbv zeta. unfold windowCount.
  assert (H0 : (0 <= (maxTime - minTime) / intervalMs)%Z) by (apply Z.div_pos; lia).
  rewrite Z2Nat.id by lia.
  pose proof (Z.mul_div_le (maxTime - minTime) intervalMs Hpos).
  pose proof (Z.mul_succ_div_gt (maxTime - minTime) intervalMs Hpos).
  repeat split; nia.
Qed.

Lemma windowStarts_In (time intervalMs : Z) (n : nat) (t : Z) :
  In t (windowStarts time intervalMs n)
  <-> exists k : nat, (k < n)%nat /\ t = (time + Z.of_nat k * intervalMs)%Z.
Proof.
  revert time; induction n as [|n IH]; intros time; cbn [windowStarts In].
  - split; [tauto | intros (k & Hk & _); lia].
  - rewrite IH. split.
    + intros [<- | (k & Hk & ->)].
      * exists 0%nat. split; lia.
      * exists (S k). split; lia.
    + intros (k & Hk & ->). destruct k as [|k].
      * left. lia.
      * right. exists k. split; lia.
Qed.

Lemma minmax_bounds (r : JTLResult) (rs : list JTLResult) :
  let lo := Math_min1 (timestamp r) (map timestamp rs) in
  let hi := Math_max1 (timestamp r) (map timestamp rs) in
  (lo <= hi)%Z /\ Forall (fun x => (lo <= timestamp x <= hi)%Z) (r :: rs)
  /\ In lo (map timestamp (r :: rs)) /\ In hi (map timestamp (r :: rs)).
Proof.
  cbv zeta.
  destruct (Math_max1_ge (map timestamp rs) (timestamp r)) as [H1 H2].
  destruct (Math_min1_le (map timestamp rs) (timestamp r)) as [H3 H4].
  split; [lia|]. split.
  - constructor; [lia|]. rewrite Forall_map in H2, H4. rewrite Forall_forall in *.
    intros x Hx. split; [now apply H4 | now apply H2].
  - split; [apply Math_min1_in | apply Math_max1_in].
Qed.

(** The least and the greatest timestamp of safe timestamps are safe. *)
Lemma safeTimes_bounds (intervalMs : Z) (r : JTLResult) (rs : list JTLResult) :
  safeTimes intervalMs (r :: rs) ->
  let lo := Math_min1 (timestamp r) (map timestamp rs) in
  let hi := Math_max1 (timestamp r) (map timestamp rs) in
  (- 2 ^ 53 <= lo)%Z /\ (hi + intervalMs <= 2 ^ 53)%Z.
Proof.
  intros Hsafe. cbv zeta. destruct (minmax_bounds r rs) as (_ & _ & Hlo & Hhi).
  unfold safeTimes in Hsafe. rewrite Forall_forall in Hsafe.
  apply in_map_iff in Hlo, Hhi.
  destruct Hlo as (x & <- & Hx), Hhi as (y & <- & Hy).
  destruct (Hsafe x Hx) as [H1 _]. destruct (Hsafe y Hy) as [_ H2]. now split.
Qed.

(** The call on a non-empty sequence that can be spread is the loop from
    the least to the greatest timestamp. *)
Lemma generateTimeSeriesData_loop {engine : Engine} (r : JTLResult)
  (rs : list JTLResult) (intervalMs : Q) (fuel : nat) :
  spreadable (r :: rs) ->
  generateTimeSeriesData fuel (r :: rs) (Some intervalMs)
  = timeSeriesLoop fuel (r :: rs) intervalMs
      (inject_Z (Math_max1 (timestamp r) (map timestamp rs)))
      (inject_Z (Math_min1 (timestamp r) (map timestamp rs))) [].
Proof.
  intros Hfit. unfold generateTimeSeriesData.
  assert (Hfit' : spreadable (map timestamp (r :: rs))).
  { eapply spreadable_length; [|exact Hfit]. now rewrite length_map. }
  now rewrite !spread_some by exact Hfit'.
Qed.

(** On a non-empty sequence that cannot be spread the call throws. *)
Lemma generateTimeSeriesData_throws {engine : Engine} (results : list JTLResult)
  (intervalMs : option Q) (fuel : nat) :
  results <> [] -> ~ spreadable results ->
  generateTimeSeriesData fuel results intervalMs = Thrown.
Proof.
  intros Hne H. destruct results as [|r rs]; [congruence|].
  unfold generateTimeSeriesData. rewrite spread_none; [reflexivity|].
  intros H'. apply H. eapply spreadable_length; [|exact H']. now rewrite length_map.
Qed.

(** The result of the bucketer on a non-empty sequence, for enough fuel. *)
Lemma generateTimeSeriesData_run {engine : Engine} (r : JTLResult) (rs : list JTLResult)
  (intervalMs : Z) (fuel : nat) :
  (0 < intervalMs)%Z -> spreadable (r :: rs) -> safeTimes intervalMs (r :: rs) ->
  let lo := Math_min1 (timestamp r) (map timestamp rs) in
  let hi := Math_max1 (timestamp r) (map timestamp rs) in
  (windowCount lo hi intervalMs < fuel)%nat ->
  generateTimeSeriesData fuel (r :: rs) (Some (inject_Z intervalMs))
  = Returned (spec_points (r :: rs) intervalMs lo hi).
Proof.
  intros Hpos Hfit Hsafe lo hi Hfuel. rewrite generateTimeSeriesData_loop by exact Hfit.
  unfold spec_points.
  destruct (minmax_bounds r rs) as (Hle & _).
  destruct (safeTimes_bounds Hsafe) as (Hlo & Hhi).
  destruct (windowCount_spec Hpos Hle) as (H1 & H2 & _).
  fold lo hi in H1, H2, Hlo, Hhi |- *.
  rewrite (@timeSeriesLoop_run engine (r :: rs) intervalMs hi Hpos Hfit Hhi
             (windowCount lo hi intervalMs) lo [] fuel Hlo H1 H2 Hfuel).
  reflexivity.
Qed.

(** The walked windows are those that start at [lo + k * intervalMs] no
    later than [hi]. *)
Lemma windowStarts_walk (lo hi intervalMs t : Z) :
  (0 < intervalMs)%Z -> (lo <= hi)%Z ->
  In t (windowStarts lo intervalMs (windowCount lo hi intervalMs))
  <-> exists k : nat, t = (lo + Z.of_nat k * intervalMs)%Z /\ (t <= hi)%Z.
Proof.
  intros Hpos Hle. rewrite windowStarts_In.
  destruct (windowCount_spec Hpos Hle) as (H1 & H2 & H3).
  split.
  - intros (k & Hk & ->). exists k. split; [reflexivity | nia].
  - intros (k & -> & Hk). exists k. split; [nia | reflexivity].
Qed.

(** Every sample between [lo] and [hi] lies in exactly one walked window. *)
Lemma sample_window (lo hi intervalMs : Z) (r : JTLResult) :
  (0 < intervalMs)%Z -> (lo <= timestamp r <= hi)%Z ->
  exists k : nat,
    (k < windowCount lo hi intervalMs)%nat
    /\ belongs (lo + Z.of_nat k * intervalMs) intervalMs r = true
    /\ forall k' : nat,
        belongs (lo + Z.of_nat k' * intervalMs) intervalMs r = true -> k' = k.
Proof.
  intros Hpos Hr.
  assert (Hle : (lo <= hi)%Z) by lia.
  destruct (windowCount_spec Hpos Hle) as (H1 & H2 & H3).
  set (q := ((timestamp r - lo) / intervalMs)%Z).
  assert (Hq0 : (0 <= q)%Z) by (apply Z.div_pos; lia).
  pose proof (Z.mul_div_le (timestamp r - lo) intervalMs Hpos) as Hq1.
  pose proof (Z.mul_succ_div_gt (timestamp r - lo) intervalMs Hpos) as Hq2.
  fold q in Hq1, Hq2.
  exists (Z.to_nat q). rewrite Z2Nat.id by assumption. split; [|split].
  - assert (q * intervalMs <= hi - lo)%Z by lia.
    assert (q < Z.of_nat (windowCount lo hi intervalMs))%Z by nia. lia.
  - apply belongs_spec. nia.
  - intros k' Hk'. apply belongs_spec in Hk'.
    assert (Z.of_nat k' = q); [|lia].
    destruct (Z.lt_trichotomy (Z.of_nat k') q) as [Hlt | [Heq | Hgt]]; [|exact Heq|].
    + exfalso. assert ((Z.of_nat k' + 1) * intervalMs <= q * intervalMs)%Z by nia. lia.
    + exfalso. assert ((q + 1) * intervalMs <= Z.of_nat k' * intervalMs)%Z by nia. lia.
Qed.

(** C7, as amended.  The bucketer maps the empty sequence to the empty
    output.  For a non-empty sequence that can be spread into the arguments
    of one call, whose timestamps and their sums with the interval are
    integers of magnitude at most 2^53, and a positive whole interval, it
    walks the windows that start at min(timestamp) and every [intervalMs]
    after it up to max(timestamp) inclusive; a sample belongs to the window
    with [start <= timestamp < start + intervalMs], which is exactly one of
    the walked windows; a window without samples yields no point and any
    other yields one point stamped with the window start.  For
    [intervalMs = 1000] and two samples at 500 and 1700 the output is two
    points, for the windows [[500,1500)] and [[1500,2500)], each holding one
    sample. *)
Theorem generateTimeSeriesData_windows {engine : Engine} (results : list JTLResult)
  (intervalMs : Z)
  (Hne : results <> []) (Hpos : (0 < intervalMs)%Z)
  (Hfit : spreadable results) (Hsafe : safeTimes intervalMs results) :
  (forall fuel i, generateTimeSeriesData fuel [] i = Returned [])
  /\ (exists lo hi,
        In lo (map timestamp results) /\ In hi (map timestamp results)
        /\ Forall (fun r => (lo <= timestamp r <= hi)%Z) results
        /\ (forall fuel, (windowCount lo hi intervalMs < fuel)%nat ->
            generateTimeSeriesData fuel results (Some (inject_Z intervalMs))
            = Returned (spec_points results intervalMs lo hi))
        /\ (forall t, In t (windowStarts lo intervalMs (windowCount lo hi intervalMs))
                      <-> exists k : nat,
                            t = (lo + Z.of_nat k * intervalMs)%Z /\ (t <= hi)%Z)
        /\ (forall r, In r results ->
            exists k : nat,
              (k < windowCount lo hi intervalMs)%nat
              /\ belongs (lo + Z.of_nat k * intervalMs) intervalMs r = true
              /\ forall k' : nat,
                  belongs (lo + Z.of_nat k' * intervalMs) intervalMs r = true ->
                  k' = k))
  /\ (forall start r, belongs start intervalMs r = true
                      <-> (start <= timestamp r < start + intervalMs)%Z)
  /\ (forall start,
        let inside := filter (belongs start intervalMs) results in
        (inside = [] -> windowPoint results intervalMs start = [])
        /\ (inside <> [] ->
            exists pt, windowPoint results intervalMs start = [pt]
                       /\ ts_timestamp pt = inject_Z start
                       /\ ts_throughput pt
                    = js_div (len inside) (js_div (inject_Z intervalMs) 1000)
                       /\ ts_responseTime pt = average (map elapsed inside)))
  /\ (spreadable twoSamples -> forall fuel, (2 < fuel)%nat ->
      exists p1 p2,
        generateTimeSeriesData fuel twoSamples (Some 1000) = Returned [p1; p2]
        /\ ts_timestamp p1 = 500 /\ ts_timestamp p2 = 1500
        /\ length (filter (inWindow 500 1000) twoSamples) = 1%nat
        /\ length (filter (inWindow 1500 1000) twoSamples) = 1%nat).
Proof.
  split; [reflexivity|]. split.
  { destruct results as [|r rs]; [congruence|].
    destruct (minmax_bounds r rs) as (Hle & Hall & Hlo & Hhi).
    exists (Math_min1 (timestamp r) (map timestamp rs)),
           (Math_max1 (timestamp r) (map timestamp rs)).
    repeat (split; [assumption|]). split; [|split].
    - intros fuel Hfuel. now apply generateTimeSeriesData_run.
    - intros t. now apply windowStarts_walk.
    - intros x Hx. apply sample_window; [assumption|].
      rewrite Forall_forall in Hall. now apply Hall. }
  split; [intros; apply belongs_spec|].
  split; [intros; apply windowPoint_point|].
  intros Hfit2 fuel Hfuel.
  assert (Hsafe2 : safeTimes 1000 twoSamples).
  { unfold safeTimes, twoSamples. repeat constructor; cbn; lia. }
  pose proof (@generateTimeSeriesData_run engine _ _ 1000 fuel eq_refl Hfit2 Hsafe2) as Hrun.
  cbv zeta in Hrun. change (inject_Z 1000) with 1000 in Hrun. unfold twoSamples.
  rewrite Hrun by (vm_compute; lia). vm_compute.
  eexists _, _. split; [reflexivity|]. repeat split.
Qed.

Lemma generateTimeSeriesData_windows_witness :
  exists p1 p2,
    generateTimeSeriesData (engine := exampleEngine) 3 twoSamples (Some 1000)
    = Returned [p1; p2]
    /\ ts_timestamp p1 = 500 /\ ts_timestamp p2 = 1500
    /\ length (filter (inWindow 500 1000) twoSamples) = 1%nat
    /\ length (filter (inWindow 1500 1000) twoSamples) = 1%nat.
Proof.
  refine (proj2 (proj2 (proj2 (proj2
    (@generateTimeSeriesData_windows exampleEngine twoSamples 1000 _ _ _ _)))) _ 3%nat _).
  - discriminate.
  - reflexivity.
  - unfold spreadable. cbn. lia.
  - unfold safeTimes, twoSamples. repeat constructor; cbn; lia.
  - unfold spreadable. cbn. lia.
  - apply le_n.
Defined.

(** C7, as stated, fails on the scenario: no run of the bucketer over the
    samples at 500 and 1700 with [intervalMs = 1000] yields points for the
    windows [[0,1000)] and [[1000,2000)]. *)
Lemma generateTimeSeriesData_scenario_counterexample :
  ~ (exists fuel pts,
       generateTimeSeriesData (engine := exampleEngine) fuel twoSamples (Some 1000)
       = Returned pts
       /\ map ts_timestamp pts = [0; 1000]).
Proof.
  intros (fuel & pts & Hrun & Hts).
  do 3 (destruct fuel as [|fuel]; [vm_compute in Hrun; discriminate Hrun|]).
  vm_compute in Hrun. injection Hrun as <-. discriminate Hts.
Qed.

(** C10, as amended.  For samples that can be spread into the arguments of
    one call and whose timestamps are integers from -2^53 to 2^53 - 1,
    [generateTimeSeriesData] returns whenever [intervalMs] is at least 1: the
    cursor starts at min(timestamp), each pass moves it to the binary64 sum
    [time + intervalMs], which lies beyond the next integer, and the loop
    leaves at the first cursor beyond max(timestamp).  A non-positive
    interval is not rejected: on a non-empty sequence the loop then never
    leaves.  The parameter defaults to 10000. *)
Theorem generateTimeSeriesData_terminates {engine : Engine} (results : list JTLResult)
  (intervalMs : Q)
  (Hfit : spreadable results) (Hsafe : safeTimes 1 results) :
  (1 <= intervalMs ->
   exists n out, forall fuel, (n <= fuel)%nat ->
     generateTimeSeriesData fuel results (Some intervalMs) = Returned out)
  /\ (intervalMs <= 0 -> results <> [] ->
      forall fuel, generateTimeSeriesData fuel results (Some intervalMs) = Pending)
  /\ (forall fuel maxTime time acc,
        (time <= maxTime ->
         timeSeriesLoop (S fuel) results intervalMs maxTime time acc
         = match bucket results intervalMs time acc with
           | Some acc' =>
               timeSeriesLoop fuel results intervalMs maxTime (js_add time intervalMs) acc'
           | None => Thrown
           end)
        /\ (maxTime < time ->
            timeSeriesLoop (S fuel) results intervalMs maxTime time acc = Returned acc))
  /\ (forall (z : Z) (time : Q),
        1 <= intervalMs -> (- 2 ^ 53 <= z < 2 ^ 53)%Z -> inject_Z z <= time ->
        inject_Z (z + 1) <= js_add time intervalMs)
  /\ (forall fuel,
        generateTimeSeriesData fuel results None
        = generateTimeSeriesData fuel results (Some 10000)).
Proof.
  split.
  { intros Hi. destruct results as [|r rs].
    - exists 0%nat, []. reflexivity.
    - destruct (minmax_bounds r rs) as (Hle & _).
      destruct (safeTimes_bounds Hsafe) as (Hlo & Hhi).
      set (lo := Math_min1 (timestamp r) (map timestamp rs)) in *.
      set (hi := Math_max1 (timestamp r) (map timestamp rs)) in *.
      destruct (@timeSeriesLoop_returns engine (r :: rs) intervalMs hi Hi Hfit
                  ltac:(lia) (Z.to_nat (hi + 1 - lo)) (inject_Z lo) [])
        as (out & Hout).
      + rewrite Z2Nat.id by lia. lia.
      + rewrite Z2Nat.id by lia. rewrite <- Zle_Qle. lia.
      + exists (S (Z.to_nat (hi + 1 - lo))), out. intros fuel Hfuel.
        rewrite generateTimeSeriesData_loop by exact Hfit. apply Hout. lia. }
  split.
  { intros Hi Hne fuel. destruct results as [|r rs]; [congruence|].
    rewrite generateTimeSeriesData_loop by exact Hfit.
    destruct (minmax_bounds r rs) as (Hle & _).
    destruct (safeTimes_bounds Hsafe) as (Hlo & Hhi).
    apply timeSeriesLoop_stuck; [exact Hi | exact Hfit | lia |].
    now rewrite <- Zle_Qle. }
  split.
  { intros fuel maxTime time acc. cbn [timeSeriesLoop]. split.
    - intros H. apply Qle_bool_iff in H. now rewrite H.
    - intros H. destruct (Qle_bool time maxTime) eqn:E; [|reflexivity].
      apply Qle_bool_iff in E. lra. }
  split; [intros z time Hi Hz Ht; now apply cursor_advances|].
  reflexivity.
Qed.

Lemma generateTimeSeriesData_terminates_witness :
  exists n out, forall fuel, (n <= fuel)%nat ->
    generateTimeSeriesData (engine := exampleEngine) fuel twoSamples (Some 1000)
    = Returned out.
Proof.
  refine (proj1 (@generateTimeSeriesData_terminates exampleEngine twoSamples 1000 _ _) _).
  - unfold spreadable. cbn. lia.
  - unfold safeTimes, twoSamples. repeat constructor; cbn; lia.
  - discriminate.
Defined.

(** C10, as stated, fails for a positive interval that the cursor absorbs:
    the binary64 sum of 1700000000000 and 2^-14 (about 0.00006) is
    1700000000000, and the sum of 10^21 and the default interval 10000 is
    10^21, so the cursor never moves and the call never returns. *)
Lemma generateTimeSeriesData_absorbed_counterexample :
  0 < 1 # 16384
  /\ (forall fuel,
        generateTimeSeriesData (engine := exampleEngine) fuel recentRun
          (Some (1 # 16384)) = Pending)
  /\ (forall fuel,
        generateTimeSeriesData (engine := exampleEngine) fuel farRun None = Pending).
Proof.
  split; [reflexivity|]. split; intros fuel.
  - unfold recentRun. rewrite generateTimeSeriesData_loop by (unfold spreadable; cbn; lia).
    apply timeSeriesLoop_absorbed; vm_compute; reflexivity.
  - change (generateTimeSeriesData fuel farRun None)
      with (generateTimeSeriesData (engine := exampleEngine) fuel farRun (Some 10000)).
    unfold farRun. rewrite generateTimeSeriesData_loop by (unfold spreadable; cbn; lia).
    apply timeSeriesLoop_absorbed; vm_compute; reflexivity.
Qed.

(** ** Record parser *)

Lemma append_nil_r (s : string) : (s ++ "")%string = s.
Proof. induction s as [|c s IH]; [reflexivity | cbn; now rewrite IH]. Qed.

Lemma append_assoc (s t u : string) : ((s ++ t) ++ u)%string = (s ++ t ++ u)%string.
Proof. induction s as [|c s IH]; [reflexivity | cbn; now rewrite IH]. Qed.

Lemma append_snoc (s t : string) (c : ascii) :
  ((s ++ String c EmptyString) ++ t)%string = (s ++ String c t)%string.
Proof. now rewrite append_assoc. Qed.

(** Inside quotes nothing splits: the loop runs through an escaped value and
    its closing quote and only extends the current field. *)
Lemma parseCsvLoop_quoted (v rest : string) (values : list string) (current : string) :
  parseCsvLoop (escape_quotes v ++ dq ++ rest) values current true
  = parseCsvLoop rest values (current ++ strip_quotes v) false.
Proof.
  revert current; induction v as [|c v IH]; intros current.
  - cbn. now rewrite append_nil_r.
  - cbn [escape_quotes strip_quotes]. destruct (Ascii.eqb c dquote) eqn:Ec.
    + cbn [append parseCsvLoop]. rewrite Ascii.eqb_refl. cbn [negb]. apply IH.
    + cbn [append parseCsvLoop]. rewrite Ec.
      replace (Ascii.eqb c "," && negb true) with false by (now rewrite andb_false_r).
      rewrite IH. now rewrite append_snoc.
Qed.

Lemma parseCsvLoop_bare (v rest : string) (values : list string) (current : string) :
  has_char "," v = false -> has_char dquote v = false ->
  parseCsvLoop (v ++ rest) values current false
  = parseCsvLoop rest values (current ++ v) false.
Proof.
  revert current; induction v as [|c v IH]; intros current Hc Hq.
  - cbn. now rewrite append_nil_r.
  - cbn [has_char] in Hc, Hq. apply orb_false_iff in Hc, Hq.
    destruct Hc as [Hc1 Hc2], Hq as [Hq1 Hq2].
    cbn [append parseCsvLoop]. rewrite Hq1, Hc1. cbn [andb].
    rewrite IH by assumption. now rewrite append_snoc.
Qed.

Lemma parseCsvLoop_field (f : CsvField) (rest : string) (values : list string)
  (current : string) :
  wellFormed f = true ->
  parseCsvLoop (encodeField f ++ rest) values current false
  = parseCsvLoop rest values (current ++ fieldText f) false.
Proof.
  destruct f as [v|v]; cbn [wellFormed encodeField fieldText]; intros Hwf.
  - apply andb_true_iff in Hwf. destruct Hwf as [H1 H2].
    apply negb_true_iff in H1, H2. now apply parseCsvLoop_bare.
  - rewrite !append_assoc. unfold dq at 1. cbn [append parseCsvLoop].
    rewrite Ascii.eqb_refl. cbn [negb]. apply parseCsvLoop_quoted.
Qed.

Lemma parsedValue_fieldText (f : CsvField) : parsedValue f = trim (fieldText f).
Proof. now destruct f. Qed.

Lemma parseCsvLoop_line (fs : list CsvField) (values : list string) :
  fs <> [] -> forallb wellFormed fs = true ->
  parseCsvLoop (encodeLine fs) values EmptyString false
  = values ++ map parsedValue fs.
Proof.
  revert values; induction fs as [|f fs IH]; intros values Hne Hwf; [congruence|].
  cbn [forallb] in Hwf. apply andb_true_iff in Hwf. destruct Hwf as [Hf Hfs].
  destruct fs as [|g fs].
  - cbn [encodeLine map]. rewrite <- (append_nil_r (encodeField f)).
    rewrite parseCsvLoop_field by assumption.
    cbn [parseCsvLoop append]. now rewrite parsedValue_fieldText.
  - change (encodeLine (f :: g :: fs))
      with (encodeField f ++ "," ++ encodeLine (g :: fs))%string.
    rewrite parseCsvLoop_field by assumption.
    cbn [append parseCsvLoop]. cbn [Ascii.eqb Bool.eqb dquote andb negb].
    rewrite IH; [| discriminate | exact Hfs].
    unfold push. rewrite <- app_assoc. cbn [map app append].
    now rewrite (parsedValue_fieldText f).
Qed.

Lemma strip_quotes_id (v : string) : has_char dquote v = false -> strip_quotes v = v.
Proof.
  induction v as [|c v IH]; [reflexivity|]. cbn [has_char strip_quotes].
  intros H. apply orb_false_iff in H. destruct H as [H1 H2].
  rewrite H1. now rewrite IH.
Qed.

Lemma own_get_own_set (V : Type) (h k : string) (v : V) (o : JsObject V) :
  own_get h (own_set k v o) = if String.eqb h k then Some v else own_get h o.
Proof.
  induction o as [|[k' v'] o IH]; cbn [own_set own_get].
  - now destruct (String.eqb h k).
  - destruct (String.eqb_spec k k') as [<- | Hne]; cbn [own_get].
    + now destruct (String.eqb h k).
    + rewrite IH. destruct (String.eqb_spec h k') as [-> | _]; [|reflexivity].
      destruct (String.eqb_spec k' k) as [E | _]; [congruence | reflexivity].
Qed.

Lemma own_get_row_set (row : JsObject string) (h k v : string) :
  h <> k -> own_get h (row_set row k v) = own_get h row.
Proof.
  intros Hne. unfold row_set. destruct (String.eqb k "__proto__"); [reflexivity|].
  rewrite own_get_own_set. now destruct (String.eqb_spec h k).
Qed.

(** Filling the other headers leaves a property as it is. *)
Lemma fillRow_keep (headers : list string) (values : list string) (h : string) :
  ~ In h headers ->
  forall (index : nat) (row : JsObject string),
    own_get h (fillRow headers index values row) = own_get h row.
Proof.
  induction headers as [|k ks IH]; intros Hnin index row; [reflexivity|].
  cbn [fillRow]. rewrite IH by (intros H; apply Hnin; now right).
  apply own_get_row_set. intros ->. apply Hnin. now left.
Qed.

(** A header that occurs once names the value at its own position. *)
Lemma fillRow_get (headers : list string) (values : list string) (h : string) :
  forall (index : nat) (row : JsObject string) (i : nat),
    NoDup headers -> ~ In "__proto__"%string headers ->
    nth_error headers i = Some h ->
    own_get h (fillRow headers index values row) = Some (valueAt values (index + i)).
Proof.
  induction headers as [|header headers IH]; intros index row i Hnd Hproto Hi.
  - destruct i; discriminate.
  - inversion Hnd as [|? ? Hnin Hnd']; subst. cbn [fillRow].
    assert (Hproto' : ~ In "__proto__"%string headers) by (intros H; apply Hproto; now right).
    destruct i as [|i]; cbn [nth_error] in Hi.
    + injection Hi as ->. rewrite Nat.add_0_r.
      rewrite fillRow_keep by assumption.
      unfold row_set. destruct (String.eqb_spec h "__proto__") as [-> | _].
      * exfalso. apply Hproto. now left.
      * now rewrite own_get_own_set, String.eqb_refl.
    + rewrite (IH (S index) _ i Hnd' Hproto' Hi). f_equal. f_equal. lia.
Qed.

(** C4. [parseCsvLine] never splits on a comma between double quotes: a
    line of fields, each bare or quoted, parses into exactly one value per
    field, whatever commas the quoted values hold; a quoted value without
    double quotes comes back whole, up to the trimming applied to every
    field; the row object built from the parsed values holds, under each
    header, the single value of the field at the header's position; the line
    [1,"a,b",3] has the three fields [1], [a,b] and [3]. *)
Theorem parseCsvLine_quoted_delimiter (fs : list CsvField)
  (Hne : fs <> []) (Hwf : forallb wellFormed fs = true) :
  parseCsvLine (encodeLine fs) = map parsedValue fs
  /\ length (parseCsvLine (encodeLine fs)) = length fs
  /\ (forall v, has_char dquote v = false ->
      parseCsvLine (encodeField (Quoted v)) = [trim v])
  /\ (forall headers i h f,
        NoDup headers -> ~ In "__proto__"%string headers ->
        nth_error headers i = Some h -> nth_error fs i = Some f ->
        own_get h (csvRow headers (parseCsvLine (encodeLine fs)))
        = Some (parsedValue f))
  /\ parseCsvLine quotedLine = ["1"; "a,b"; "3"]%string
  /\ rowLabel (csvRow ["timeStamp"; "label"; "elapsed"]%string (parseCsvLine quotedLine))
     = "a,b"%string.
Proof.
  assert (H : parseCsvLine (encodeLine fs) = map parsedValue fs).
  { unfold parseCsvLine. now rewrite parseCsvLoop_line. }
  split; [exact H|]. split; [now rewrite H, length_map|]. split; [|split].
  - intros v Hv. unfold parseCsvLine.
    change (encodeField (Quoted v)) with (encodeLine [Quoted v]).
    rewrite (@parseCsvLoop_line [Quoted v] []) by (discriminate || reflexivity).
    cbn [map app parsedValue]. now rewrite strip_quotes_id.
  - intros headers i h f Hnd Hproto Hh Hf. unfold csvRow.
    rewrite (@fillRow_get headers _ h 0 [] i Hnd Hproto Hh). cbn [Nat.add].
    unfold valueAt. rewrite H, nth_error_map, Hf. reflexivity.
  - split; reflexivity.
Qed.

Lemma parseCsvLine_quoted_delimiter_witness :
  parseCsvLine (encodeLine [Bare "1"; Quoted "a,b"; Bare "3"])
  = ["1"; "a,b"; "3"]%string.
Proof.
  apply (proj1 (@parseCsvLine_quoted_delimiter
                  [Bare "1"; Quoted "a,b"; Bare "3"] ltac:(discriminate) eq_refl)).
Defined.

(** ** Stable sorting *)

Section JsSortOrder.
Context {A : Type}.
Variable compareFn : A -> A -> comparison.
(** The comparator is a total preorder. *)
Hypothesis compare_total : forall x y, compareFn x y = Gt -> compareFn y x <> Gt.
Hypothesis compare_trans :
  forall x y z, compareFn x y <> Gt -> compareFn y z <> Gt -> compareFn x z <> Gt.

Lemma js_insert_hd (x y : A) (l : list A) :
  notAfter compareFn y x -> HdRel (notAfter compareFn) y l ->
  HdRel (notAfter compareFn) y (js_insert compareFn x l).
Proof.
  intros Hyx Hhd. destruct l as [|z l]; cbn [js_insert]; [now constructor|].
  inversion Hhd; subst. destruct (compareFn x z); now constructor.
Qed.

Lemma js_insert_sorted (x : A) (l : list A) :
  Sorted (notAfter compareFn) l -> Sorted (notAfter compareFn) (js_insert compareFn x l).
Proof.
  induction 1 as [|y l Hs IH Hhd]; cbn [js_insert]; [repeat constructor|].
  destruct (compareFn x y) eqn:E.
  - constructor; [now constructor|]. constructor. unfold notAfter. congruence.
  - constructor; [now constructor|]. constructor. unfold notAfter. congruence.
  - constructor; [exact IH|]. apply js_insert_hd; [|assumption].
    now apply compare_total.
Qed.

Lemma js_sort_sorted (l : list A) : Sorted (notAfter compareFn) (js_sort compareFn l).
Proof.
  induction l as [|x l IH]; [constructor|]. now apply js_insert_sorted.
Qed.

(** Sorting a sorted array leaves it as it is. *)
Lemma js_sort_fixed (l : list A) :
  Sorted (notAfter compareFn) l -> js_sort compareFn l = l.
Proof.
  induction 1 as [|x l Hs IH Hhd]; [reflexivity|].
  cbn [js_sort fold_right]. fold (js_sort compareFn l). rewrite IH.
  destruct Hhd as [|y l Hxy]; [reflexivity|]. cbn [js_insert].
  unfold notAfter in Hxy. destruct (compareFn x y); congruence.
Qed.

Lemma js_sort_idempotent (l : list A) :
  js_sort compareFn (js_sort compareFn l) = js_sort compareFn l.
Proof. apply js_sort_fixed, js_sort_sorted. Qed.

(** Stability: elements that never compare as "after" one another keep
    their relative order. *)
Variable tie : A -> bool.
Hypothesis tie_equal :
  forall x y, tie x = true -> tie y = true -> compareFn x y <> Gt.

Lemma js_insert_stable (x : A) (l : list A) :
  filter tie (js_insert compareFn x l) = filter tie (x :: l).
Proof.
  induction l as [|y l IH]; [reflexivity|]. cbn [js_insert].
  destruct (compareFn x y) eqn:E; try reflexivity.
  cbn [filter] in *. rewrite IH.
  destruct (tie x) eqn:Ex, (tie y) eqn:Ey; try reflexivity.
  exfalso. now apply (tie_equal Ex Ey).
Qed.

Lemma js_sort_stable (l : list A) : filter tie (js_sort compareFn l) = filter tie l.
Proof.
  induction l as [|x l IH]; [reflexivity|].
  cbn [js_sort fold_right]. fold (js_sort compareFn l).
  rewrite js_insert_stable. cbn [filter]. now rewrite IH.
Qed.
End JsSortOrder.

Lemma by_average_desc_notAfter (a b : EndpointMetrics) :
  notAfter by_average_desc a b <-> em_average b <= em_average a.
Proof.
  unfold notAfter, by_average_desc. rewrite <- Qle_alt. split; intros H.
  - apply Qle_minus_iff in H. rewrite Qplus_0_l in H.
    apply Qle_minus_iff. setoid_replace (em_average a + - em_average b)
      with (- (em_average b - em_average a)) by ring. exact H.
  - apply Qle_minus_iff. rewrite Qplus_0_l.
    apply Qle_minus_iff in H. setoid_replace (- (em_average b - em_average a))
      with (em_average a + - em_average b) by ring. exact H.
Qed.

Lemma by_average_desc_total (x y : EndpointMetrics) :
  by_average_desc x y = Gt -> by_average_desc y x <> Gt.
Proof.
  intros H. apply by_average_desc_notAfter.
  destruct (Qlt_le_dec (em_average y) (em_average x)) as [Hlt | Hle]; [|exact Hle].
  exfalso. apply Qlt_le_weak in Hlt. apply by_average_desc_notAfter in Hlt.
  now apply Hlt.
Qed.

Lemma by_average_desc_trans (x y z : EndpointMetrics) :
  by_average_desc x y <> Gt -> by_average_desc y z <> Gt -> by_average_desc x z <> Gt.
Proof.
  fold (notAfter by_average_desc x y) (notAfter by_average_desc y z)
       (notAfter by_average_desc x z).
  rewrite !by_average_desc_notAfter. intros H1 H2. eapply Qle_trans; eassumption.
Qed.

(** ** Grouping under string keys *)

Lemma existsb_eqb_In (x : string) (s : list string) :
  existsb (String.eqb x) s = true <-> In x s.
Proof.
  rewrite existsb_exists. split.
  - intros (y & Hy & E). apply String.eqb_eq in E. now subst.
  - intros H. exists x. split; [assumption | apply String.eqb_refl].
Qed.

Lemma Set_of_snoc (xs : list string) (x : string) :
  Set_of (xs ++ [x]) = Set_add (Set_of xs) x.
Proof. unfold Set_of. now rewrite fold_left_app. Qed.

Lemma Set_add_In (s : list string) (x y : string) :
  In y (Set_add s x) <-> In y s \/ y = x.
Proof.
  unfold Set_add. destruct (existsb (String.eqb x) s) eqn:E.
  - apply existsb_eqb_In in E. split; [tauto | intros [H | ->]; assumption].
  - rewrite in_app_iff. cbn. intuition congruence.
Qed.

Lemma Set_of_In (xs : list string) (y : string) : In y (Set_of xs) <-> In y xs.
Proof.
  induction xs as [|x xs IH] using rev_ind; [reflexivity|].
  rewrite Set_of_snoc, Set_add_In, in_app_iff, IH. cbn. intuition congruence.
Qed.

Lemma Set_of_NoDup (xs : list string) : NoDup (Set_of xs).
Proof.
  induction xs as [|x xs IH] using rev_ind; [constructor|].
  rewrite Set_of_snoc. unfold Set_add.
  destruct (existsb (String.eqb x) (Set_of xs)) eqn:E; [assumption|].
  apply NoDup_app; [assumption | repeat constructor; intros [] |].
  intros y Hy [<- | []]. apply existsb_eqb_In in Hy. congruence.
Qed.

Lemma filter_none (A : Type) (p : A -> bool) (l : list A) :
  (forall x, In x l -> p x = false) -> filter p l = [].
Proof.
  induction l as [|x l IH]; intros H; [reflexivity|]. cbn [filter].
  rewrite (H x) by now left. apply IH. intros y Hy. apply H. now right.
Qed.

Section Groups.
Context {T : Type}.
Variable f : string -> list T.

Lemma own_get_groups (k : string) (keys : list string) :
  (In k keys -> own_get k (map (fun l => (l, f l)) keys) = Some (f k))
  /\ (~ In k keys -> own_get k (map (fun l => (l, f l)) keys) = None).
Proof.
  induction keys as [|l keys [IH1 IH2]]; cbn [map own_get In]; [tauto|].
  destruct (String.eqb_spec k l) as [-> | Hne]; split.
  - reflexivity.
  - tauto.
  - intros [E | H]; [congruence | now apply IH1].
  - intros H. apply IH2. tauto.
Qed.

Lemma own_push_groups (k : string) (item : T) (keys : list string) :
  NoDup keys ->
  own_push k item (map (fun l => (l, f l)) keys)
  = map (fun l => (l, f l ++ (if String.eqb k l then [item] else []))) keys.
Proof.
  induction 1 as [|l keys Hnin Hnd IH]; [reflexivity|]. cbn [map own_push].
  destruct (String.eqb_spec k l) as [-> | Hne].
  - f_equal. apply map_ext_in. intros l' Hl'.
    destruct (String.eqb_spec l l') as [-> | _]; [contradiction|].
    now rewrite app_nil_r.
  - rewrite IH. now rewrite app_nil_r.
Qed.
End Groups.

(** Without a key inherited from [Object.prototype], [groupBy] builds one
    group per distinct key, in order of first encounter. *)
Lemma groupBy_spec (T : Type) (key : T -> string) (array : list T) :
  (forall item, In item array -> inherited (key item) = false) ->
  groupBy array key = Some (spec_groups key array).
Proof.
  induction array as [|r pre IH] using rev_ind; intros Hin; [reflexivity|].
  unfold groupBy in *. rewrite fold_left_app. cbn [fold_left].
  rewrite IH by (intros item Hitem; apply Hin, in_or_app; now left). cbn [bind].
  assert (Hr : inherited (key r) = false) by (apply Hin, in_or_app; right; now left).
  unfold group_push, spec_groups.
  rewrite map_app. cbn [map]. rewrite Set_of_snoc. unfold Set_add.
  pose proof (own_get_groups
                (fun k => filter (fun item => String.eqb (key item) k) pre)
                (key r) (Set_of (map key pre))) as [Hget1 Hget2].
  destruct (existsb (String.eqb (key r)) (Set_of (map key pre))) eqn:E.
  - apply existsb_eqb_In in E. rewrite (Hget1 E).
    rewrite own_push_groups by apply Set_of_NoDup.
    f_equal. apply map_ext. intros k. rewrite filter_app. reflexivity.
  - assert (Hnin : ~ In (key r) (Set_of (map key pre))).
    { intros H. apply existsb_eqb_In in H. congruence. }
    rewrite (Hget2 Hnin), Hr. f_equal. rewrite map_app. cbn [map]. f_equal.
    + apply map_ext_in. intros k Hk. rewrite filter_app. cbn [filter].
      destruct (String.eqb_spec (key r) k) as [Heq | _].
      * exfalso. apply Hnin. now rewrite Heq.
      * now rewrite app_nil_r.
    + rewrite filter_app. cbn [filter]. rewrite String.eqb_refl.
      rewrite filter_none; [reflexivity|].
      intros item Hitem. apply String.eqb_neq. intros Heq. apply Hnin.
      apply Set_of_In. rewrite <- Heq. now apply in_map.
Qed.

Lemma Object_entries_plain (V : Type) (o : JsObject V) :
  (forall kv, In kv o -> is_index (fst kv) = false) -> Object_entries o = o.
Proof.
  intros H. unfold Object_entries.
  assert (E1 : index_entries o = []).
  { unfold index_entries. induction o as [|kv o IH]; [reflexivity|]. cbn [flat_map].
    pose proof (H kv (or_introl eq_refl)) as Hkv. unfold is_index in Hkv.
    destruct (array_index (fst kv)); [discriminate|].
    apply IH. intros kv' Hkv'. apply H. now right. }
  rewrite E1. cbn [js_sort fold_right map app].
  induction o as [|kv o IH]; [reflexivity|]. cbn [filter].
  rewrite (H kv) by now left. cbn [negb]. f_equal.
  apply IH.
  - intros kv' Hkv'. apply H. now right.
  - unfold index_entries in *. cbn [flat_map] in E1.
    now apply app_eq_nil in E1.
Qed.

Lemma mapM_total (A B : Type) (f : A -> option B) (l : list A) :
  (forall a, In a l -> exists b, f a = Some b) ->
  exists bs, mapM f l = Some bs /\ Forall2 (fun a b => f a = Some b) l bs.
Proof.
  induction l as [|a l IH]; intros H.
  - exists []. split; [reflexivity | constructor].
  - destruct (H a (or_introl eq_refl)) as (b & Hb).
    destruct IH as (bs & Hbs & Hall); [intros a' Ha'; apply H; now right|].
    exists (b :: bs). cbn [mapM]. rewrite Hb, Hbs. split; [reflexivity|].
    now constructor.
Qed.

Lemma endpointMetricsOf_defined {engine : Engine} (l : string) (rs : list JTLResult) :
  rs <> [] -> spreadable rs ->
  exists m, endpointMetricsOf l rs = Some m /\ em_label m = l
            /\ em_average m = average (js_sort ascending (map elapsed rs))
            /\ em_samples m = len rs.
Proof.
  intros Hne Hfit.
  destruct (totalTime_spec Hne Hfit) as (hi & lo & _ & _ & Htt & _).
  destruct (responseTimes_defined Hne Hfit) as (median & mn & mx & p90 & p95 & p99 & H).
  destruct H as (H50 & Hmn & Hmx & H90 & H95 & H99).
  unfold endpointMetricsOf. rewrite Htt. cbn [bind].
  rewrite H50, Hmn, Hmx, H90, H95, H99. cbn [bind].
  eexists. split; [reflexivity|]. repeat split.
Qed.

(** A group that cannot be spread makes the loop body throw. *)
Lemma endpointMetricsOf_throws {engine : Engine} (l : string) (rs : list JTLResult) :
  ~ spreadable rs -> endpointMetricsOf l rs = None.
Proof. intros H. unfold endpointMetricsOf. now rewrite (totalTime_throws H). Qed.

(** Of no sample the span is no number. *)
Lemma endpointMetricsOf_nil {engine : Engine} (l : string) :
  endpointMetricsOf l [] = None.
Proof.
  unfold endpointMetricsOf, totalTime, spread. cbn [map length].
  now destruct (Z.of_nat 0 <=? maxArguments)%Z.
Qed.

Lemma Sorted_weaken (A : Type) (R1 R2 : A -> A -> Prop) (l : list A) :
  (forall a b, R1 a b -> R2 a b) -> Sorted R1 l -> Sorted R2 l.
Proof.
  intros H. induction 1 as [|a l Hs IH Hhd]; constructor; [assumption|].
  destruct Hhd; constructor. now apply H.
Qed.

(** The order of the result, whenever there is one. *)
Lemma calculateEndpointMetrics_sorted {engine : Engine} (results : list JTLResult)
  (out : list EndpointMetrics) :
  calculateEndpointMetrics results = Some out ->
  Sorted (fun a b => em_average b <= em_average a) out
  /\ js_sort by_average_desc out = out.
Proof.
  unfold calculateEndpointMetrics. intros H.
  destruct (groupBy results label) as [groups|]; [|discriminate]. cbn [bind] in H.
  destruct (mapM _ (Object_entries groups)) as [metrics|]; [|discriminate].
  cbn [bind] in H. injection H as <-. split.
  - eapply Sorted_weaken; [|apply js_sort_sorted].
    + intros a b. apply by_average_desc_notAfter.
    + exact by_average_desc_total.
  - apply js_sort_idempotent. exact by_average_desc_total.
Qed.

(** C9, as amended.  For samples that can be spread into the arguments of
    one call and whose labels are neither array-index strings nor names of
    [Object.prototype] properties, [calculateEndpointMetrics] returns the per-label metrics, one per
    distinct label, sorted in descending order of average response time
    with ties kept in the order in which the labels were first encountered;
    sorting the result again by the same key gives the identical order.
    Whenever the function returns, its result is sorted in that way and is
    a fixed point of the sort. *)
Theorem calculateEndpointMetrics_order {engine : Engine} (results : list JTLResult)
  (Hfit : spreadable results)
  (Hproto : forall r, In r results -> inherited (label r) = false)
  (Hindex : forall r, In r results -> is_index (label r) = false) :
  (exists metrics out,
     mapM (fun entry => endpointMetricsOf (fst entry) (snd entry))
          (spec_groups label results) = Some metrics
     /\ map em_label metrics = Set_of (map label results)
     /\ calculateEndpointMetrics results = Some out
     /\ Permutation out metrics
     /\ Sorted (fun a b => em_average b <= em_average a) out
     /\ (forall q, filter (fun e => Qeq_bool (em_average e) q) out
                   = filter (fun e => Qeq_bool (em_average e) q) metrics)
     /\ js_sort by_average_desc out = out)
  /\ (forall rs out, calculateEndpointMetrics rs = Some out ->
      Sorted (fun a b => em_average b <= em_average a) out
      /\ js_sort by_average_desc out = out).
Proof.
  split; [|exact calculateEndpointMetrics_sorted].
  pose proof (groupBy_spec label results Hproto) as Hgroups.
  assert (Hentries : Object_entries (spec_groups label results)
                     = spec_groups label results).
  { apply Object_entries_plain. intros kv Hkv. unfold spec_groups in Hkv.
    apply in_map_iff in Hkv. destruct Hkv as (k & <- & Hk). cbn [fst].
    apply Set_of_In, in_map_iff in Hk. destruct Hk as (r & <- & Hr).
    now apply Hindex. }
  destruct (@mapM_total _ _ (fun entry => endpointMetricsOf (fst entry) (snd entry))
              (spec_groups label results)) as (metrics & Hmetrics & Hall).
  { intros kv Hkv. unfold spec_groups in Hkv.
    apply in_map_iff in Hkv. destruct Hkv as (k & <- & Hk). cbn [fst snd].
    apply Set_of_In, in_map_iff in Hk. destruct Hk as (r & Hlabel & Hr).
    destruct (@endpointMetricsOf_defined engine k
                (filter (fun item => String.eqb (label item) k) results))
      as (m & Hm & _); [|now apply spreadable_filter|now exists m].
    intros Hnil. assert (Hin : In r (filter (fun item => String.eqb (label item) k) results)).
    { apply filter_In. split; [assumption | now apply String.eqb_eq]. }
    rewrite Hnil in Hin. destruct Hin. }
  assert (Hout : calculateEndpointMetrics results
                 = Some (js_sort by_average_desc metrics)).
  { unfold calculateEndpointMetrics. rewrite Hgroups. cbn [bind].
    rewrite Hentries, Hmetrics. reflexivity. }
  exists metrics, (js_sort by_average_desc metrics).
  split; [exact Hmetrics|]. split.
  { unfold spec_groups in Hall. clear - Hall Hfit.
    induction (Set_of (map label results)) as [|k keys IH] in metrics, Hall |- *.
    - inversion Hall. reflexivity.
    - cbn [map] in Hall. inversion Hall as [|? m ? ms Hm Hms]; subst.
      cbn [map fst snd] in *.
      destruct (endpointMetricsOf_defined k
                  (rs := filter (fun item => String.eqb (label item) k) results))
        as (m' & Hm' & Hl & _).
      + intros Hnil. rewrite Hnil, endpointMetricsOf_nil in Hm. discriminate Hm.
      + now apply spreadable_filter.
      + rewrite Hm in Hm'. injection Hm' as ->. rewrite Hl. f_equal. now apply IH. }
  split; [exact Hout|]. split; [apply js_sort_perm|].
  destruct (calculateEndpointMetrics_sorted _ Hout) as [Hsorted Hfix].
  split; [exact Hsorted|]. split; [|exact Hfix].
  intros q. apply js_sort_stable. intros x y Hx Hy.
  apply Qeq_bool_iff in Hx, Hy. apply by_average_desc_notAfter.
  rewrite Hx, Hy. apply Qle_refl.
Qed.

Lemma calculateEndpointMetrics_order_witness :
  exists metrics out,
    mapM (fun entry => endpointMetricsOf (engine := exampleEngine) (fst entry) (snd entry))
         (spec_groups label tiedLabels) = Some metrics
    /\ map em_label metrics = Set_of (map label tiedLabels)
    /\ calculateEndpointMetrics (engine := exampleEngine) tiedLabels = Some out
    /\ Permutation out metrics
    /\ Sorted (fun a b => em_average b <= em_average a) out
    /\ (forall q, filter (fun e => Qeq_bool (em_average e) q) out
                  = filter (fun e => Qeq_bool (em_average e) q) metrics)
    /\ js_sort by_average_desc out = out.
Proof.
  refine (proj1 (@calculateEndpointMetrics_order exampleEngine tiedLabels _ _ _)).
  - unfold spreadable. cbn. lia.
  - intros r [<- | [<- | []]]; reflexivity.
  - intros r [<- | [<- | []]]; reflexivity.
Defined.

(** C9, as stated, fails when labels are array indices: the samples
    labelled "2" and "1", met in this order, have the same average, and the
    result lists "1" before "2". *)
Lemma calculateEndpointMetrics_tie_counterexample :
  (exists a b,
     calculateEndpointMetrics (engine := exampleEngine) tiedIndexLabels = Some [a; b]
     /\ em_average a == em_average b
     /\ map em_label [a; b] = ["1"; "2"]%string)
  /\ Set_of (map label tiedIndexLabels) = ["2"; "1"]%string
  /\ ~ (exists out,
          calculateEndpointMetrics (engine := exampleEngine) tiedIndexLabels = Some out
          /\ map em_label out = Set_of (map label tiedIndexLabels)).
Proof.
  split; [|split].
  - eexists _, _. split; [vm_compute; reflexivity|]. split; reflexivity.
  - reflexivity.
  - intros (out & Hout & Hlabels). vm_compute in Hout. injection Hout as <-.
    discriminate Hlabels.
Qed.

(** A label that names a property of [Object.prototype] makes [groupBy]
    fail: the inherited value is truthy and has no [push]. *)
Lemma calculateEndpointMetrics_inherited_label {engine : Engine} :
  calculateEndpointMetrics inheritedLabel = None.
Proof. reflexivity. Qed.

(** ** Error analyzer *)

Lemma has_char_append (c : ascii) (s t : string) :
  has_char c (s ++ t) = has_char c s || has_char c t.
Proof.
  induction s as [|c' s IH]; [reflexivity|]. cbn [append has_char].
  now rewrite IH, orb_assoc.
Qed.

Lemma errorKey_has_dash (r : JTLResult) : has_char "-" (errorKey r) = true.
Proof.
  unfold errorKey. rewrite has_char_append. cbn [append has_char Ascii.eqb Bool.eqb].
  cbn. apply orb_true_r.
Qed.

Lemma inherited_no_dash (k : string) : inherited k = true -> has_char "-" k = false.
Proof.
  unfold inherited. rewrite existsb_eqb_In. unfold Object_prototype_keys.
  cbn [In]. intros H.
  repeat (destruct H as [<- | H]; [reflexivity|]). destruct H.
Qed.

Lemma digits_value_no_dash (s : string) (acc v : N) :
  digits_value s acc = Some v -> has_char "-" s = false.
Proof.
  revert acc; induction s as [|c s IH]; intros acc H; [reflexivity|].
  cbn [digits_value] in H. cbn [has_char].
  destruct (digit_of c) as [d|] eqn:Ed; [|discriminate]. cbn [bind] in H.
  rewrite (IH _ H), orb_false_r.
  destruct (Ascii.eqb_spec c "-") as [-> | _]; [discriminate Ed | reflexivity].
Qed.

Lemma is_index_no_dash (k : string) : is_index k = true -> has_char "-" k = false.
Proof.
  unfold is_index, array_index. destruct k as [|c s]; [discriminate|].
  destruct (Ascii.eqb c "0" && negb (String.eqb s "")); [discriminate|].
  destruct (digits_value (String c s) 0) as [v|] eqn:E; [|discriminate].
  intros _. eapply digits_value_no_dash; eassumption.
Qed.

Lemma errorKey_plain (r : JTLResult) :
  inherited (errorKey r) = false /\ is_index (errorKey r) = false.
Proof.
  pose proof (errorKey_has_dash r) as H. split.
  - destruct (inherited (errorKey r)) eqn:E; [|reflexivity].
    apply inherited_no_dash in E. congruence.
  - destruct (is_index (errorKey r)) eqn:E; [|reflexivity].
    apply is_index_no_dash in E. congruence.
Qed.

(** The key separates code and message as long as no code holds a dash. *)
Lemma dash_join_injective (c1 c2 m1 m2 : string) :
  has_char "-" c1 = false -> has_char "-" c2 = false ->
  (c1 ++ "-" ++ m1)%string = (c2 ++ "-" ++ m2)%string -> c1 = c2 /\ m1 = m2.
Proof.
  revert c2; induction c1 as [|a c1 IH]; intros [|b c2] H1 H2 E; cbn in E.
  - injection E as ->. now split.
  - injection E as <- _. cbn in H2. discriminate.
  - injection E as -> _. cbn in H1. discriminate.
  - injection E as -> E. cbn [has_char] in H1, H2.
    apply orb_false_iff in H1, H2.
    destruct (IH c2) as [-> ->]; tauto.
Qed.

(** The groups of [analyzeErrors] are always built, one per distinct key. *)
Lemma errorGroups_spec (failedResults : list JTLResult) :
  errorGroups failedResults = Some (spec_groups errorKey failedResults).
Proof.
  apply (groupBy_spec errorKey failedResults). intros r _. apply errorKey_plain.
Qed.

Lemma spec_groups_member (T : Type) (key : T -> string) (array : list T)
  (k : string) (g : list T) (item : T) :
  In (k, g) (spec_groups key array) ->
  (In item g <-> In item array /\ key item = k).
Proof.
  unfold spec_groups. intros H. apply in_map_iff in H.
  destruct H as (k' & E & _). injection E as -> <-.
  rewrite filter_In, String.eqb_eq. tauto.
Qed.

(** X11. Failures share a cluster exactly when their keys agree; failures
    with the same code and message always do, and with codes that hold no
    dash only those do. *)
Lemma errorGroups_sameCluster (results : list JTLResult) (r1 r2 : JTLResult) :
  let failedResults := filter (fun r => negb (success r)) results in
  In r1 failedResults -> In r2 failedResults ->
  exists groups,
    errorGroups failedResults = Some groups
    /\ (sameCluster groups r1 r2 <-> errorKey r1 = errorKey r2)
    /\ (responseCode r1 = responseCode r2 /\ responseMessage r1 = responseMessage r2 ->
        sameCluster groups r1 r2)
    /\ (has_char "-" (responseCode r1) = false ->
        has_char "-" (responseCode r2) = false ->
        sameCluster groups r1 r2 ->
        responseCode r1 = responseCode r2 /\ responseMessage r1 = responseMessage r2).
Proof.
  intros failedResults Hr1 Hr2. exists (spec_groups errorKey failedResults).
  split; [apply errorGroups_spec|].
  assert (Hiff : sameCluster (spec_groups errorKey failedResults) r1 r2
                 <-> errorKey r1 = errorKey r2).
  { split.
    - intros (k & g & Hg & H1 & H2).
      apply (spec_groups_member _ _ _ _ r1 Hg) in H1.
      apply (spec_groups_member _ _ _ _ r2 Hg) in H2.
      destruct H1 as [_ ->], H2 as [_ <-]. reflexivity.
    - intros E. exists (errorKey r1),
        (filter (fun item => String.eqb (errorKey item) (errorKey r1)) failedResults).
      split; [|split].
      + unfold spec_groups. apply in_map_iff. exists (errorKey r1).
        split; [reflexivity|]. apply Set_of_In. now apply in_map.
      + apply filter_In. split; [assumption | apply String.eqb_refl].
      + apply filter_In. split; [assumption | now apply String.eqb_eq]. }
  split; [exact Hiff|]. split.
  - intros [Ec Em]. apply Hiff. unfold errorKey. now rewrite Ec, Em.
  - intros H1 H2 Hs. apply Hiff in Hs. unfold errorKey in Hs.
    now apply dash_join_injective in Hs.
Qed.

(** [analyzeErrors] always returns. *)
Lemma analyzeErrors_total (results : list JTLResult) :
  exists clusters, analyzeErrors results = Some clusters.
Proof.
  unfold analyzeErrors.
  destruct (filter (fun r => negb (success r)) results) as [|f fs] eqn:Ef; [now eexists|].
  rewrite errorGroups_spec. cbn [bind].
  rewrite Object_entries_plain.
  - destruct (@mapM_total _ _ (fun entry => errorCluster results (snd entry))
                (spec_groups errorKey (f :: fs))) as (clusters & Hc & _).
    + intros kv Hkv. unfold spec_groups in Hkv. apply in_map_iff in Hkv.
      destruct Hkv as (k & <- & Hk). cbn [snd].
      apply Set_of_In, in_map_iff in Hk. destruct Hk as (r & Hkey & Hr).
      destruct (filter (fun item => String.eqb (errorKey item) k) (f :: fs))
        as [|e0 es] eqn:Eg.
      * exfalso. assert (Hin : In r []); [|destruct Hin].
        rewrite <- Eg. apply filter_In. split; [assumption | now apply String.eqb_eq].
      * eexists. reflexivity.
    + rewrite Hc. now eexists.
  - intros kv Hkv. unfold spec_groups in Hkv. apply in_map_iff in Hkv.
    destruct Hkv as (k & <- & Hk). cbn [fst].
    apply Set_of_In, in_map_iff in Hk. destruct Hk as (r & <- & _).
    apply errorKey_plain.
Qed.

(** Two failures with code 404 and one message on the endpoints A and B
    form one cluster of count 2 that names both endpoints. *)
Lemma analyzeErrors_same_error :
  exists c, analyzeErrors sameError = Some [c]
            /\ ea_responseCode c = "404"%string
            /\ ea_count c == 2
            /\ ea_affectedEndpoints c = ["A"; "B"]%string.
Proof. eexists. split; [vm_compute; reflexivity|]. repeat split. Qed.

(** C3 fails on the code.  The failures with (code, message) =
    ("500", "1-x") and ("500-1", "x") differ in both components, yet their
    keys are the same string "500-1-x": [analyzeErrors] merges them into one
    cluster of count 2, reported under code "500" and message "1-x". *)
Theorem analyzeErrors_key_collision :
  (responseCode failure1 <> responseCode failure2
   /\ responseMessage failure1 <> responseMessage failure2)
  /\ errorKey failure1 = errorKey failure2
  /\ (exists groups, errorGroups collidingFailures = Some groups
                     /\ sameCluster groups failure1 failure2)
  /\ (exists c, analyzeErrors collidingFailures = Some [c]
                /\ ea_responseCode c = "500"%string
                /\ ea_responseMessage c = "1-x"%string
                /\ ea_count c == 2
                /\ ea_affectedEndpoints c = ["A"; "B"]%string).
Proof.
  split; [split; discriminate|]. split; [reflexivity|]. split.
  - eexists. split; [vm_compute; reflexivity|].
    eexists _, _. split; [left; reflexivity|]. split; [left | right; left]; reflexivity.
  - eexists. split; [vm_compute; reflexivity|]. repeat split.
Qed.

(** * Further properties of the analyzer *)

(** ** Statistics *)





Lemma len_pos (A : Type) (l : list A) : l <> [] -> 0 < len l.
Proof.
  intros H. unfold len. change 0 with (inject_Z 0). rewrite <- Zlt_Qlt.
  destruct l; [congruence | cbn [length]; lia].
Qed.





Lemma sorted_nth_error_mono (l : list Z) (i j : nat) (a b : Z) :
  Sorted Z.le l -> (i <= j)%nat ->
  nth_error l i = Some a -> nth_error l j = Some b -> (a <= b)%Z.
Proof.
  intros Hs. apply Sorted_StronglySorted in Hs; [|exact Z.le_trans].
  revert i j. induction Hs as [|x l Hs IH Hall]; intros i j Hij Hi Hj.
  - destruct i; discriminate.
  - destruct i as [|i], j as [|j]; cbn [nth_error] in *.
    + injection Hi as <-. injection Hj as <-. lia.
    + injection Hi as <-. apply nth_error_In in Hj.
      rewrite Forall_forall in Hall. now apply Hall.
    + lia.
    + apply (IH i j); [lia | assumption | assumption].
Qed.

(** Percentiles of a sorted list grow with the rank. *)
Lemma percentile_mono (xs : list Z) (p q : Q) :
  (Z.of_nat (length xs) <= 2 ^ 53)%Z ->
  Sorted Z.le xs -> p <= q -> q <= 100 ->
  exists a b, percentile xs p = Some a /\ percentile xs q = Some b /\ (a <= b)%Z.
Proof.
  intros Hlen Hs Hpq Hq.
  assert (Hp : p <= 100) by (eapply Qle_trans; eassumption).
  destruct (@percentile_defined xs p Hlen Hp) as (a & Ha & _).
  destruct (@percentile_defined xs q Hlen Hq) as (b & Hb & _).
  exists a, b. split; [exact Ha|]. split; [exact Hb|].
  destruct xs as [|x xs'].
  { cbn in Ha, Hb. injection Ha as <-. injection Hb as <-. lia. }
  unfold percentile in Ha, Hb.
  eapply sorted_nth_error_mono; [exact Hs | | exact Ha | exact Hb].
  pose proof (percentile_index_mono (length (x :: xs')) Hpq). lia.
Qed.

(** X2. On a sorted array (a list of fewer than 2^32 elements),
    percentiles up to the 100th are defined and monotone in the rank:
    [p <= q <= 100] gives [percentile xs p <= percentile xs q]. *)
Theorem percentile_monotone (xs : list Z) (p q : Q)
  (Hlen : (Z.of_nat (length xs) < 2 ^ 32)%Z)
  (Hsorted : Sorted Z.le xs) (Hpq : p <= q) (Hq : q <= 100) :
  exists a b, percentile xs p = Some a /\ percentile xs q = Some b /\ (a <= b)%Z.
Proof. apply percentile_mono; [lia | assumption..]. Qed.

Lemma percentile_monotone_witness :
  exists a b, percentile [10; 20; 30; 40]%Z 50 = Some a
              /\ percentile [10; 20; 30; 40]%Z 90 = Some b /\ (a <= b)%Z.
Proof.
  apply (@percentile_monotone [10; 20; 30; 40]%Z 50 90).
  - reflexivity.
  - repeat constructor; lia.
  - discriminate.
  - discriminate.
Defined.

(** ** Lists up to order *)

Lemma filter_perm (A : Type) (f : A -> bool) (l l' : list A) :
  Permutation l l' -> Permutation (filter f l) (filter f l').
Proof.
  induction 1 as [| x l l' _ IH | x y l | l l' l'' _ IH1 _ IH2]; cbn [filter].
  - constructor.
  - destruct (f x); [now constructor | assumption].
  - destruct (f x), (f y); try reflexivity. apply perm_swap.
  - etransitivity; eassumption.
Qed.

Lemma filter_split_perm (A : Type) (f : A -> bool) (l : list A) :
  Permutation (filter f l ++ filter (fun x => negb (f x)) l) l.
Proof.
  induction l as [|x l IH]; [constructor|]. cbn [filter].
  destruct (f x); cbn [negb app].
  - now constructor.
  - rewrite <- Permutation_middle. now constructor.
Qed.


Lemma len_perm (A : Type) (l l' : list A) : Permutation l l' -> len l = len l'.
Proof. intros H. unfold len. now rewrite (Permutation_length H). Qed.


Lemma ascending_notAfter (a b : Z) : notAfter ascending a b <-> (a <= b)%Z.
Proof.
  unfold notAfter, ascending. destruct (Z.compare_spec (a - b) 0); split; intros;
    try lia; try congruence; discriminate.
Qed.


Lemma ascending_trans (x y z : Z) :
  ascending x y <> Gt -> ascending y z <> Gt -> ascending x z <> Gt.
Proof.
  fold (notAfter ascending x y) (notAfter ascending y z) (notAfter ascending x z).
  rewrite !ascending_notAfter. lia.
Qed.








(** ** Aggregator: invariants of the summary *)










(** ** Aggregator: grouping by label *)

Lemma index_entries_filter (V : Type) (o : JsObject V) :
  map snd (index_entries o) = filter (fun kv => is_index (fst kv)) o.
Proof.
  unfold index_entries, is_index. induction o as [|kv o IH]; [reflexivity|].
  cbn [flat_map filter]. destruct (array_index (fst kv)); cbn [app map snd]; now rewrite IH.
Qed.

(** [Object.entries] lists every own property once. *)
Lemma Object_entries_perm (V : Type) (o : JsObject V) :
  Permutation (Object_entries o) o.
Proof.
  unfold Object_entries.
  rewrite (Permutation_map snd (js_sort_perm _ (index_entries o))).
  rewrite index_entries_filter.
  apply (filter_split_perm (fun kv => is_index (fst kv))).
Qed.

Lemma spec_groups_keys (T : Type) (key : T -> string) (array : list T) (k : string)
  (g : list T) :
  In (k, g) (spec_groups key array) ->
  g = filter (fun item => String.eqb (key item) k) array
  /\ In k (map key array) /\ g <> [].
Proof.
  unfold spec_groups. intros H. apply in_map_iff in H.
  destruct H as (k' & [= -> <-] & Hk). apply (proj1 (Set_of_In _ _)) in Hk.
  split; [reflexivity|]. split; [exact Hk|].
  apply in_map_iff in Hk. destruct Hk as (x & Hx & Hin). intros E.
  assert (H : In x (filter (fun item => String.eqb (key item) k) array)).
  { apply filter_In. split; [assumption | now apply String.eqb_eq]. }
  rewrite E in H. destruct H.
Qed.

(** [groupBy] fails exactly when some key names a property of
    [Object.prototype]; otherwise it builds the groups in order of first
    encounter. *)
Lemma groupBy_result (T : Type) (key : T -> string) (array : list T) :
  groupBy array key
  = if existsb (fun item => inherited (key item)) array then None
    else Some (spec_groups key array).
Proof.
  induction array as [|r pre IH] using rev_ind; [reflexivity|].
  rewrite existsb_app. cbn [existsb]. rewrite orb_false_r.
  destruct (existsb (fun item => inherited (key item)) pre) eqn:Epre.
  - unfold groupBy in *. rewrite fold_left_app, IH. reflexivity.
  - destruct (inherited (key r)) eqn:Er; cbn [orb].
    + unfold groupBy in *. rewrite fold_left_app, IH. cbn [fold_left bind].
      unfold group_push.
      destruct (own_get_groups
                  (fun k => filter (fun item => String.eqb (key item) k) pre)
                  (key r) (Set_of (map key pre))) as [_ Hnone].
      unfold spec_groups. rewrite Hnone, Er; [reflexivity|].
      intros Hin. apply (proj1 (Set_of_In _ _)) in Hin. apply in_map_iff in Hin.
      destruct Hin as (x & Hx & Hin).
      assert (Hf : inherited (key x) = false).
      { destruct (inherited (key x)) eqn:E; [|reflexivity].
        assert (existsb (fun item => inherited (key item)) pre = true)
          by (apply existsb_exists; now exists x).
        congruence. }
      congruence.
    + apply groupBy_spec. intros item Hitem. apply in_app_or in Hitem.
      destruct Hitem as [Hitem | [<- | []]]; [|exact Er].
      destruct (inherited (key item)) eqn:E; [|reflexivity].
      assert (existsb (fun x => inherited (key x)) pre = true)
        by (apply existsb_exists; now exists item).
      congruence.
Qed.

Lemma flat_map_app_perm (A B : Type) (g f : A -> list B) (l : list A) :
  Permutation (flat_map (fun k => g k ++ f k) l) (flat_map g l ++ flat_map f l).
Proof.
  induction l as [|k l IH]; [constructor|]. cbn [flat_map]. rewrite IH.
  rewrite <- !app_assoc. apply Permutation_app_head. apply Permutation_app_swap_app.
Qed.

Lemma flat_map_indicator (B : Type) (k0 : string) (a : B) (keys : list string) :
  NoDup keys -> In k0 keys ->
  flat_map (fun k => if String.eqb k0 k then [a] else []) keys = [a].
Proof.
  induction 1 as [|k keys Hnin Hnd IH]; intros Hin; [destruct Hin|].
  cbn [flat_map]. destruct (String.eqb_spec k0 k) as [-> | Hne].
  - cbn [app]. f_equal. clear IH Hin. induction keys as [|k' keys IHk]; [reflexivity|].
    cbn [flat_map]. destruct (String.eqb_spec k k') as [-> | _].
    + exfalso. apply Hnin. now left.
    + apply IHk.
      * intros H. apply Hnin. now right.
      * now inversion Hnd.
  - destruct Hin as [-> | Hin]; [congruence|]. now apply IH.
Qed.

(** The groups hold every item exactly once. *)
Lemma groups_partition (T : Type) (key : T -> string) (keys : list string) (l : list T) :
  NoDup keys -> (forall x, In x l -> In (key x) keys) ->
  Permutation (flat_map (fun k => filter (fun item => String.eqb (key item) k) l) keys) l.
Proof.
  intros Hnd. induction l as [|a l IH]; intros Hkeys.
  - cbn [filter]. clear. induction keys as [|k keys IHk]; [constructor|].
    cbn [flat_map app]. exact IHk.
  - cbn [filter].
    assert (E : forall k,
               (if String.eqb (key a) k
                then a :: filter (fun item => String.eqb (key item) k) l
                else filter (fun item => String.eqb (key item) k) l)
               = (if String.eqb (key a) k then [a] else [])
                 ++ filter (fun item => String.eqb (key item) k) l).
    { intros k. now destruct (String.eqb (key a) k). }
    rewrite (flat_map_ext _ _ E), flat_map_app_perm.
    rewrite flat_map_indicator; [|assumption | apply Hkeys; now left].
    cbn [app]. constructor. apply IH. intros x Hx. apply Hkeys. now right.
Qed.

Lemma spec_groups_partition (T : Type) (key : T -> string) (l : list T) :
  Permutation (concat (map snd (spec_groups key l))) l.
Proof.
  unfold spec_groups. rewrite map_map. cbn [snd]. rewrite <- flat_map_concat_map.
  apply groups_partition; [apply Set_of_NoDup|].
  intros x Hx. apply Set_of_In. now apply in_map.
Qed.

Lemma Forall2_mapM (A B : Type) (f : A -> option B) (l : list A) (bs : list B) :
  mapM f l = Some bs -> Forall2 (fun a b => f a = Some b) l bs.
Proof.
  revert bs; induction l as [|a l IH]; intros bs H; cbn [mapM] in H.
  - injection H as <-. constructor.
  - destruct (f a) as [b|] eqn:Ea; [|discriminate]. cbn [bind] in H.
    destruct (mapM f l) as [bs'|]; [|discriminate]. cbn [bind] in H.
    injection H as <-. constructor; [exact Ea | now apply IH].
Qed.

(** The figures of an endpoint are the summary figures of its samples. *)
Lemma endpointMetricsOf_summary {engine : Engine} (l : string) (rs : list JTLResult) (e : EndpointMetrics) :
  endpointMetricsOf l rs = Some e ->
  rs <> [] /\ em_label e = l
  /\ exists m,
       calculateMetrics rs = Some m
       /\ em_samples e = totalRequests m
       /\ em_average e = averageResponseTime m
       /\ em_median e = medianResponseTime m
       /\ em_min e = minResponseTime m
       /\ em_max e = maxResponseTime m
       /\ em_percentile90 e = percentile90 m
       /\ em_percentile95 e = percentile95 m
       /\ em_percentile99 e = percentile99 m
       /\ em_errorRate e = errorRate m
       /\ em_throughput e = throughput m
       /\ em_receivedKBPerSec e = receivedKBPerSec m
       /\ em_sentKBPerSec e = sentKBPerSec m.
Proof.
  destruct rs as [|r rs]; [now rewrite endpointMetricsOf_nil|].
  unfold endpointMetricsOf, calculateMetrics.
  destruct (totalTime (r :: rs)) as [tt|]; [|discriminate]. cbn [bind].
  destruct (percentile _ 50) as [median|]; [|discriminate]. cbn [bind].
  destruct (spread Math_min _) as [lo|]; [|discriminate]. cbn [bind].
  destruct (spread Math_max _) as [hi|]; [|discriminate]. cbn [bind].
  destruct (percentile _ 90) as [p90|]; [|discriminate]. cbn [bind].
  destruct (percentile _ 95) as [p95|]; [|discriminate]. cbn [bind].
  destruct (percentile _ 99) as [p99|]; [|discriminate]. cbn [bind].
  intros [= <-]. split; [discriminate|]. split; [reflexivity|].
  eexists. split; [reflexivity|]. repeat split.
Qed.

Lemma calculateMetrics_errorRate {engine : Engine} (results : list JTLResult) (m : PerformanceMetrics) :
  calculateMetrics results = Some m ->
  errorRate m == len (filter (fun r => negb (success r)) results) / len results * 100
  /\ totalRequests m = len results.
Proof.
  destruct results as [|r rs].
  - intros [= <-]. split; reflexivity.
  - unfold calculateMetrics.
    destruct (totalTime (r :: rs)) as [tt|]; [|discriminate]. cbn [bind].
    destruct (percentile _ 50) as [median|]; [|discriminate]. cbn [bind].
    destruct (spread Math_min _) as [lo|]; [|discriminate]. cbn [bind].
    destruct (spread Math_max _) as [hi|]; [|discriminate]. cbn [bind].
    destruct (percentile _ 90) as [p90|]; [|discriminate]. cbn [bind].
    destruct (percentile _ 95) as [p95|]; [|discriminate]. cbn [bind].
    destruct (percentile _ 99) as [p99|]; [|discriminate]. cbn [bind].
    intros [= <-]. split; reflexivity.
Qed.

(** The samples that carry the label of [r]. *)
Lemma sameLabel_group (results : list JTLResult) (k : string) (g : list JTLResult) :
  In (k, g) (spec_groups label results) ->
  exists r, In r results /\ label r = k /\ g = sameLabel results r.
Proof.
  intros H. apply spec_groups_keys in H. destruct H as (-> & Hk & _).
  apply in_map_iff in Hk. destruct Hk as (r & <- & Hr). now exists r.
Qed.

Lemma mapM_none (A B : Type) (f : A -> option B) (l : list A) (a : A) :
  In a l -> f a = None -> mapM f l = None.
Proof.
  induction l as [|x l IH]; intros Hin Ha; [destruct Hin|]. cbn [mapM].
  destruct Hin as [-> | Hin]; [now rewrite Ha|].
  destruct (f x); [|reflexivity]. cbn [bind]. now rewrite IH.
Qed.

(** How [calculateEndpointMetrics] comes to its result: without a label
    that names a property of [Object.prototype], it maps the loop body over
    the groups. *)
Lemma calculateEndpointMetrics_entries {engine : Engine} (results : list JTLResult) :
  existsb (fun r => inherited (label r)) results = false ->
  exists entries,
    Permutation entries (spec_groups label results)
    /\ calculateEndpointMetrics results
       = (metrics <- mapM (fun entry => endpointMetricsOf (fst entry) (snd entry))
                         entries ;;
          Some (js_sort by_average_desc metrics)).
Proof.
  intros Hin. unfold calculateEndpointMetrics. rewrite groupBy_result, Hin. cbn [bind].
  exists (Object_entries (spec_groups label results)).
  split; [apply Object_entries_perm | reflexivity].
Qed.

Lemma calculateEndpointMetrics_steps {engine : Engine} (results : list JTLResult) :
  existsb (fun r => inherited (label r)) results = false ->
  (forall r, In r results -> spreadable (sameLabel results r)) ->
  exists entries metrics,
    Permutation entries (spec_groups label results)
    /\ Forall2 (fun a b => endpointMetricsOf (fst a) (snd a) = Some b) entries metrics
    /\ calculateEndpointMetrics results = Some (js_sort by_average_desc metrics).
Proof.
  intros Hin Hfit.
  destruct (calculateEndpointMetrics_entries results Hin) as (entries & Hperm & Hrun).
  destruct (@mapM_total _ _ (fun entry => endpointMetricsOf (fst entry) (snd entry))
              entries) as (metrics & Hm & Hall).
  { intros [k g] Hkg. apply (Permutation_in _ Hperm) in Hkg.
    destruct (sameLabel_group _ _ _ Hkg) as (r & Hr & _ & Hg).
    apply spec_groups_keys in Hkg. destruct Hkg as (_ & _ & Hne). cbn [fst snd].
    destruct (@endpointMetricsOf_defined engine k g Hne) as (m & Hm & _);
      [rewrite Hg; now apply Hfit | now exists m]. }
  exists entries, metrics.
  split; [exact Hperm|]. split; [exact Hall|]. now rewrite Hrun, Hm.
Qed.

Lemma spreadable_sameLabel {engine : Engine} (results : list JTLResult) :
  spreadable results -> forall r, In r results -> spreadable (sameLabel results r).
Proof. intros H r _. now apply spreadable_filter. Qed.

(** X5. [calculateEndpointMetrics] fails exactly when some sample carries
    a label that names a property of [Object.prototype] (such as
    "constructor" or "toString"), a [TypeError] of [groupBy], or when the
    samples of one label are more than the engine passes as arguments, a
    [RangeError] of the calls of [Math.max] and [Math.min]; on every other
    input it returns. *)
Theorem calculateEndpointMetrics_fails_iff {engine : Engine} (results : list JTLResult) :
  calculateEndpointMetrics results = None
  <-> (exists r, In r results /\ inherited (label r) = true)
      \/ (exists r, In r results /\ ~ spreadable (sameLabel results r)).
Proof.
  destruct (existsb (fun r => inherited (label r)) results) eqn:E.
  - split.
    + intros _. left. now apply existsb_exists in E.
    + intros _. unfold calculateEndpointMetrics. now rewrite groupBy_result, E.
  - assert (Hno : ~ (exists r, In r results /\ inherited (label r) = true)).
    { intros (r & Hr & Hi).
      assert (existsb (fun r => inherited (label r)) results = true)
        by (apply existsb_exists; now exists r).
      congruence. }
    destruct (calculateEndpointMetrics_entries results E) as (entries & Hperm & Hrun).
    split.
    + intros Hnone. right.
      destruct (mapM (fun entry => endpointMetricsOf (fst entry) (snd entry)) entries)
        as [metrics|] eqn:Hm; [rewrite Hrun in Hnone; discriminate|].
      clear Hrun Hnone.
      assert (Hex : exists kg, In kg entries
                               /\ endpointMetricsOf (fst kg) (snd kg) = None).
      { clear Hperm. induction entries as [|kg entries IH]; [discriminate|].
        cbn [mapM] in Hm.
        destruct (endpointMetricsOf (fst kg) (snd kg)) eqn:Ekg.
        - cbn [bind] in Hm.
          destruct (mapM _ entries) eqn:Em; [discriminate|].
          destruct (IH eq_refl) as (kg' & Hin & Hkg'). exists kg'. split; [now right | exact Hkg'].
        - exists kg. split; [now left | exact Ekg]. }
      destruct Hex as ([k g] & Hin & Hkg). cbn [fst snd] in Hkg.
      apply (Permutation_in _ Hperm) in Hin.
      destruct (sameLabel_group _ _ _ Hin) as (r & Hr & _ & Hg).
      apply spec_groups_keys in Hin. destruct Hin as (_ & _ & Hne).
      exists r. split; [exact Hr|]. intros Hfit. rewrite <- Hg in Hfit.
      destruct (@endpointMetricsOf_defined engine k g Hne Hfit) as (m & Hm' & _).
      congruence.
    + intros [H | (r & Hr & Hfit)]; [now destruct Hno|].
      rewrite Hrun.
      assert (Hin : In (label r, sameLabel results r) entries).
      { apply (Permutation_in _ (Permutation_sym Hperm)). unfold spec_groups.
        apply in_map_iff. exists (label r). split; [reflexivity|].
        apply Set_of_In. now apply in_map. }
      rewrite (mapM_none _ _ _ Hin); [reflexivity|]. cbn [fst snd].
      now apply endpointMetricsOf_throws.
Qed.

Lemma qsum_perm (l l' : list Q) : Permutation l l' -> qsum l == qsum l'.
Proof.
  induction 1 as [| x l l' _ IH | x y l | l l' l'' _ IH1 _ IH2]; cbn [qsum fold_right].
  - reflexivity.
  - fold (qsum l) (qsum l'). now rewrite IH.
  - ring.
  - etransitivity; eassumption.
Qed.

Lemma len_app (A : Type) (l l' : list A) : len (l ++ l') == len l + len l'.
Proof. unfold len. now rewrite length_app, Nat2Z.inj_add, inject_Z_plus. Qed.

Lemma qsum_len_concat (A : Type) (ls : list (list A)) :
  qsum (map (@len A) ls) == len (concat ls).
Proof.
  induction ls as [|l ls IH]; [reflexivity|].
  cbn [map qsum fold_right concat]. fold (qsum (map (@len A) ls)).
  now rewrite len_app, IH.
Qed.

Lemma Forall2_In_r (A B : Type) (R : A -> B -> Prop) (l : list A) (l' : list B) (b : B) :
  Forall2 R l l' -> In b l' -> exists a, In a l /\ R a b.
Proof.
  induction 1 as [|a b' l l' Hab _ IH]; intros Hin; [destruct Hin|].
  destruct Hin as [<- | Hin].
  - exists a. split; [now left | assumption].
  - destruct (IH Hin) as (a' & Ha' & HR). exists a'. split; [now right | assumption].
Qed.

Lemma calculateEndpointMetrics_some {engine : Engine} (results : list JTLResult)
  (out : list EndpointMetrics) :
  calculateEndpointMetrics results = Some out ->
  exists entries metrics,
    Permutation entries (spec_groups label results)
    /\ Forall2 (fun a b => endpointMetricsOf (fst a) (snd a) = Some b) entries metrics
    /\ out = js_sort by_average_desc metrics.
Proof.
  intros H. destruct (existsb (fun r => inherited (label r)) results) eqn:E.
  - unfold calculateEndpointMetrics in H. rewrite groupBy_result, E in H. discriminate.
  - destruct (calculateEndpointMetrics_entries results E) as (entries & Hperm & Hrun).
    rewrite Hrun in H.
    destruct (mapM (fun entry => endpointMetricsOf (fst entry) (snd entry)) entries)
      as [metrics|] eqn:Hm; [|discriminate].
    cbn [bind] in H. injection H as <-. exists entries, metrics.
    split; [exact Hperm|]. split; [now apply Forall2_mapM | reflexivity].
Qed.

Lemma endpoint_entries_labels {engine : Engine} (entries : list (string * list JTLResult))
  (metrics : list EndpointMetrics) :
  Forall2 (fun a b => endpointMetricsOf (fst a) (snd a) = Some b) entries metrics ->
  map em_label metrics = map fst entries
  /\ map em_samples metrics = map (@len JTLResult) (map snd entries).
Proof.
  induction 1 as [|a b l l' Hab _ [IH1 IH2]]; [now split|].
  apply endpointMetricsOf_summary in Hab.
  destruct Hab as (_ & Hl & m & Hm & Hs & _).
  apply calculateMetrics_errorRate in Hm. destruct Hm as [_ Htot].
  cbn [map]. rewrite IH1, IH2, Hl, Hs, Htot. now split.
Qed.

Lemma spec_groups_fst (T : Type) (key : T -> string) (l : list T) :
  map fst (spec_groups key l) = Set_of (map key l).
Proof. unfold spec_groups. rewrite map_map. cbn [fst]. apply map_id. Qed.

(** X6. When [calculateEndpointMetrics] returns, its entries are one per
    distinct label, and their sample counts add up to the number of samples:
    every sample is counted under exactly one endpoint. *)
Theorem calculateEndpointMetrics_partition {engine : Engine} (results : list JTLResult)
  (out : list EndpointMetrics)
  (Hout : calculateEndpointMetrics results = Some out) :
  Permutation (map em_label out) (Set_of (map label results))
  /\ NoDup (map em_label out)
  /\ (forall l, In l (map em_label out) <-> exists r, In r results /\ label r = l)
  /\ qsum (map em_samples out) == len results.
Proof.
  destruct (calculateEndpointMetrics_some _ Hout) as (entries & metrics & Hp & Hall & ->).
  destruct (endpoint_entries_labels Hall) as [Hl Hs].
  assert (HP : Permutation (map em_label (js_sort by_average_desc metrics))
                           (Set_of (map label results))).
  { rewrite (Permutation_map em_label (js_sort_perm by_average_desc metrics)), Hl.
    rewrite (Permutation_map fst Hp). now rewrite spec_groups_fst. }
  split; [exact HP|]. split; [|split].
  - eapply Permutation_NoDup; [symmetry; exact HP | apply Set_of_NoDup].
  - intros l. split.
    + intros H. apply (Permutation_in _ HP) in H.
      apply (proj1 (Set_of_In _ _)) in H. apply in_map_iff in H.
      destruct H as (r & Hr & Hin). now exists r.
    + intros (r & Hin & <-). apply (Permutation_in _ (Permutation_sym HP)).
      apply Set_of_In. now apply in_map.
  - rewrite (qsum_perm (Permutation_map em_samples (js_sort_perm by_average_desc metrics))).
    rewrite Hs, (qsum_perm (Permutation_map (@len JTLResult) (Permutation_map snd Hp))).
    rewrite qsum_len_concat. now rewrite (len_perm (spec_groups_partition label results)).
Qed.

Lemma calculateEndpointMetrics_partition_witness :
  exists out,
    calculateEndpointMetrics (engine := exampleEngine) mixedRun = Some out
    /\ Permutation (map em_label out) (Set_of (map label mixedRun))
    /\ qsum (map em_samples out) == len mixedRun.
Proof.
  destruct (calculateEndpointMetrics (engine := exampleEngine) mixedRun) as [out|] eqn:E.
  - exists out. split; [reflexivity|].
    destruct (calculateEndpointMetrics_partition _ E) as (H1 & _ & _ & H2). now split.
  - vm_compute in E. discriminate E.
Defined.

(** X7. Every endpoint entry carries the summary figures of the samples
    with its label: what [calculateMetrics] computes on that endpoint's
    samples alone. *)
Theorem calculateEndpointMetrics_matches_summary {engine : Engine} (results : list JTLResult)
  (out : list EndpointMetrics)
  (Hout : calculateEndpointMetrics results = Some out) :
  Forall (fun e =>
            exists m,
              calculateMetrics
                (filter (fun r => String.eqb (label r) (em_label e)) results) = Some m
              /\ sameFigures e m) out.
Proof.
  destruct (calculateEndpointMetrics_some _ Hout) as (entries & metrics & Hp & Hall & ->).
  apply Forall_forall. intros e He.
  apply (Permutation_in _ (js_sort_perm by_average_desc metrics)) in He.
  destruct (@Forall2_In_r _ _ _ _ _ e Hall He) as ([k g] & Ha & Hf). cbn [fst snd] in Hf.
  apply (Permutation_in _ Hp) in Ha. apply spec_groups_keys in Ha.
  destruct Ha as (-> & _ & _).
  apply endpointMetricsOf_summary in Hf. destruct Hf as (_ & -> & m & Hm & Hfig).
  exists m. split; [exact Hm | exact Hfig].
Qed.

Lemma calculateEndpointMetrics_matches_summary_witness :
  exists out,
    calculateEndpointMetrics (engine := exampleEngine) mixedRun = Some out
    /\ Forall (fun e =>
                 exists m,
                   calculateMetrics (engine := exampleEngine)
                     (filter (fun r => String.eqb (label r) (em_label e)) mixedRun)
                   = Some m
                   /\ sameFigures e m) out.
Proof.
  destruct (calculateEndpointMetrics (engine := exampleEngine) mixedRun) as [out|] eqn:E.
  - exists out. split; [reflexivity|].
    exact (calculateEndpointMetrics_matches_summary _ E).
  - vm_compute in E. discriminate E.
Defined.

(** A rate is at most 5 per cent exactly when a hundred times the part is at
    most five times the whole. *)
Lemma rate_le_nat (A : Type) (part whole : list A) :
  whole <> [] ->
  (len part / len whole * 100 <= 5
   <-> (100 * length part <= 5 * length whole)%nat).
Proof.
  intros Hne. pose proof (len_pos Hne) as Hpos.
  assert (Hnz : ~ len whole == 0) by (intros E; rewrite E in Hpos; discriminate).
  assert (E : len part / len whole * 100 == (len part * 100) / len whole) by (field; exact Hnz).
  rewrite E.
  assert (Hnat : len part * 100 <= 5 * len whole
                 <-> (100 * length part <= 5 * length whole)%nat).
  { unfold len. change 100 with (inject_Z 100). change 5 with (inject_Z 5).
    rewrite <- !inject_Z_mult, <- Zle_Qle. lia. }
  rewrite <- Hnat. split.
  - intros H. apply (Qmult_le_compat_r _ _ (len whole)) in H; [|now apply Qlt_le_weak].
    rewrite Qmult_comm, Qmult_div_r in H by exact Hnz. exact H.
  - intros H. apply Qle_shift_div_r; assumption.
Qed.

Lemma groups_rate_sum (A : Type) (f : A -> bool) (G : list (list A)) :
  Forall (fun g => (100 * length (filter f g) <= 5 * length g)%nat) G ->
  (100 * length (filter f (concat G)) <= 5 * length (concat G))%nat.
Proof.
  induction 1 as [|g G Hg _ IH]; [cbn; lia|].
  cbn [concat]. rewrite filter_app, !length_app. lia.
Qed.

Lemma Forall2_In_l (A B : Type) (R : A -> B -> Prop) (l : list A) (l' : list B) (a : A) :
  Forall2 R l l' -> In a l -> exists b, In b l' /\ R a b.
Proof.
  induction 1 as [|a' b l l' Hab _ IH]; intros Hin; [destruct Hin|].
  destruct Hin as [<- | Hin].
  - exists b. split; [now left | assumption].
  - destruct (IH Hin) as (b' & Hb' & HR). exists b'. split; [now right | assumption].
Qed.

(** If no endpoint has an error rate above 5, the run has none either. *)
Lemma endpoint_rates_bound_overall {engine : Engine} (results : list JTLResult)
  (m : PerformanceMetrics) (out : list EndpointMetrics) :
  calculateMetrics results = Some m ->
  calculateEndpointMetrics results = Some out ->
  Forall (fun e => em_errorRate e <= 5) out ->
  errorRate m <= 5.
Proof.
  intros Hm Hout Hall.
  destruct (calculateMetrics_errorRate _ Hm) as [Hrate _]. rewrite Hrate.
  destruct results as [|r0 rs0]; [discriminate|].
  apply rate_le_nat; [discriminate|]. set (results := r0 :: rs0) in *.
  destruct (calculateEndpointMetrics_some _ Hout) as (entries & metrics & Hp & Hf & ->).
  assert (HG : Forall (fun g => (100 * length (filter (fun r => negb (success r)) g)
                                 <= 5 * length g)%nat)
                      (map snd (spec_groups label results))).
  { eapply Permutation_Forall; [apply Permutation_map; exact Hp|].
    apply Forall_forall. intros g Hg. apply in_map_iff in Hg.
    destruct Hg as ([k g'] & <- & Ha). cbn [snd].
    destruct (@Forall2_In_l _ _ _ _ _ (k, g') Hf Ha) as (e & He & Hfe).
    cbn [fst snd] in Hfe. apply endpointMetricsOf_summary in Hfe.
    destruct Hfe as (Hne & _ & m' & Hm' & Hfig).
    destruct Hfig as (_ & _ & _ & _ & _ & _ & _ & _ & Herr & _).
    destruct (calculateMetrics_errorRate _ Hm') as [Hrate' _].
    apply (rate_le_nat _ Hne). rewrite <- Hrate', <- Herr.
    rewrite Forall_forall in Hall. apply Hall.
    apply (Permutation_in _ (Permutation_sym (js_sort_perm by_average_desc metrics))).
    exact He. }
  apply groups_rate_sum in HG.
  pose proof (spec_groups_partition label results) as Hpart.
  rewrite (Permutation_length (filter_perm (fun r => negb (success r)) Hpart)) in HG.
  now rewrite (Permutation_length Hpart) in HG.
Qed.

(** X8. An overall error rate above 5 per cent is never without an
    endpoint whose own error rate is above 5 per cent: the bottleneck
    labelled All endpoints comes with a high-error-rate bottleneck of some
    endpoint. *)
Theorem overall_error_rate_has_endpoint {engine : Engine} (results : list JTLResult)
  (m : PerformanceMetrics) (out : list EndpointMetrics)
  (Hm : calculateMetrics results = Some m)
  (Hout : calculateEndpointMetrics results = Some out)
  (Hrate : 5 < errorRate m) :
  exists e, In e out /\ 5 < em_errorRate e
            /\ In (spec_error e) (identifyBottlenecks m out)
            /\ In (spec_overall m) (identifyBottlenecks m out).
Proof.
  assert (Hex : exists e, In e out /\ 5 < em_errorRate e).
  { destruct (existsb (fun e => gt (em_errorRate e) 5) out) eqn:E.
    - apply existsb_exists in E. destruct E as (e & He & Hgt).
      exists e. split; [exact He | now apply gt_true].
    - exfalso. apply (Qlt_not_le _ _ Hrate).
      apply (@endpoint_rates_bound_overall engine results m out Hm Hout).
      apply Forall_forall. intros e He. apply gt_false.
      destruct (gt (em_errorRate e) 5) eqn:Eg; [|reflexivity].
      assert (existsb (fun e => gt (em_errorRate e) 5) out = true)
        by (apply existsb_exists; now exists e).
      congruence. }
  destruct Hex as (e & He & Hgt). exists e. split; [exact He|]. split; [exact Hgt|].
  assert (Hcollect : forall b, In b (collectBottlenecks m out) ->
                               In b (identifyBottlenecks m out)).
  { intros b Hb. unfold identifyBottlenecks.
    apply (Permutation_in _ (Permutation_sym (js_sort_perm by_severity _))). exact Hb. }
  split; apply Hcollect; unfold collectBottlenecks, push; rewrite checkEndpoint_fold;
    cbn [app]; apply gt_true in Hrate; rewrite Hrate; apply in_or_app.
  - left. apply in_flat_map. exists e. split; [exact He|].
    unfold endpointFindings. apply gt_true in Hgt. rewrite Hgt.
    apply in_or_app. right. now left.
  - right. now left.
Qed.

Lemma overall_error_rate_has_endpoint_witness :
  exists m out e,
    calculateMetrics (engine := exampleEngine) mixedRun = Some m
    /\ calculateEndpointMetrics (engine := exampleEngine) mixedRun = Some out
    /\ In e out /\ 5 < em_errorRate e
    /\ In (spec_error e) (identifyBottlenecks m out)
    /\ In (spec_overall m) (identifyBottlenecks m out).
Proof.
  destruct (calculateMetrics mixedRun) as [m|] eqn:Em; [|vm_compute in Em; discriminate Em].
  destruct (calculateEndpointMetrics mixedRun) as [out|] eqn:Eo;
    [|vm_compute in Eo; discriminate Eo].
  assert (Hrate : 5 < errorRate m).
  { vm_compute in Em. injection Em as <-. reflexivity. }
  destruct (overall_error_rate_has_endpoint _ Em Eo Hrate) as (e & H).
  exists m, out, e. split; [reflexivity|]. split; [reflexivity | exact H].
Defined.

(** ** Error analyzer: the clusters *)

Lemma Qdesc_notAfter (x y : Q) : (y - x ?= 0) <> Gt <-> y <= x.
Proof.
  rewrite <- Qle_alt. split; intros H.
  - apply Qle_minus_iff in H. rewrite Qplus_0_l in H.
    apply Qle_minus_iff. setoid_replace (x + - y) with (- (y - x)) by ring. exact H.
  - apply Qle_minus_iff. rewrite Qplus_0_l.
    apply Qle_minus_iff in H. setoid_replace (- (y - x)) with (x + - y) by ring. exact H.
Qed.

Lemma by_count_desc_total (x y : ErrorAnalysis) :
  by_count_desc x y = Gt -> by_count_desc y x <> Gt.
Proof.
  unfold by_count_desc. intros H. apply Qdesc_notAfter.
  destruct (Qlt_le_dec (ea_count y) (ea_count x)) as [Hlt | Hle]; [|exact Hle].
  exfalso. apply Qlt_le_weak in Hlt. apply Qdesc_notAfter in Hlt. now apply Hlt.
Qed.

Lemma errorCluster_inv (results errors : list JTLResult) (c : ErrorAnalysis) :
  errorCluster results errors = Some c ->
  exists e0 rest,
    errors = e0 :: rest
    /\ ea_responseCode c = responseCode e0
    /\ ea_responseMessage c = responseMessage e0
    /\ ea_count c = len errors
    /\ ea_percentage c = len errors / len results * 100
    /\ ea_affectedEndpoints c = Set_of (map label errors).
Proof.
  destruct errors as [|e0 rest]; [discriminate|]. cbn [errorCluster].
  intros [= <-]. exists e0, rest. repeat split.
Qed.

(** How [analyzeErrors] comes to its result; it always has one. *)
Lemma analyzeErrors_steps (results : list JTLResult) :
  exists entries clusters,
    Permutation entries
      (spec_groups errorKey (filter (fun r => negb (success r)) results))
    /\ Forall2 (fun a c => errorCluster results (snd a) = Some c) entries clusters
    /\ analyzeErrors results = Some (js_sort by_count_desc clusters).
Proof.
  unfold analyzeErrors.
  destruct (filter (fun r => negb (success r)) results) as [|f fs] eqn:Ef.
  - exists [], []. split; [constructor|]. split; [constructor | reflexivity].
  - rewrite errorGroups_spec. cbn [bind].
    pose proof (Object_entries_perm (spec_groups errorKey (f :: fs))) as Hperm.
    destruct (@mapM_total _ _ (fun entry => errorCluster results (snd entry))
                (Object_entries (spec_groups errorKey (f :: fs))))
      as (clusters & Hc & Hall).
    { intros [k g] Hkg. apply (Permutation_in _ Hperm) in Hkg.
      apply spec_groups_keys in Hkg. destruct Hkg as (_ & _ & Hne). cbn [snd].
      destruct g as [|e0 es]; [congruence|]. eexists. reflexivity. }
    exists (Object_entries (spec_groups errorKey (f :: fs))), clusters.
    split; [exact Hperm|]. split; [exact Hall|]. now rewrite Hc.
Qed.

Lemma error_entries_counts (results : list JTLResult)
  (entries : list (string * list JTLResult)) (clusters : list ErrorAnalysis) :
  Forall2 (fun a c => errorCluster results (snd a) = Some c) entries clusters ->
  map ea_count clusters = map (@len JTLResult) (map snd entries)
  /\ map ea_percentage clusters
     = map (fun x => x / len results * 100) (map (@len JTLResult) (map snd entries)).
Proof.
  induction 1 as [|a c l l' Hac _ [IH1 IH2]]; [now split|].
  apply errorCluster_inv in Hac.
  destruct Hac as (e0 & rest & _ & _ & _ & Hcount & Hpct & _).
  cbn [map]. rewrite IH1, IH2, Hcount, Hpct. now split.
Qed.

(** X9. [analyzeErrors] returns on every input, and its clusters account
    for every failure once: the counts of the clusters add up to the number
    of failed samples. *)
Theorem analyzeErrors_accounts_for_failures (results : list JTLResult) :
  exists clusters,
    analyzeErrors results = Some clusters
    /\ qsum (map ea_count clusters)
       == len (filter (fun r => negb (success r)) results).
Proof.
  destruct (analyzeErrors_steps results) as (entries & clusters & Hp & Hall & Hrun).
  exists (js_sort by_count_desc clusters). split; [exact Hrun|].
  destruct (@error_entries_counts results entries clusters Hall) as [Hc _].
  assert (Hsum : qsum (map (@len JTLResult) (map snd entries))
                 == len (filter (fun r => negb (success r)) results)).
  { rewrite (qsum_perm (Permutation_map (@len JTLResult) (Permutation_map snd Hp))).
    rewrite qsum_len_concat. now rewrite (len_perm (spec_groups_partition errorKey _)). }
  rewrite (qsum_perm (Permutation_map ea_count (js_sort_perm by_count_desc clusters))).
  now rewrite Hc.
Qed.

Lemma filter_nil_iff (A : Type) (p : A -> bool) (l : list A) :
  filter p l = [] <-> Forall (fun x => p x = false) l.
Proof.
  induction l as [|x l IH]; cbn [filter].
  - split; [constructor | reflexivity].
  - destruct (p x) eqn:E.
    + split; [discriminate | intros H; inversion H; congruence].
    + rewrite IH. split; [now constructor | intros H; now inversion H].
Qed.

Lemma error_entries_keys (results : list JTLResult)
  (entries : list (string * list JTLResult)) (clusters : list ErrorAnalysis) :
  (forall a, In a entries -> Forall (fun r => errorKey r = fst a) (snd a)) ->
  Forall2 (fun a c => errorCluster results (snd a) = Some c) entries clusters ->
  map (fun c => (ea_responseCode c ++ "-" ++ ea_responseMessage c)%string) clusters
  = map fst entries.
Proof.
  intros Hkeys H. induction H as [|a c l l' Hac _ IH]; [reflexivity|].
  cbn [map]. rewrite IH by (intros a' Ha'; apply Hkeys; now right). f_equal.
  apply errorCluster_inv in Hac. destruct Hac as (e0 & rest & Hg & Hc & Hm & _).
  pose proof (Hkeys a (or_introl eq_refl)) as Hall. rewrite Hg in Hall.
  inversion Hall as [|? ? He0 _]; subst. rewrite Hc, Hm. exact He0.
Qed.

(** X10. The clusters of [analyzeErrors] are sorted by descending count;
    no (code, message) pair is reported twice; every cluster counts at least
    one failure, carries the code and message of a failed sample whose label
    is among its endpoints, and lists each affected endpoint once, each the
    label of a failed sample; the result is empty exactly when no sample
    failed. *)
Theorem analyzeErrors_cluster_shape (results : list JTLResult)
  (clusters : list ErrorAnalysis)
  (Hrun : analyzeErrors results = Some clusters) :
  Sorted (fun a b => ea_count b <= ea_count a) clusters
  /\ NoDup (map (fun c => (ea_responseCode c, ea_responseMessage c)) clusters)
  /\ Forall (fun c =>
               1 <= ea_count c
               /\ NoDup (ea_affectedEndpoints c)
               /\ (exists r, In r results /\ success r = false
                             /\ responseCode r = ea_responseCode c
                             /\ responseMessage r = ea_responseMessage c
                             /\ In (label r) (ea_affectedEndpoints c))
               /\ (forall l, In l (ea_affectedEndpoints c) ->
                             exists r, In r results /\ success r = false /\ label r = l))
            clusters
  /\ (clusters = [] <-> Forall (fun r => success r = true) results).
Proof.
  destruct (analyzeErrors_steps results) as (entries & clusters0 & Hp & Hall & Hrun').
  rewrite Hrun in Hrun'. injection Hrun' as ->.
  set (failed := filter (fun r => negb (success r)) results) in *.
  assert (Hfailed : forall r, In r failed -> In r results /\ success r = false).
  { intros r Hr. apply filter_In in Hr. destruct Hr as [Hin Hs].
    split; [exact Hin | now apply negb_true_iff]. }
  assert (Hgroup : forall k g, In (k, g) entries ->
                               g <> [] /\ Forall (fun r => errorKey r = k /\ In r failed) g).
  { intros k g Hkg. apply (Permutation_in _ Hp) in Hkg.
    apply spec_groups_keys in Hkg. destruct Hkg as (-> & _ & Hne).
    split; [exact Hne|]. apply Forall_forall. intros r Hr. apply filter_In in Hr.
    destruct Hr as [Hin Hk]. split; [now apply String.eqb_eq | exact Hin]. }
  split; [|split; [|split]].
  - eapply Sorted_weaken; [|apply js_sort_sorted; exact by_count_desc_total].
    intros a b. unfold notAfter, by_count_desc. apply Qdesc_notAfter.
  - eapply Permutation_NoDup.
    { symmetry. apply Permutation_map. apply js_sort_perm. }
    apply (NoDup_map_inv (fun p => (fst p ++ "-" ++ snd p)%string)).
    rewrite map_map. cbn [fst snd].
    rewrite (@error_entries_keys results entries clusters0); [| |exact Hall].
    + eapply Permutation_NoDup; [symmetry; apply Permutation_map; exact Hp|].
      rewrite spec_groups_fst. apply Set_of_NoDup.
    + intros [k g] Ha. destruct (Hgroup k g Ha) as [_ Hg]. cbn [fst snd].
      eapply Forall_impl; [|exact Hg]. now intros r [Hr _].
  - apply Forall_forall. intros c Hc.
    apply (Permutation_in _ (js_sort_perm by_count_desc clusters0)) in Hc.
    destruct (@Forall2_In_r _ _ _ _ _ c Hall Hc) as ([k g] & Ha & Hcl). cbn [snd] in Hcl.
    destruct (Hgroup k g Ha) as [Hne Hg]. rewrite Forall_forall in Hg.
    apply errorCluster_inv in Hcl.
    destruct Hcl as (e0 & rest & -> & Hcode & Hmsg & Hcount & _ & Haff).
    split; [|split; [|split]].
    + rewrite Hcount. unfold len. change 1 with (inject_Z 1). rewrite <- Zle_Qle.
      cbn [length]. lia.
    + rewrite Haff. apply Set_of_NoDup.
    + destruct (Hg e0 (or_introl eq_refl)) as [_ He0].
      destruct (Hfailed _ He0) as [Hin Hs]. exists e0.
      repeat (split; [now auto|]). rewrite Haff. apply Set_of_In. now left.
    + intros l Hl. rewrite Haff in Hl. apply (proj1 (Set_of_In _ _)) in Hl.
      apply in_map_iff in Hl. destruct Hl as (r & <- & Hr).
      destruct (Hg r Hr) as [_ Hrf]. destruct (Hfailed _ Hrf) as [Hin Hs].
      exists r. now repeat split.
  - assert (Hlen : length (js_sort by_count_desc clusters0)
                   = length (Set_of (map errorKey failed))).
    { rewrite js_sort_length, <- (Forall2_length Hall), (Permutation_length Hp).
      unfold spec_groups. now rewrite length_map. }
    assert (Hiff : failed = [] <-> Forall (fun r => success r = true) results).
    { unfold failed. rewrite filter_nil_iff. split; intros H; eapply Forall_impl; try exact H;
        intros r Hr; cbv beta in *; destruct (success r); now auto. }
    rewrite <- Hiff. split.
    + intros E. rewrite E in Hlen. destruct failed as [|f fs]; [reflexivity|].
      exfalso. assert (Hin : In (errorKey f) (Set_of (map errorKey (f :: fs))))
        by (apply Set_of_In; now left).
      destruct (Set_of (map errorKey (f :: fs))); [destruct Hin | discriminate Hlen].
    + intros E. rewrite E in Hlen. cbn in Hlen.
      now destruct (js_sort by_count_desc clusters0).
Qed.

Lemma analyzeErrors_cluster_shape_witness :
  exists clusters,
    analyzeErrors mixedRun = Some clusters
    /\ Sorted (fun a b => ea_count b <= ea_count a) clusters
    /\ NoDup (map (fun c => (ea_responseCode c, ea_responseMessage c)) clusters)
    /\ (clusters = [] <-> Forall (fun r => success r = true) mixedRun).
Proof.
  destruct (analyzeErrors mixedRun) as [clusters|] eqn:E.
  - exists clusters. split; [reflexivity|].
    destruct (analyzeErrors_cluster_shape _ E) as (H1 & H2 & _ & H4).
    split; [exact H1 | split; [exact H2 | exact H4]].
  - vm_compute in E. discriminate E.
Defined.

Lemma errorGroups_sameCluster_witness :
  exists groups,
    errorGroups (filter (fun r => negb (success r)) sameError) = Some groups
    /\ sameCluster groups (sample 1000 100 "A" "404" "Not Found" false)
                          (sample 2000 100 "B" "404" "Not Found" false).
Proof.
  destruct (@errorGroups_sameCluster sameError
              (sample 1000 100 "A" "404" "Not Found" false)
              (sample 2000 100 "B" "404" "Not Found" false))
    as (groups & Hg & _ & Hsame & _).
  - left. reflexivity.
  - right. left. reflexivity.
  - exists groups. split; [exact Hg|]. apply Hsame. split; reflexivity.
Defined.

(** ** Bottleneck classifier: order and size of the result *)

Lemma by_severity_notAfter (a b : Bottleneck) :
  notAfter by_severity a b
  <-> (severityOrder (b_severity a) <= severityOrder (b_severity b))%Z.
Proof.
  unfold notAfter, by_severity.
  destruct (Z.compare_spec (severityOrder (b_severity a) - severityOrder (b_severity b)) 0);
    split; intros; try lia; try congruence; discriminate.
Qed.

Lemma by_severity_total (x y : Bottleneck) :
  by_severity x y = Gt -> by_severity y x <> Gt.
Proof.
  intros H. apply by_severity_notAfter. unfold by_severity in H.
  apply Z.compare_gt_iff in H. lia.
Qed.

Lemma collectBottlenecks_eq (m : PerformanceMetrics) (eps : list EndpointMetrics) :
  collectBottlenecks m eps
  = flat_map endpointFindings eps
    ++ (if gt (errorRate m) 5 then [spec_overall m] else []).
Proof.
  unfold collectBottlenecks, push. rewrite checkEndpoint_fold. cbn [app].
  destruct (gt (errorRate m) 5); [reflexivity | now rewrite app_nil_r].
Qed.

(** X12. The bottlenecks come out ordered by severity, critical before
    high before medium, and within one severity in the order in which they
    were found: endpoint by endpoint in the order of the endpoint list, for
    each endpoint slow response, error rate, latency, and the overall error
    rate last. *)
Theorem identifyBottlenecks_ordered (metrics : PerformanceMetrics)
  (endpointMetrics : list EndpointMetrics) :
  Sorted (fun a b => (severityOrder (b_severity a) <= severityOrder (b_severity b))%Z)
         (identifyBottlenecks metrics endpointMetrics)
  /\ forall s,
       filter (hasSeverity s) (identifyBottlenecks metrics endpointMetrics)
       = filter (hasSeverity s)
           (flat_map endpointFindings endpointMetrics
            ++ (if gt (errorRate metrics) 5 then [spec_overall metrics] else [])).
Proof.
  unfold identifyBottlenecks. split.
  - eapply Sorted_weaken; [|apply js_sort_sorted; exact by_severity_total].
    intros a b. apply by_severity_notAfter.
  - intros s. rewrite <- collectBottlenecks_eq. apply js_sort_stable.
    intros x y Hx Hy. unfold hasSeverity in Hx, Hy.
    apply Z.eqb_eq in Hx, Hy. apply by_severity_notAfter. lia.
Qed.

Lemma endpointFindings_nil (e : EndpointMetrics) :
  endpointFindings e = []
  <-> em_average e <= 2000 /\ em_errorRate e <= 5 /\ em_percentile95 e <= 1000.
Proof.
  unfold endpointFindings. rewrite <- !gt_false.
  destruct (gt (em_average e) 2000), (gt (em_errorRate e) 5),
    (gt (em_percentile95 e) 1000); cbn [app]; split;
    try (intros H; discriminate H); try (intros (H1 & H2 & H3); discriminate);
    try reflexivity; now auto.
Qed.

Lemma endpointFindings_length (e : EndpointMetrics) :
  (length (endpointFindings e) <= 3)%nat.
Proof.
  unfold endpointFindings.
  destruct (gt (em_average e) 2000), (gt (em_errorRate e) 5),
    (gt (em_percentile95 e) 1000); cbn; lia.
Qed.

(** X13. [identifyBottlenecks] reports nothing exactly when the overall
    error rate is at most 5 and every endpoint has average at most 2000,
    error rate at most 5 and 95th percentile at most 1000; it never reports
    more than three entries per endpoint and one for the run. *)
Theorem identifyBottlenecks_empty_iff (metrics : PerformanceMetrics)
  (endpointMetrics : list EndpointMetrics) :
  (identifyBottlenecks metrics endpointMetrics = []
   <-> errorRate metrics <= 5
       /\ Forall (fun e => em_average e <= 2000 /\ em_errorRate e <= 5
                           /\ em_percentile95 e <= 1000) endpointMetrics)
  /\ (length (identifyBottlenecks metrics endpointMetrics)
      <= 3 * length endpointMetrics + 1)%nat.
Proof.
  unfold identifyBottlenecks. split.
  - assert (Hnil : js_sort by_severity (collectBottlenecks metrics endpointMetrics) = []
                   <-> collectBottlenecks metrics endpointMetrics = []).
    { pose proof (js_sort_length by_severity (collectBottlenecks metrics endpointMetrics)).
      split; intros E; rewrite E in H.
      - now destruct (collectBottlenecks metrics endpointMetrics).
      - now rewrite E. }
    rewrite Hnil, collectBottlenecks_eq. rewrite <- gt_false. clear Hnil. split.
    + intros H. apply app_eq_nil in H. destruct H as [H1 H2]. split.
      * now destruct (gt (errorRate metrics) 5).
      * clear H2. induction endpointMetrics as [|e eps IH]; [constructor|].
        cbn [flat_map] in H1. apply app_eq_nil in H1. destruct H1 as [He Heps].
        constructor; [now apply endpointFindings_nil | now apply IH].
    + intros [H1 H2]. rewrite H1, app_nil_r.
      induction H2 as [|e eps He _ IH]; [reflexivity|].
      cbn [flat_map]. apply endpointFindings_nil in He. now rewrite He, IH.
  - rewrite js_sort_length, collectBottlenecks_eq, length_app.
    assert (H1 : (length (flat_map endpointFindings endpointMetrics)
                  <= 3 * length endpointMetrics)%nat).
    { induction endpointMetrics as [|e eps IH]; [cbn; lia|].
      cbn [flat_map]. rewrite length_app. pose proof (endpointFindings_length e).
      cbn [length]. lia. }
    destruct (gt (errorRate metrics) 5); cbn [length]; lia.
Qed.

(** ** Recommendation engine: the fallback *)

Lemma bottleneckAdvice_cons (b : Bottleneck) (bs : list Bottleneck) :
  bottleneckAdvice (b :: bs) = adviseBottleneck [] b ++ bottleneckAdvice bs.
Proof.
  unfold bottleneckAdvice at 1. cbn [fold_left].
  now destruct (adviseBottleneck_fold bs (adviseBottleneck [] b)) as [-> _].
Qed.

Lemma bottleneckAdvice_not_fallback (bs : list Bottleneck) (s : string) :
  In s (bottleneckAdvice bs) -> s <> fallback.
Proof.
  induction bs as [|b bs IH]; [intros []|].
  rewrite bottleneckAdvice_cons. intros H. apply in_app_or in H.
  destruct H as [H | H]; [|now apply IH].
  unfold adviseBottleneck, push in H.
  destruct (b_type b); cbn [app In] in H; [| | |destruct H];
    destruct H as [<- | []];
    intros E; unfold fallback in E; cbn [append] in E; discriminate E.
Qed.

Lemma adviseError_not_fallback (e : ErrorAnalysis) (s : string) :
  In s (adviseError [] e) -> s <> fallback.
Proof.
  unfold adviseError, push.
  destruct (String.prefix "5" (ea_responseCode e)).
  { cbn [app In]. intros [<- | []] E. unfold fallback in E. cbn [append] in E.
    discriminate E. }
  destruct (String.eqb (ea_responseCode e) "404").
  { cbn [app In]. intros [<- | []] E. discriminate E. }
  destruct (String.eqb (ea_responseCode e) "401" || String.eqb (ea_responseCode e) "403").
  { cbn [app In]. intros [<- | []] E. discriminate E. }
  intros [].
Qed.

Lemma errorAdvice_not_fallback (es : list ErrorAnalysis) (s : string) :
  In s (errorAdvice es) -> s <> fallback.
Proof.
  unfold errorAdvice. induction (firstn 3 es) as [|e l IH]; [intros []|].
  cbn [fold_left]. rewrite adviseError_fold. intros H. apply in_app_or in H.
  destruct H as [H | H]; [now apply (adviseError_not_fallback e) | now apply IH].
Qed.

Lemma metricAdvice_not_fallback (m : PerformanceMetrics) (s : string) :
  In s (metricAdvice m) -> s <> fallback.
Proof.
  unfold metricAdvice, adviseMetrics, push.
  destruct (gt (errorRate m) 1 && Qle_bool (errorRate m) 5),
    (gt (percentile95 m) (averageResponseTime m * 2)), (lt (throughput m) 10);
    cbn [app In]; intros H;
    repeat (destruct H as [<- | H]; [intros E; discriminate E|]); destruct H.
Qed.

Lemma advisories_not_fallback (m : PerformanceMetrics) (bs : list Bottleneck)
  (es : list ErrorAnalysis) (s : string) :
  In s (advisories m bs es) -> s <> fallback.
Proof.
  rewrite advisories_split. intros H. apply in_app_or in H. destruct H as [H | H].
  - now apply (bottleneckAdvice_not_fallback bs).
  - apply in_app_or in H. destruct H as [H | H].
    + now apply (errorAdvice_not_fallback es).
    + now apply (metricAdvice_not_fallback m).
Qed.

(** X14. The fallback "Performance looks good" is part of the
    recommendations exactly when no bottleneck, no error cluster and no
    global heuristic produced an advisory: it never appears next to one. *)
Theorem fallback_only_alone (metrics : PerformanceMetrics)
  (bottlenecks : list Bottleneck) (errors : list ErrorAnalysis) :
  In fallback (generateRecommendations metrics bottlenecks errors)
  <-> bottleneckAdvice bottlenecks = [] /\ errorAdvice errors = []
      /\ metricAdvice metrics = [].
Proof.
  unfold generateRecommendations, push.
  pose proof (advisories_split metrics bottlenecks errors) as Hsplit.
  pose proof (@advisories_not_fallback metrics bottlenecks errors fallback) as Hnot.
  destruct (advisories metrics bottlenecks errors) as [|s ss].
  - symmetry in Hsplit. apply app_eq_nil in Hsplit. destruct Hsplit as [H1 H2].
    apply app_eq_nil in H2. destruct H2 as [H2 H3].
    split; [intros _; now repeat split | intros _; now left].
  - split.
    + intros H. exfalso. now apply Hnot.
    + intros (H1 & H2 & H3). rewrite H1, H2, H3 in Hsplit. discriminate Hsplit.
Qed.

Lemma calculateMetrics_single_instant {engine : Engine} (results : list JTLResult) (m : PerformanceMetrics) :
  calculateMetrics results = Some m ->
  (forall r r', In r results -> In r' results -> timestamp r = timestamp r') ->
  throughput m = 0 /\ receivedKBPerSec m = 0 /\ sentKBPerSec m = 0.
Proof.
  intros Hm Hsame. destruct results as [|r rs].
  - injection Hm as <-. now repeat split.
  - assert (Hne : r :: rs <> []) by discriminate.
    pose proof (calculateMetrics_fits Hne Hm) as Hfit.
    destruct (totalTime_spec Hne Hfit) as (hi & lo & _ & _ & Htt & Hhi & Hlo & _).
    apply in_map_iff in Hhi, Hlo.
    destruct Hhi as (r1 & <- & Hr1), Hlo as (r2 & <- & Hr2).
    rewrite (Hsame r1 r2 Hr1 Hr2), Z.sub_diag in Htt.
    unfold calculateMetrics in Hm. rewrite Htt in Hm. cbn [bind] in Hm.
    destruct (percentile _ 50) as [median|]; [|discriminate]. cbn [bind] in Hm.
    destruct (spread Math_min _) as [mn|]; [|discriminate]. cbn [bind] in Hm.
    destruct (spread Math_max _) as [mx|]; [|discriminate]. cbn [bind] in Hm.
    destruct (percentile _ 90) as [p90|]; [|discriminate]. cbn [bind] in Hm.
    destruct (percentile _ 95) as [p95|]; [|discriminate]. cbn [bind] in Hm.
    destruct (percentile _ 99) as [p99|]; [|discriminate]. cbn [bind] in Hm.
    injection Hm as <-. now repeat split.
Qed.

(** X15. A run whose samples all carry one timestamp (a single sample, or
    the empty run) has throughput 0, so its recommendations always hold the
    low-throughput advisory and never the fallback, whatever the bottlenecks
    and error clusters are. *)
Theorem single_instant_low_throughput {engine : Engine} (results : list JTLResult)
  (m : PerformanceMetrics) (bottlenecks : list Bottleneck) (errors : list ErrorAnalysis)
  (Hm : calculateMetrics results = Some m)
  (Hsame : forall r r', In r results -> In r' results -> timestamp r = timestamp r') :
  throughput m = 0
  /\ In lowThroughputAdvice (generateRecommendations m bottlenecks errors)
  /\ ~ In fallback (generateRecommendations m bottlenecks errors).
Proof.
  destruct (calculateMetrics_single_instant _ Hm Hsame) as (Ht & _).
  split; [exact Ht|].
  assert (Hlow : In lowThroughputAdvice (advisories m bottlenecks errors)).
  { rewrite advisories_split. apply in_or_app. right. apply in_or_app. right.
    unfold metricAdvice, adviseMetrics, push. rewrite Ht.
    change (lt 0 10) with true. cbv iota. apply in_or_app. right. now left. }
  unfold generateRecommendations.
  pose proof (@advisories_not_fallback m bottlenecks errors fallback) as Hnot.
  destruct (advisories m bottlenecks errors) as [|s ss]; [destruct Hlow|].
  split; [exact Hlow|]. intros H. now apply Hnot.
Qed.

Lemma single_instant_low_throughput_witness :
  exists m,
    calculateMetrics (engine := exampleEngine) [sample 1000 100 "A" "200" "OK" true] = Some m
    /\ throughput m = 0
    /\ In lowThroughputAdvice (generateRecommendations m [] [])
    /\ ~ In fallback (generateRecommendations m [] []).
Proof.
  destruct (calculateMetrics (engine := exampleEngine)
              [sample 1000 100 "A" "200" "OK" true]) as [m|] eqn:E.
  - exists m. split; [reflexivity|].
    apply (@single_instant_low_throughput exampleEngine _ m [] [] E).
    intros r r' [<- | []] [<- | []]. reflexivity.
  - vm_compute in E. discriminate E.
Defined.

(** ** Time-series bucketer: what the points add up to *)

(** With a positive whole interval, on samples that can be spread and whose
    timestamps binary64 holds, the bucketer returns the points of the walked
    windows. *)
Lemma generateTimeSeriesData_result {engine : Engine} (results : list JTLResult)
  (intervalMs : Z) :
  (0 < intervalMs)%Z -> spreadable results -> safeTimes intervalMs results ->
  exists n, forall fuel, (n <= fuel)%nat ->
    generateTimeSeriesData fuel results (Some (inject_Z intervalMs))
    = Returned match results with
               | [] => []
               | r :: rs =>
                   spec_points results intervalMs
                     (Math_min1 (timestamp r) (map timestamp rs))
                     (Math_max1 (timestamp r) (map timestamp rs))
               end.
Proof.
  intros Hpos Hfit Hsafe. destruct results as [|r rs].
  - exists 0%nat. reflexivity.
  - exists (S (windowCount (Math_min1 (timestamp r) (map timestamp rs))
                           (Math_max1 (timestamp r) (map timestamp rs)) intervalMs)).
    intros fuel Hfuel.
    pose proof (@generateTimeSeriesData_run engine r rs intervalMs fuel Hpos Hfit Hsafe)
      as Hrun.
    cbv zeta in Hrun. apply Hrun. lia.
Qed.

Lemma window_indicator (intervalMs : Z) (a : JTLResult) (n : nat) :
  (0 < intervalMs)%Z ->
  forall lo : Z,
    (lo <= timestamp a < lo + Z.of_nat n * intervalMs)%Z ->
    flat_map (fun t => if belongs t intervalMs a then [a] else [])
             (windowStarts lo intervalMs n) = [a].
Proof.
  intros Hpos. induction n as [|n IH]; intros lo Hr; [lia|].
  cbn [windowStarts flat_map]. destruct (belongs lo intervalMs a) eqn:E.
  - cbn [app]. f_equal. apply belongs_spec in E.
    assert (Hlt : (timestamp a < lo + intervalMs)%Z) by lia. clear IH Hr E.
    generalize dependent (lo + intervalMs)%Z. intros start Hlt.
    revert start Hlt. induction n as [|n IHn]; intros start Hlt; [reflexivity|].
    cbn [windowStarts flat_map].
    destruct (belongs start intervalMs a) eqn:E'.
    + apply belongs_spec in E'. lia.
    + apply IHn. lia.
  - cbn [app]. apply IH.
    assert (~ (lo <= timestamp a < lo + intervalMs)%Z).
    { intros H. apply belongs_spec in H. congruence. }
    lia.
Qed.

(** The walked windows hold every sample exactly once. *)
Lemma windows_partition (intervalMs lo : Z) (n : nat) (l : list JTLResult) :
  (0 < intervalMs)%Z ->
  Forall (fun r => (lo <= timestamp r < lo + Z.of_nat n * intervalMs)%Z) l ->
  Permutation (flat_map (fun t => filter (belongs t intervalMs) l)
                        (windowStarts lo intervalMs n)) l.
Proof.
  intros Hpos. induction 1 as [|a l Ha _ IH].
  - cbn [filter]. induction (windowStarts lo intervalMs n) as [|t ws IHw]; [constructor|].
    exact IHw.
  - cbn [filter].
    assert (E : forall t,
               (if belongs t intervalMs a
                then a :: filter (belongs t intervalMs) l
                else filter (belongs t intervalMs) l)
               = (if belongs t intervalMs a then [a] else [])
                 ++ filter (belongs t intervalMs) l).
    { intros t. now destruct (belongs t intervalMs a). }
    rewrite (flat_map_ext _ _ E), flat_map_app_perm.
    rewrite window_indicator by assumption. cbn [app]. now constructor.
Qed.

Lemma qsum_app (xs ys : list Q) : qsum (xs ++ ys) == qsum xs + qsum ys.
Proof.
  unfold qsum. induction xs as [|x xs IH]; cbn [app fold_right].
  - ring.
  - rewrite IH. ring.
Qed.

Lemma filter_flat_map (A B : Type) (p : B -> bool) (f : A -> list B) (l : list A) :
  filter p (flat_map f l) = flat_map (fun x => filter p (f x)) l.
Proof.
  induction l as [|x l IH]; [reflexivity|]. cbn [flat_map]. now rewrite filter_app, IH.
Qed.

(** The point of a window, if any, stands for the samples of the window. *)
Lemma windowPoint_group (results : list JTLResult) (intervalMs start : Z) :
  Forall2 (standsFor (inject_Z intervalMs))
          (windowPoint results intervalMs start) (windowGroup results intervalMs start)
  /\ concat (windowGroup results intervalMs start)
     = filter (belongs start intervalMs) results.
Proof.
  unfold windowPoint, windowGroup.
  destruct (filter (belongs start intervalMs) results) as [|r rs].
  - split; [constructor | reflexivity].
  - split.
    + constructor; [|constructor]. unfold standsFor.
      cbn [ts_responseTime ts_throughput ts_errorCount].
      split; [discriminate|]. repeat split.
    + cbn [concat]. now rewrite app_nil_r.
Qed.

Lemma points_groups (results : list JTLResult) (intervalMs : Z) (ws : list Z) :
  Forall2 (standsFor (inject_Z intervalMs))
          (flat_map (windowPoint results intervalMs) ws)
          (flat_map (windowGroup results intervalMs) ws)
  /\ concat (flat_map (windowGroup results intervalMs) ws)
     = flat_map (fun t => filter (belongs t intervalMs) results) ws.
Proof.
  induction ws as [|t ws [IH1 IH2]]; [split; [constructor | reflexivity]|].
  cbn [flat_map]. destruct (windowPoint_group results intervalMs t) as [H1 H2].
  split.
  - now apply Forall2_app.
  - now rewrite concat_app, H2, IH2.
Qed.

(** What a window's point, if any, says about the window. *)
Lemma windowPoint_totals (results : list JTLResult) (intervalMs start : Z) :
  let inside := filter (belongs start intervalMs) results in
  qsum (map ts_errorCount (windowPoint results intervalMs start))
  == len (filter (fun r => negb (success r)) inside)
  /\ (length (windowPoint results intervalMs start) <= length inside)%nat.
Proof.
  cbv zeta. unfold windowPoint.
  destruct (filter (belongs start intervalMs) results) as [|r rs].
  - split; [reflexivity | apply le_n].
  - unfold qsum. cbn [map fold_right ts_errorCount length]. split; [ring | lia].
Qed.

Lemma points_totals (results : list JTLResult) (intervalMs : Z) (ws : list Z) :
  let pts := flat_map (windowPoint results intervalMs) ws in
  let inside := flat_map (fun t => filter (belongs t intervalMs) results) ws in
  qsum (map ts_errorCount pts) == len (filter (fun r => negb (success r)) inside)
  /\ (length pts <= length inside)%nat.
Proof.
  cbv zeta. induction ws as [|t ws (IH1 & IH2)].
  - split; [reflexivity | apply le_n].
  - cbn [flat_map]. destruct (windowPoint_totals results intervalMs t) as (H1 & H2).
    rewrite !map_app, !qsum_app, filter_app, !len_app, !length_app.
    rewrite IH1, H1. split; [reflexivity | lia].
Qed.

Lemma walked_windows_cover (r : JTLResult) (rs : list JTLResult) (intervalMs : Z) :
  (0 < intervalMs)%Z ->
  let lo := Math_min1 (timestamp r) (map timestamp rs) in
  let hi := Math_max1 (timestamp r) (map timestamp rs) in
  Forall (fun x => (lo <= timestamp x
                    < lo + Z.of_nat (windowCount lo hi intervalMs) * intervalMs)%Z)
         (r :: rs).
Proof.
  intros Hpos lo hi. destruct (minmax_bounds r rs) as (Hle & Hall & _).
  destruct (windowCount_spec Hpos Hle) as (H1 & _). fold lo hi in H1, Hall.
  eapply Forall_impl; [|exact Hall]. intros x Hx. cbv beta in *. lia.
Qed.

(** X16. For a positive whole interval and samples that can be spread,
    whose timestamps and their sums with the interval are integers of
    magnitude at most 2^53, the bucketer returns, and its points account for
    every sample once: the samples split into one non-empty group per point,
    the point's throughput is the binary64 quotient of the size of its group
    and the interval in seconds, its error count is the number of failed
    samples of its group; the error counts add up to the number of failed
    samples, and there are never more points than samples. *)
Theorem timeSeries_accounts_for_samples {engine : Engine} (results : list JTLResult)
  (intervalMs : Z)
  (Hpos : (0 < intervalMs)%Z)
  (Hfit : spreadable results) (Hsafe : safeTimes intervalMs results) :
  exists n pts groups,
    (forall fuel, (n <= fuel)%nat ->
       generateTimeSeriesData fuel results (Some (inject_Z intervalMs)) = Returned pts)
    /\ Permutation (concat groups) results
    /\ Forall2 (fun pt g =>
                  g <> []
                  /\ ts_throughput pt
                     = js_div (len g) (js_div (inject_Z intervalMs) 1000)
                  /\ ts_errorCount pt = len (filter (fun r => negb (success r)) g))
               pts groups
    /\ qsum (map ts_errorCount pts) == len (filter (fun r => negb (success r)) results)
    /\ (length pts <= length results)%nat.
Proof.
  destruct (generateTimeSeriesData_result Hpos Hfit Hsafe) as (n & Hrun).
  exists n. destruct results as [|r rs].
  - exists [], []. split; [exact Hrun|]. split; [constructor|]. split; [constructor|].
    split; [reflexivity | apply le_n].
  - set (lo := Math_min1 (timestamp r) (map timestamp rs)) in *.
    set (hi := Math_max1 (timestamp r) (map timestamp rs)) in *.
    set (ws := windowStarts lo intervalMs (windowCount lo hi intervalMs)).
    exists (spec_points (r :: rs) intervalMs lo hi),
           (flat_map (windowGroup (r :: rs) intervalMs) ws).
    split; [exact Hrun|]. unfold spec_points. fold ws.
    destruct (points_groups (r :: rs) intervalMs ws) as (Hg & Hc).
    destruct (points_totals (r :: rs) intervalMs ws) as (H2 & H3).
    pose proof (@windows_partition intervalMs lo (windowCount lo hi intervalMs) (r :: rs)
                  Hpos (walked_windows_cover r rs Hpos)) as Hpart.
    fold ws in Hpart.
    split; [now rewrite Hc|]. split.
    + eapply Forall2_impl; [|exact Hg]. intros pt g (Hne & _ & Ht & He).
      now repeat split.
    + rewrite H2, (len_perm (filter_perm _ Hpart)). split; [reflexivity|].
      now rewrite (Permutation_length Hpart) in H3.
Qed.

Lemma timeSeries_accounts_for_samples_witness :
  exists n pts groups,
    (forall fuel, (n <= fuel)%nat ->
       generateTimeSeriesData (engine := exampleEngine) fuel twoSamples
         (Some (inject_Z 1000)) = Returned pts)
    /\ Permutation (concat groups) twoSamples
    /\ Forall2 (fun pt g =>
                  g <> []
                  /\ ts_throughput pt = js_div (len g) (js_div (inject_Z 1000) 1000)
                  /\ ts_errorCount pt = len (filter (fun r => negb (success r)) g))
               pts groups
    /\ qsum (map ts_errorCount pts)
       == len (filter (fun r => negb (success r)) twoSamples)
    /\ (length pts <= length twoSamples)%nat.
Proof.
  apply (@timeSeries_accounts_for_samples exampleEngine twoSamples 1000).
  - reflexivity.
  - unfold spreadable. cbn. lia.
  - unfold safeTimes, twoSamples. repeat constructor; cbn; lia.
Defined.

Lemma windowStarts_increasing (intervalMs : Z) (n : nat) :
  (0 < intervalMs)%Z ->
  forall time,
    StronglySorted Z.lt (windowStarts time intervalMs n)
    /\ Forall (fun t => (time <= t)%Z) (windowStarts time intervalMs n).
Proof.
  intros Hpos. induction n as [|n IH]; intros time; cbn [windowStarts].
  - split; constructor.
  - destruct (IH (time + intervalMs)%Z) as [H1 H2]. split.
    + constructor; [exact H1|]. eapply Forall_impl; [|exact H2]. intros t Ht.
      cbv beta in *. lia.
    + constructor; [lia|]. eapply Forall_impl; [|exact H2]. intros t Ht.
      cbv beta in *. lia.
Qed.

(** A power of two from 2^-1074 on is a binary64 number. *)
Lemma round64_pow2 (k : Z) : (-1074 <= k)%Z -> round64 (pow2 k) == pow2 k.
Proof.
  intros Hk. rewrite (round64_positive (pow2_pos k)).
  apply (@round64_pos_exact (pow2 k) 1 k); [lia | exact Hk |].
  change (inject_Z 1) with 1. ring.
Qed.

(** The throughput of a window that holds a sample is positive. *)
Lemma throughput_positive (count intervalMs : Z) :
  (1 <= count)%Z -> (1 <= intervalMs <= 2 ^ 54)%Z ->
  0 < js_div (inject_Z count) (js_div (inject_Z intervalMs) 1000).
Proof.
  intros Hc Hi.
  assert (Hi1 : 1 <= inject_Z intervalMs)
    by (change 1 with (inject_Z 1); rewrite <- Zle_Qle; lia).
  assert (Hc1 : 1 <= inject_Z count)
    by (change 1 with (inject_Z 1); rewrite <- Zle_Qle; lia).
  assert (E10 : pow2 (-10) = 1 # 1024) by reflexivity.
  assert (Hb1 : pow2 (-10) <= js_div (inject_Z intervalMs) 1000).
  { apply Qle_trans with (round64 (pow2 (-10))).
    - rewrite round64_pow2 by lia. apply Qle_refl.
    - apply round64_mono. apply Qle_shift_div_l; [reflexivity|]. rewrite E10. lra. }
  assert (Hb2 : js_div (inject_Z intervalMs) 1000 <= inject_Z (2 ^ 53)).
  { unfold js_div. rewrite <- (@round64_Z (2 ^ 53)) by lia. apply round64_mono.
    apply Qle_shift_div_r; [reflexivity|]. change 1000 with (inject_Z 1000).
    rewrite <- inject_Z_mult, <- Zle_Qle. lia. }
  set (b := js_div (inject_Z intervalMs) 1000) in *.
  assert (Hb0 : 0 < b).
  { apply Qlt_le_trans with (pow2 (-10)); [apply pow2_pos | exact Hb1]. }
  unfold js_div. apply Qlt_le_trans with (round64 (pow2 (-53))).
  - rewrite round64_pow2 by lia. apply pow2_pos.
  - apply round64_mono. apply Qle_shift_div_l; [exact Hb0|].
    apply Qle_trans with (pow2 (-53) * inject_Z (2 ^ 53)).
    + apply Qmult_le_l; [apply pow2_pos | exact Hb2].
    + assert (E : pow2 (-53) * inject_Z (2 ^ 53) == 1) by (vm_compute; reflexivity).
      rewrite E. exact Hc1.
Qed.

Lemma windowPoint_member (results : list JTLResult) (intervalMs start : Z)
  (pt : TimeSeriesData) :
  (0 < intervalMs)%Z -> safeTimes intervalMs results ->
  In pt (windowPoint results intervalMs start) ->
  ts_timestamp pt = inject_Z start
  /\ 0 < ts_throughput pt
  /\ exists r, In r results /\ (start <= timestamp r < start + intervalMs)%Z.
Proof.
  intros Hpos Hsafe Hin. unfold windowPoint in Hin.
  destruct (filter (belongs start intervalMs) results) as [|r rs] eqn:E; [destruct Hin|].
  destruct Hin as [<- | []]. cbn [ts_timestamp ts_throughput].
  assert (Hr : In r (filter (belongs start intervalMs) results))
    by (rewrite E; now left).
  apply filter_In in Hr. destruct Hr as [Hr Hw].
  split; [reflexivity|]. split.
  - unfold len. apply throughput_positive.
    + cbn [length]. lia.
    + unfold safeTimes in Hsafe. rewrite Forall_forall in Hsafe.
      specialize (Hsafe r Hr). lia.
  - exists r. split; [exact Hr | now apply belongs_spec].
Qed.

Lemma points_sorted (results : list JTLResult) (intervalMs : Z) (ws : list Z) :
  StronglySorted Z.lt ws ->
  StronglySorted Qlt
    (map ts_timestamp (flat_map (windowPoint results intervalMs) ws))
  /\ Forall (fun s => exists t, In t ws /\ s = inject_Z t)
       (map ts_timestamp (flat_map (windowPoint results intervalMs) ws)).
Proof.
  induction 1 as [|t ws Hs [IH1 IH2] Hall]; [split; constructor|].
  cbn [flat_map]. rewrite map_app.
  assert (Hrest : Forall (fun s => exists t', In t' (t :: ws) /\ s = inject_Z t')
                    (map ts_timestamp (flat_map (windowPoint results intervalMs) ws))).
  { eapply Forall_impl; [|exact IH2]. intros s (t' & Ht' & ->).
    exists t'. split; [now right | reflexivity]. }
  destruct (windowPoint_point results intervalMs t) as [Hnil Hone].
  destruct (filter (belongs t intervalMs) results) as [|r rs] eqn:E.
  - rewrite (Hnil eq_refl). cbn [map app]. split; assumption.
  - destruct Hone as (pt & -> & Hts & _); [discriminate|]. cbn [map app].
    rewrite Hts. split.
    + constructor; [exact IH1|]. rewrite Forall_forall in *. intros s Hs'.
      destruct (IH2 s Hs') as (t' & Ht' & ->). rewrite <- Zlt_Qlt. now apply Hall.
    + constructor; [exists t; split; [now left | reflexivity] | exact Hrest].
Qed.

(** X17. For a positive whole interval and samples that can be spread,
    whose timestamps and their sums with the interval are integers of
    magnitude at most 2^53, the bucketer returns; its points come in
    strictly increasing order of their timestamps; the first one is stamped
    with the least timestamp of the run; every point stands for a window
    that holds a sample, so its throughput is positive. *)
Theorem timeSeries_points_ordered {engine : Engine} (results : list JTLResult)
  (intervalMs : Z)
  (Hpos : (0 < intervalMs)%Z)
  (Hfit : spreadable results) (Hsafe : safeTimes intervalMs results) :
  exists n pts,
    (forall fuel, (n <= fuel)%nat ->
       generateTimeSeriesData fuel results (Some (inject_Z intervalMs)) = Returned pts)
    /\ StronglySorted Qlt (map ts_timestamp pts)
    /\ Forall (fun pt =>
                 0 < ts_throughput pt
                 /\ exists r, In r results
                              /\ ts_timestamp pt <= inject_Z (timestamp r)
                              /\ inject_Z (timestamp r)
                                 < ts_timestamp pt + inject_Z intervalMs) pts
    /\ (results <> [] ->
        exists pt rest,
          pts = pt :: rest
          /\ In (ts_timestamp pt) (map (fun r => inject_Z (timestamp r)) results)
          /\ Forall (fun r => ts_timestamp pt <= inject_Z (timestamp r)) results).
Proof.
  destruct (generateTimeSeriesData_result Hpos Hfit Hsafe) as (n & Hrun).
  exists n. destruct results as [|r rs].
  - exists []. split; [exact Hrun|]. split; [constructor|].
    split; [constructor | congruence].
  - set (lo := Math_min1 (timestamp r) (map timestamp rs)) in *.
    set (hi := Math_max1 (timestamp r) (map timestamp rs)) in *.
    exists (spec_points (r :: rs) intervalMs lo hi). split; [exact Hrun|].
    unfold spec_points.
    destruct (windowStarts_increasing (windowCount lo hi intervalMs) Hpos lo) as [Hinc _].
    split; [now apply points_sorted|]. split.
    + apply Forall_forall. intros pt Hpt. apply in_flat_map in Hpt.
      destruct Hpt as (t & _ & Hpt).
      destruct (@windowPoint_member (r :: rs) intervalMs t pt Hpos Hsafe Hpt) as (Hts & Hthr & x & Hx & Hw).
      split; [exact Hthr|]. exists x. split; [exact Hx|]. rewrite Hts.
      rewrite <- inject_Z_plus, <- Zle_Qle, <- Zlt_Qlt. lia.
    + intros _. destruct (minmax_bounds r rs) as (Hle & Hall & Hlo & _).
      fold lo hi in Hle, Hall, Hlo.
      destruct (windowCount_spec Hpos Hle) as (_ & _ & Hn). fold lo hi in Hn.
      destruct (windowCount lo hi intervalMs) as [|k]; [lia|].
      cbn [windowStarts flat_map].
      destruct (windowPoint_point (r :: rs) intervalMs lo) as [_ Hone].
      destruct Hone as (pt & Hb & Hts & _).
      { apply in_map_iff in Hlo. destruct Hlo as (x & Hx & Hin). intros E.
        assert (H : In x (filter (belongs lo intervalMs) (r :: rs))).
        { apply filter_In. split; [exact Hin|]. apply belongs_spec. lia. }
        rewrite E in H. destruct H. }
      rewrite Hb. cbn [app]. eexists _, _. split; [reflexivity|].
      rewrite Hts. split.
      * apply in_map_iff in Hlo. destruct Hlo as (x & Hx & Hin).
        apply in_map_iff. exists x. split; [now rewrite Hx | exact Hin].
      * eapply Forall_impl; [|exact Hall]. intros x Hx. cbv beta in *.
        rewrite <- Zle_Qle. lia.
Qed.

Lemma timeSeries_points_ordered_witness :
  exists n pts,
    (forall fuel, (n <= fuel)%nat ->
       generateTimeSeriesData (engine := exampleEngine) fuel twoSamples
         (Some (inject_Z 1000)) = Returned pts)
    /\ StronglySorted Qlt (map ts_timestamp pts)
    /\ Forall (fun pt =>
                 0 < ts_throughput pt
                 /\ exists r, In r twoSamples
                              /\ ts_timestamp pt <= inject_Z (timestamp r)
                              /\ inject_Z (timestamp r)
                                 < ts_timestamp pt + inject_Z 1000) pts
    /\ (twoSamples <> [] ->
        exists pt rest,
          pts = pt :: rest
          /\ In (ts_timestamp pt) (map (fun r => inject_Z (timestamp r)) twoSamples)
          /\ Forall (fun r => ts_timestamp pt <= inject_Z (timestamp r)) twoSamples).
Proof.
  apply (@timeSeries_points_ordered exampleEngine twoSamples 1000).
  - reflexivity.
  - unfold spreadable. cbn. lia.
  - unfold safeTimes, twoSamples. repeat constructor; cbn; lia.
Defined.





(** ** Record parser: what [parseCsvLine] returns on any line *)

Lemma trim_end_cons (c : ascii) (s : string) :
  trim_end (String c s)
  = match trim_end s with
    | EmptyString => if is_space c then EmptyString else String c EmptyString
    | t => String c t
    end.
Proof. reflexivity. Qed.

Lemma trim_end_idem (s : string) : trim_end (trim_end s) = trim_end s.
Proof.
  induction s as [|c s IH]; [reflexivity|]. rewrite trim_end_cons.
  destruct (trim_end s) as [|d t] eqn:E.
  - destruct (is_space c) eqn:Ec; [reflexivity|]. cbn [trim_end]. now rewrite Ec.
  - rewrite trim_end_cons, IH. reflexivity.
Qed.

(** The string is empty or begins with a character that is no white space. *)
Lemma trim_start_head (s : string) :
  match trim_start s with
  | EmptyString => True
  | String c _ => is_space c = false
  end.
Proof.
  induction s as [|c s IH]; [exact I|]. cbn [trim_start].
  destruct (is_space c) eqn:E; [exact IH | exact E].
Qed.

Lemma trim_end_head (s : string) :
  match s with EmptyString => True | String c _ => is_space c = false end ->
  match trim_end s with
  | EmptyString => s = EmptyString
  | String c _ => is_space c = false
  end.
Proof.
  destruct s as [|c s]; [reflexivity|]. intros Hc. cbn [trim_end].
  destruct (trim_end s); [now rewrite Hc | exact Hc].
Qed.

Lemma trim_start_fixed (s : string) :
  match s with EmptyString => True | String c _ => is_space c = false end ->
  trim_start s = s.
Proof. destruct s as [|c s]; [reflexivity|]. intros Hc. cbn [trim_start]. now rewrite Hc. Qed.

Lemma trim_idem (s : string) : trim (trim s) = trim s.
Proof.
  unfold trim. pose proof (trim_end_head _ (trim_start_head s)) as H.
  rewrite trim_start_fixed.
  - apply trim_end_idem.
  - destruct (trim_end (trim_start s)); [exact I | exact H].
Qed.

Lemma trim_start_has_char (c : ascii) (s : string) :
  has_char c (trim_start s) = true -> has_char c s = true.
Proof.
  induction s as [|d s IH]; [discriminate|]. cbn [trim_start].
  destruct (is_space d); [|now intros H].
  intros H. cbn [has_char]. rewrite (IH H). apply orb_true_r.
Qed.

Lemma trim_end_has_char (c : ascii) (s : string) :
  has_char c (trim_end s) = true -> has_char c s = true.
Proof.
  induction s as [|d s IH]; [discriminate|]. cbn [trim_end has_char].
  destruct (trim_end s) as [|e t].
  - destruct (is_space d); [discriminate|]. cbn [has_char].
    rewrite orb_false_r. intros ->. reflexivity.
  - cbn [has_char] in *. intros H. apply orb_true_iff in H.
    destruct H as [-> | H]; [reflexivity|]. rewrite (IH H). apply orb_true_r.
Qed.

Lemma trim_has_char (c : ascii) (s : string) :
  has_char c (trim s) = true -> has_char c s = true.
Proof. intros H. now apply trim_start_has_char, trim_end_has_char. Qed.

Lemma parseCsvLoop_clean (line : string) :
  forall (values : list string) (current : string) (inQuotes : bool),
    has_char dquote current = false ->
    Forall (fun v => has_char dquote v = false /\ trim v = v) values ->
    Forall (fun v => has_char dquote v = false /\ trim v = v)
           (parseCsvLoop line values current inQuotes)
    /\ parseCsvLoop line values current inQuotes <> [].
Proof.
  assert (Hpush : forall values current,
             has_char dquote current = false ->
             Forall (fun v => has_char dquote v = false /\ trim v = v) values ->
             Forall (fun v => has_char dquote v = false /\ trim v = v)
                    (push values (trim current))).
  { intros values current Hc Hv. unfold push. apply Forall_app. split; [exact Hv|].
    constructor; [|constructor]. split; [|apply trim_idem].
    destruct (has_char dquote (trim current)) eqn:E; [|reflexivity].
    apply trim_has_char in E. congruence. }
  induction line as [|c rest IH]; intros values current inQuotes Hc Hv.
  - cbn [parseCsvLoop]. split; [now apply Hpush|]. unfold push. now destruct values.
  - cbn [parseCsvLoop]. destruct (Ascii.eqb c dquote) eqn:Eq; [now apply IH|].
    destruct (Ascii.eqb c "," && negb inQuotes).
    + apply IH; [reflexivity | now apply Hpush].
    + apply IH; [|exact Hv]. rewrite has_char_append. rewrite Hc. cbn [has_char orb].
      now rewrite Eq.
Qed.

(** X19. Whatever the line, [parseCsvLine] returns at least one value, so
    the guard that skips lines without values never fires; no value holds a
    double quote, and every value is free of surrounding white space. *)
Theorem parseCsvLine_values_clean (line : string) :
  parseCsvLine line <> []
  /\ Forall (fun v => has_char dquote v = false /\ trim v = v) (parseCsvLine line).
Proof.
  destruct (@parseCsvLoop_clean line [] EmptyString false eq_refl (Forall_nil _)) as [H1 H2].
  split; assumption.
Qed.

Lemma trim_end_snoc_space (s : string) (c : ascii) :
  is_space c = true -> trim_end (s ++ String c EmptyString) = trim_end s.
Proof.
  intros Hc. induction s as [|d s IH]; cbn [append trim_end].
  - now rewrite Hc.
  - now rewrite IH.
Qed.

Lemma trim_start_snoc_space (s : string) (c : ascii) :
  is_space c = true ->
  trim_start (s ++ String c EmptyString)
  = match trim_start s with
    | EmptyString => EmptyString
    | t => (t ++ String c EmptyString)%string
    end.
Proof.
  intros Hc. induction s as [|d s IH]; cbn [append trim_start].
  - now rewrite Hc.
  - destruct (is_space d); [exact IH | reflexivity].
Qed.

Lemma trim_snoc_space (s : string) (c : ascii) :
  is_space c = true -> trim (s ++ String c EmptyString) = trim s.
Proof.
  intros Hc. unfold trim. rewrite trim_start_snoc_space by exact Hc.
  destruct (trim_start s) as [|d t]; [reflexivity|].
  now apply trim_end_snoc_space.
Qed.

Lemma is_space_plain (c : ascii) :
  is_space c = true -> Ascii.eqb c dquote = false /\ Ascii.eqb c "," = false.
Proof.
  intros H. split.
  - destruct (Ascii.eqb_spec c dquote) as [-> | _]; [discriminate H | reflexivity].
  - destruct (Ascii.eqb_spec c ",") as [-> | _]; [discriminate H | reflexivity].
Qed.

Lemma parseCsvLoop_trailing_space (c : ascii) (line : string) :
  is_space c = true ->
  forall (values : list string) (current : string) (inQuotes : bool),
    parseCsvLoop (line ++ String c EmptyString) values current inQuotes
    = parseCsvLoop line values current inQuotes.
Proof.
  intros Hspace. destruct (is_space_plain c Hspace) as [Hq Hc].
  induction line as [|d rest IH]; intros values current inQuotes.
  - cbn [append parseCsvLoop]. rewrite Hq, Hc. cbn [andb parseCsvLoop].
    now rewrite trim_snoc_space.
  - cbn [append parseCsvLoop]. destruct (Ascii.eqb d dquote); [apply IH|].
    destruct (Ascii.eqb d "," && negb inQuotes); apply IH.
Qed.

Lemma parseCsvLine_trailing_space_aux (line : string) :
  parseCsvLine (line ++ String carriageReturn EmptyString) = parseCsvLine line.
Proof. unfold parseCsvLine. now apply parseCsvLoop_trailing_space. Qed.

(** X20. A white-space character at the end of a line, such as the
    carriage return of a CRLF line ending, does not change what
    [parseCsvLine] returns. *)
Theorem parseCsvLine_trailing_space (line : string) (c : ascii)
  (Hspace : is_space c = true) :
  parseCsvLine (line ++ String c EmptyString) = parseCsvLine line.
Proof. unfold parseCsvLine. now apply parseCsvLoop_trailing_space. Qed.

Lemma parseCsvLine_trailing_space_witness :
  parseCsvLine (quotedLine ++ String "013" EmptyString) = parseCsvLine quotedLine.
Proof. apply parseCsvLine_trailing_space. reflexivity. Defined.

(** ** Record parser: the records of a delimited log *)

Lemma parseCsvRecord_fold (headers : list string) (data : list string)
  (acc : list JTLResult) :
  fold_left (parseCsvRecord headers) data acc
  = acc ++ map (fun line => csvRecord (csvRow headers (parseCsvLine line))) data.
Proof.
  revert acc; induction data as [|line data IH]; intros acc; cbn [fold_left map].
  - now rewrite app_nil_r.
  - rewrite IH. unfold parseCsvRecord, push.
    destruct (@parseCsvLoop_clean line [] EmptyString false eq_refl (Forall_nil _))
      as [_ Hne].
    fold (parseCsvLine line) in Hne.
    destruct (parseCsvLine line) as [|v vs] eqn:E; [congruence|].
    now rewrite <- app_assoc.
Qed.

Lemma rowLabel_nonempty (row : JsObject string) : rowLabel row <> EmptyString.
Proof.
  unfold rowLabel. destruct (own_get "label" row) as [[|c v]|]; discriminate.
Qed.

(** X21. [parseCsvResults] takes the first non-blank line as the header and
    turns every other non-blank line into one record, in input order: no
    line is skipped, a log without data lines gives no record, and the label
    of a record is never empty (a missing or empty label becomes
    "Unknown"). *)
Theorem parseCsvResults_records (content : string) :
  length (parseCsvResults content) = pred (length (csvLines content))
  /\ Forall (fun r => label r <> EmptyString) (parseCsvResults content)
  /\ (forall header data,
        csvLines content = header :: data ->
        parseCsvResults content
        = map (fun line =>
                 csvRecord (csvRow (map trim (split_on "," header)) (parseCsvLine line)))
              data).
Proof.
  unfold parseCsvResults. destruct (csvLines content) as [|header data].
  - split; [reflexivity|]. split; [constructor | discriminate].
  - rewrite parseCsvRecord_fold. cbn [app length pred]. split; [apply length_map|].
    split.
    + apply Forall_forall. intros r Hr. apply in_map_iff in Hr.
      destruct Hr as (line & <- & _). apply rowLabel_nonempty.
    + intros h d [= <- <-]. reflexivity.
Qed.

Lemma split_on_cons (sep : ascii) (s : string) :
  exists part parts, split_on sep s = part :: parts.
Proof.
  induction s as [|c s (p & ps & IH)]; [now eexists _, _|]. cbn [split_on].
  destruct (Ascii.eqb c sep); [now eexists _, _|]. rewrite IH. now eexists _, _.
Qed.

Lemma split_on_none (sep : ascii) (s : string) :
  has_char sep s = false -> split_on sep s = [s].
Proof.
  induction s as [|c s IH]; [reflexivity|]. cbn [has_char split_on].
  intros H. apply orb_false_iff in H. destruct H as [H1 H2].
  rewrite H1, (IH H2). reflexivity.
Qed.

Lemma split_on_first (sep : ascii) (l rest : string) :
  has_char sep l = false ->
  split_on sep (l ++ String sep rest) = l :: split_on sep rest.
Proof.
  induction l as [|c l IH]; cbn [append has_char split_on].
  - intros _. now rewrite Ascii.eqb_refl.
  - intros H. apply orb_false_iff in H. destruct H as [H1 H2].
    rewrite H1, (IH H2). reflexivity.
Qed.

Lemma split_unlines (lines : list string) :
  lines <> [] -> Forall (fun l => has_char newline l = false) lines ->
  split_on newline (unlines lines) = lines.
Proof.
  intros Hne Hall. induction Hall as [|l ls Hl Hls IH]; [congruence|].
  destruct ls as [|l' ls].
  - cbn [unlines]. now apply split_on_none.
  - change (unlines (l :: l' :: ls)) with (l ++ String newline (unlines (l' :: ls)))%string.
    rewrite split_on_first by exact Hl. f_equal. apply IH. discriminate.
Qed.

Lemma app_last_cons (p : string) (ps : list string) (t : string) :
  ps <> [] -> app_last (p :: ps) t = p :: app_last ps t.
Proof. destruct ps; [congruence | reflexivity]. Qed.

Lemma split_on_snoc (sep c : ascii) (s : string) :
  Ascii.eqb c sep = false ->
  split_on sep (s ++ String c EmptyString)
  = app_last (split_on sep s) (String c EmptyString).
Proof.
  intros Hc. induction s as [|d s IH]; cbn [append split_on].
  - now rewrite Hc.
  - rewrite IH. destruct (split_on_cons sep s) as (p & ps & E). rewrite E.
    destruct (Ascii.eqb d sep).
    + rewrite (@app_last_cons EmptyString (p :: ps)) by discriminate. reflexivity.
    + destruct ps as [|p' ps]; reflexivity.
Qed.

Lemma map_trim_app_last (parts : list string) (c : ascii) :
  is_space c = true ->
  map trim (app_last parts (String c EmptyString)) = map trim parts.
Proof.
  intros Hc. induction parts as [|p ps IH]; [reflexivity|].
  destruct ps as [|p' ps].
  - cbn [app_last map]. now rewrite trim_snoc_space.
  - rewrite app_last_cons by discriminate. cbn [map] in *. now rewrite IH.
Qed.

Lemma filter_map_commute (A : Type) (f : A -> A) (p : A -> bool) (l : list A) :
  (forall x, p (f x) = p x) -> filter p (map f l) = map f (filter p l).
Proof.
  intros H. induction l as [|x l IH]; [reflexivity|]. cbn [map filter].
  rewrite H. destruct (p x); cbn [map]; now rewrite IH.
Qed.

Lemma parseCsvRecord_fold_CR (headers : list string) (data : list string)
  (acc : list JTLResult) :
  fold_left (parseCsvRecord headers) (map withCR data) acc
  = fold_left (parseCsvRecord headers) data acc.
Proof.
  revert acc; induction data as [|line data IH]; intros acc; [reflexivity|].
  cbn [map fold_left]. rewrite IH. f_equal. unfold parseCsvRecord, withCR.
  now rewrite (@parseCsvLine_trailing_space_aux line).
Qed.

(** X22. A log with CRLF line endings parses into the same records as the
    log with LF line endings. *)
Theorem parseCsvResults_crlf (lines : list string)
  (Hlines : Forall (fun l => has_char newline l = false) lines) :
  parseCsvResults (unlines (map withCR lines)) = parseCsvResults (unlines lines).
Proof.
  destruct lines as [|l ls]; [reflexivity|].
  assert (HCR : Forall (fun x => has_char newline x = false) (map withCR (l :: ls))).
  { apply Forall_map. eapply Forall_impl; [|exact Hlines]. intros x Hx.
    unfold withCR. rewrite has_char_append, Hx. reflexivity. }
  unfold parseCsvResults, csvLines.
  rewrite (split_unlines (lines := map withCR (l :: ls))) by (discriminate || exact HCR).
  rewrite (split_unlines (lines := l :: ls)) by (discriminate || exact Hlines).
  rewrite filter_map_commute
    by (intros x; unfold withCR; now rewrite trim_snoc_space).
  destruct (filter (fun line => negb (String.eqb (trim line) EmptyString)) (l :: ls))
    as [|header data]; [reflexivity|].
  cbn [map]. unfold withCR at 1.
  rewrite split_on_snoc by reflexivity. rewrite map_trim_app_last by reflexivity.
  apply parseCsvRecord_fold_CR.
Qed.

Lemma parseCsvResults_crlf_witness :
  parseCsvResults (unlines (map withCR smallLog)) = parseCsvResults (unlines smallLog).
Proof.
  apply parseCsvResults_crlf. repeat constructor.
Defined.

(** ** The complete analysis *)

(** Without an interval the bucketer runs with the default of 10000. *)
Lemma generateTimeSeriesData_default {engine : Engine} (results : list JTLResult) :
  spreadable results -> safeTimes 10000 results ->
  exists n pts, forall fuel, (n <= fuel)%nat ->
    generateTimeSeriesData fuel results None = Returned pts.
Proof.
  intros Hfit Hsafe.
  destruct (@generateTimeSeriesData_result engine results 10000 eq_refl Hfit Hsafe)
    as (n & Hrun).
  exists n. eexists. intros fuel Hfuel. exact (Hrun fuel Hfuel).
Qed.

(** The three steps before the recommendations return on samples with plain
    labels that can be spread. *)
Lemma analysis_steps {engine : Engine} (results : list JTLResult) :
  (forall r, In r results -> inherited (label r) = false) -> spreadable results ->
  exists m endpointMetrics clusters,
    calculateMetrics results = Some m
    /\ calculateEndpointMetrics results = Some endpointMetrics
    /\ analyzeErrors results = Some clusters.
Proof.
  intros Hplain Hfit.
  destruct (calculateMetrics_defined Hfit) as (m & Hm).
  assert (E : existsb (fun x => inherited (label x)) results = false).
  { destruct (existsb (fun x => inherited (label x)) results) eqn:E; [|reflexivity].
    apply existsb_exists in E. destruct E as (r & Hr & Hi).
    rewrite (Hplain r Hr) in Hi. discriminate. }
  destruct (calculateEndpointMetrics_steps results E (spreadable_sameLabel Hfit))
    as (entries & metrics & _ & _ & He).
  destruct (analyzeErrors_total results) as (clusters & Hc).
  exists m, (js_sort by_average_desc metrics), clusters. now repeat split.
Qed.

(** X23. The complete analysis of samples as the parser of the delimited
    format delivers them (every text field a string).  It throws when a
    label names a property of [Object.prototype], and when the samples
    are more than the engine passes as arguments.  Without such a label, for
    samples that can be spread and whose timestamps and their sums with 10000
    are integers of magnitude at most 2^53, it returns the summary, the
    endpoint metrics, the error clusters, the bottlenecks of exactly these
    and at least one recommendation.  A timestamp that absorbs the default
    interval, such as 10^21, keeps the time-series loop from ever leaving:
    the analysis of that sample never returns. *)
Theorem analyzeParsed_outcomes {engine : Engine} (results : list JTLResult) :
  ((exists r, In r results /\ inherited (label r) = true) ->
   forall fuel, analyzeParsed fuel results = Thrown)
  /\ (results <> [] -> ~ spreadable results ->
      forall fuel, analyzeParsed fuel results = Thrown)
  /\ ((forall r, In r results -> inherited (label r) = false) ->
      spreadable results -> safeTimes 10000 results ->
      exists n a, forall fuel, (n <= fuel)%nat ->
        analyzeParsed fuel results = Returned a
        /\ calculateMetrics results = Some (summary a)
        /\ calculateEndpointMetrics results = Some (endpoints a)
        /\ analyzeErrors results = Some (errors a)
        /\ bottlenecks a = identifyBottlenecks (summary a) (endpoints a)
        /\ recommendations a
           = generateRecommendations (summary a) (bottlenecks a) (errors a)
        /\ recommendations a <> [])
  /\ (spreadable farRun -> forall fuel, analyzeParsed fuel farRun = Pending).
Proof.
  split; [|split; [|split]].
  - intros (r & Hr & Hi) fuel. unfold analyzeParsed.
    destruct (calculateMetrics results) as [m|]; [|reflexivity].
    unfold calculateEndpointMetrics. rewrite groupBy_result.
    assert (E : existsb (fun x => inherited (label x)) results = true)
      by (apply existsb_exists; now exists r).
    now rewrite E.
  - intros Hne Hbig fuel. unfold analyzeParsed.
    now rewrite (calculateMetrics_throws Hne Hbig).
  - intros Hplain Hfit Hsafe.
    destruct (analysis_steps Hplain Hfit) as (m & out & clusters & Hm & He & Hc).
    destruct (generateTimeSeriesData_default Hfit Hsafe) as (n & pts & Hts).
    exists n. eexists. intros fuel Hfuel. unfold analyzeParsed.
    rewrite Hm, He, Hc, (Hts fuel Hfuel).
    split; [reflexivity|]. cbn [summary endpoints errors bottlenecks recommendations].
    repeat (split; [reflexivity|]).
    unfold generateRecommendations, push. now destruct (advisories _ _ _).
  - intros Hfit fuel.
    destruct (@analysis_steps engine farRun) as (m & out & clusters & Hm & He & Hc).
    + intros r [<- | []]. reflexivity.
    + exact Hfit.
    + unfold analyzeParsed. rewrite Hm, He, Hc.
      change (generateTimeSeriesData fuel farRun None)
        with (generateTimeSeriesData fuel farRun (Some 10000)).
      unfold farRun at 1. rewrite generateTimeSeriesData_loop by exact Hfit.
      rewrite timeSeriesLoop_absorbed; [reflexivity | | |]; vm_compute; reflexivity.
Qed.

Lemma analyzeParsed_outcomes_witness :
  (forall fuel, analyzeParsed (engine := exampleEngine) fuel inheritedLabel = Thrown)
  /\ exists n a, forall fuel, (n <= fuel)%nat ->
       analyzeParsed (engine := exampleEngine) fuel mixedRun = Returned a.
Proof.
  split.
  - apply (proj1 (@analyzeParsed_outcomes exampleEngine inheritedLabel)).
    eexists. split; [left; reflexivity | reflexivity].
  - destruct (proj1 (proj2 (proj2 (@analyzeParsed_outcomes exampleEngine mixedRun))))
      as (n & a & H).
    + intros r [<- | [<- | [<- | []]]]; reflexivity.
    + unfold spreadable. cbn. lia.
    + unfold safeTimes, mixedRun. repeat constructor; cbn; lia.
    + exists n, a. intros fuel Hfuel. exact (proj1 (H fuel Hfuel)).
Defined.

Lemma StronglySorted_app_inv (A : Type) (R : A -> A -> Prop) (l1 l2 : list A) :
  StronglySorted R (l1 ++ l2) -> forall a b, In a l1 -> In b l2 -> R a b.
Proof.
  induction l1 as [|x l1 IH]; intros Hs a b Ha Hb; [destruct Ha|].
  cbn [app] in Hs. inversion Hs as [|? ? Hs' Hall]; subst.
  destruct Ha as [<- | Ha].
  - rewrite Forall_forall in Hall. apply Hall, in_or_app. now right.
  - now apply IH.
Qed.

(** X24. The endpoints shown by the tool are the first ten of the analysis:
    at most ten, and none of the endpoints left out has a higher average
    response time than one that is shown. *)
Theorem topEndpoints_are_slowest {engine : Engine} (fuel : nat) (results : list JTLResult)
  (a : AnalysisResult)
  (Hrun : analyzeParsed fuel results = Returned a) :
  (length (topEndpoints a) <= 10)%nat
  /\ forall shown hidden,
       In shown (topEndpoints a) -> In hidden (skipn 10 (endpoints a)) ->
       em_average hidden <= em_average shown.
Proof.
  unfold topEndpoints. split; [apply firstn_le_length|].
  unfold analyzeParsed in Hrun.
  destruct (calculateMetrics results) as [m|]; [|discriminate].
  destruct (calculateEndpointMetrics results) as [out|] eqn:Eout; [|discriminate].
  destruct (analyzeErrors results) as [errs|]; [|discriminate].
  destruct (generateTimeSeriesData fuel results None) as [pts| |]; try discriminate.
  injection Hrun as <-. cbn [endpoints].
  destruct (calculateEndpointMetrics_sorted _ Eout) as [Hsorted _].
  apply Sorted_StronglySorted in Hsorted.
  - intros shown hidden Hs Hh.
    apply (@StronglySorted_app_inv _ (fun a b => em_average b <= em_average a)
             (firstn 10 out) (skipn 10 out)); try assumption.
    now rewrite firstn_skipn.
  - intros x y z Hxy Hyz. eapply Qle_trans; eassumption.
Qed.

Lemma topEndpoints_are_slowest_witness :
  exists a,
    analyzeParsed (engine := exampleEngine) 2 mixedRun = Returned a
    /\ (length (topEndpoints a) <= 10)%nat.
Proof.
  destruct (analyzeParsed (engine := exampleEngine) 2 mixedRun) as [a| |] eqn:E.
  - exists a. split; [reflexivity|].
    exact (proj1 (@topEndpoints_are_slowest exampleEngine 2 mixedRun a E)).
  - vm_compute in E. discriminate E.
  - vm_compute in E. discriminate E.
Defined.

(** ** Test-plan builder: escaping *)

Lemma replace_char_app (c : ascii) (r s t : string) :
  replace_char c r (s ++ t) = (replace_char c r s ++ replace_char c r t)%string.
Proof.
  induction s as [|d s IH]; [reflexivity|]. cbn [append replace_char].
  destruct (Ascii.eqb d c); rewrite IH; [now rewrite append_assoc | reflexivity].
Qed.

Lemma escapeXml_cons (c : ascii) (text : string) :
  escapeXml (String c text) = (escapeChar c ++ escapeXml text)%string.
Proof.
  unfold escapeXml, escapeChar. cbn [replace_char].
  destruct (Ascii.eqb_spec c "&") as [-> | H1].
  { rewrite !replace_char_app. reflexivity. }
  cbn [replace_char]. destruct (Ascii.eqb_spec c "<") as [-> | H2].
  { rewrite !replace_char_app. reflexivity. }
  cbn [replace_char]. destruct (Ascii.eqb_spec c ">") as [-> | H3].
  { rewrite !replace_char_app. reflexivity. }
  cbn [replace_char]. destruct (Ascii.eqb_spec c dquote) as [-> | H4].
  { rewrite !replace_char_app. reflexivity. }
  cbn [replace_char]. destruct (Ascii.eqb_spec c "'") as [-> | H5].
  { reflexivity. }
  reflexivity.
Qed.

Lemma escapeXml_once (text : string) : escapeXml text = escapeOnce text.
Proof.
  induction text as [|c text IH]; [reflexivity|].
  rewrite escapeXml_cons. cbn [escapeOnce]. now rewrite IH.
Qed.

Lemma escapeChar_safe (c d : ascii) :
  In d ["<"; ">"; dquote; "'"]%char -> has_char d (escapeChar c) = false.
Proof.
  intros Hd. unfold escapeChar.
  destruct (Ascii.eqb_spec c "&") as [-> | H1];
    [cbn [In] in Hd; decompose [or] Hd; subst; try reflexivity; contradiction|].
  destruct (Ascii.eqb_spec c "<") as [-> | H2];
    [cbn [In] in Hd; decompose [or] Hd; subst; try reflexivity; contradiction|].
  destruct (Ascii.eqb_spec c ">") as [-> | H3];
    [cbn [In] in Hd; decompose [or] Hd; subst; try reflexivity; contradiction|].
  destruct (Ascii.eqb_spec c dquote) as [-> | H4];
    [cbn [In] in Hd; decompose [or] Hd; subst; try reflexivity; contradiction|].
  destruct (Ascii.eqb_spec c "'") as [-> | H5];
    [cbn [In] in Hd; decompose [or] Hd; subst; try reflexivity; contradiction|].
  cbn [has_char]. rewrite orb_false_r. apply Ascii.eqb_neq.
  cbn [In] in Hd. decompose [or] Hd; subst; try congruence; contradiction.
Qed.

(** X25. [escapeXml] has the effect of one pass that replaces each of the
    five special characters by its entity: the five replacements do not
    escape one another's output, and the result holds no [<], no [>] and no
    quote character. *)
Theorem escapeXml_safe (text : string) :
  escapeXml text = escapeOnce text
  /\ has_char "<" (escapeXml text) = false
  /\ has_char ">" (escapeXml text) = false
  /\ has_char dquote (escapeXml text) = false
  /\ has_char "'" (escapeXml text) = false.
Proof.
  split; [apply escapeXml_once|].
  assert (H : forall d, In d ["<"; ">"; dquote; "'"]%char ->
                        has_char d (escapeXml text) = false).
  { intros d Hd. rewrite escapeXml_once.
    induction text as [|c text IH]; [reflexivity|]. cbn [escapeOnce].
    rewrite has_char_append, IH, escapeChar_safe by assumption. reflexivity. }
  repeat split; apply H; cbn [In]; tauto.
Qed.

Lemma escapeOnce_injective (a : string) :
  forall b, escapeOnce a = escapeOnce b -> a = b.
Proof.
  induction a as [|c a IH]; intros [|d b] H.
  - reflexivity.
  - exfalso. cbn [escapeOnce] in H. unfold escapeChar in H.
    destruct (Ascii.eqb d "&"), (Ascii.eqb d "<"), (Ascii.eqb d ">"),
      (Ascii.eqb d dquote), (Ascii.eqb d "'"); discriminate H.
  - exfalso. cbn [escapeOnce] in H. unfold escapeChar in H.
    destruct (Ascii.eqb c "&"), (Ascii.eqb c "<"), (Ascii.eqb c ">"),
      (Ascii.eqb c dquote), (Ascii.eqb c "'"); discriminate H.
  - cbn [escapeOnce] in H. unfold escapeChar in H.
    destruct (Ascii.eqb_spec c "&") as [-> | Hc1];
      [|destruct (Ascii.eqb_spec c "<") as [-> | Hc2];
        [|destruct (Ascii.eqb_spec c ">") as [-> | Hc3];
          [|destruct (Ascii.eqb_spec c dquote) as [-> | Hc4];
            [|destruct (Ascii.eqb_spec c "'") as [-> | Hc5]]]]];
      (destruct (Ascii.eqb_spec d "&") as [-> | Hd1];
       [|destruct (Ascii.eqb_spec d "<") as [-> | Hd2];
         [|destruct (Ascii.eqb_spec d ">") as [-> | Hd3];
           [|destruct (Ascii.eqb_spec d dquote) as [-> | Hd4];
             [|destruct (Ascii.eqb_spec d "'") as [-> | Hd5]]]]]);
      cbn [append] in H; unfold dquote in *;
      first [ congruence | f_equal; try congruence; apply IH; congruence ].
Qed.

(** X26. [escapeXml] loses nothing: different texts have different
    escapings. *)
Theorem escapeXml_injective (a b : string) (H : escapeXml a = escapeXml b) : a = b.
Proof. rewrite !escapeXml_once in H. now apply escapeOnce_injective. Qed.

Lemma escapeXml_injective_witness : "a<b&c"%string = "a<b&c"%string.
Proof. apply escapeXml_injective. reflexivity. Defined.
